(** * ergo-solver: a shallow embedding of the puzzle-solving orchestrator

    The development follows the Go sources: [api.go] (remote client and
    [apiError]), the proof-of-work file ([ensurePow], [computePowNonce],
    [hasLeadingZeroNibbles]) and [main.go] ([runSolve], the retry wrappers,
    [ensureLoginInteractive], the error classifiers).

    Go's [int], [int64] and [time.Duration] are 64-bit: they are modelled as
    [Z] with the wrap-around written where the code does arithmetic.  Go
    strings are byte strings, modelled as [string]. *)

From Stdlib Require Import ZArith String Ascii Bool Lia DecimalString List.
Import ListNotations.

Local Open Scope Z_scope.

(** ** Machine integers *)

Definition minInt64 : Z := - 2 ^ 63.
Definition maxInt64 : Z := 2 ^ 63 - 1.

(** Two's complement wrap-around of a 64-bit signed integer. *)
Definition wrap64 (z : Z) : Z := (z + 2 ^ 63) mod 2 ^ 64 - 2 ^ 63.

(** Saturation, as [time.Time.Sub] does on overflow. *)
Definition sat64 (z : Z) : Z :=
  if z <? minInt64 then minInt64 else if maxInt64 <? z then maxInt64 else z.

(** ** Strings and bytes *)

(** [[]byte(s)]: the bytes of a Go string. *)
Fixpoint bytes_of_string (s : string) : list Z :=
  match s with
  | EmptyString => []
  | String c s' => Z.of_N (N_of_ascii c) :: bytes_of_string s'
  end.

(** [strconv.Itoa]. *)
Definition Itoa (i : Z) : string := NilZero.string_of_int (Z.to_int i).

(** ** crypto/sha256

    [Sum256] is the standard library's SHA-256 (FIPS 180-4) on byte lists;
    the digest is the 32 bytes of a [[sha256.Size]byte]. *)
Module Sha256.

Definition w32 (x : Z) : Z := x mod 2 ^ 32.
Definition add32 (x y : Z) : Z := w32 (x + y).
Definition rotr (n x : Z) : Z :=
  Z.lor (Z.shiftr x n) (w32 (Z.shiftl x (32 - n))).
Definition not32 (x : Z) : Z := Z.lxor x 0xffffffff.

Definition Ch (x y z : Z) : Z := Z.lxor (Z.land x y) (Z.land (not32 x) z).
Definition Maj (x y z : Z) : Z :=
  Z.lxor (Z.lxor (Z.land x y) (Z.land x z)) (Z.land y z).
Definition Sigma0 (x : Z) : Z :=
  Z.lxor (Z.lxor (rotr 2 x) (rotr 13 x)) (rotr 22 x).
Definition Sigma1 (x : Z) : Z :=
  Z.lxor (Z.lxor (rotr 6 x) (rotr 11 x)) (rotr 25 x).
Definition sigma0 (x : Z) : Z :=
  Z.lxor (Z.lxor (rotr 7 x) (rotr 18 x)) (Z.shiftr x 3).
Definition sigma1 (x : Z) : Z :=
  Z.lxor (Z.lxor (rotr 17 x) (rotr 19 x)) (Z.shiftr x 10).

(** The round constants and the initial chaining value are the first 32
    bits of the fractional parts of the cube roots of the first 64 primes
    and of the square roots of the first 8. *)
Definition isPrime (n : nat) : bool :=
  forallb (fun d => negb (Nat.eqb (Nat.modulo n d) 0)) (seq 2 (n - 2)).

Definition primes : list Z :=
  map Z.of_nat (filter isPrime (seq 2 310)).

(** The integer cube root of [x], found bit by bit below bit [n]. *)
Fixpoint cbrtBits (n : nat) (x r : Z) : Z :=
  match n with
  | O => r
  | S n' =>
      let c := r + 2 ^ Z.of_nat n' in
      if c * c * c <=? x then cbrtBits n' x c else cbrtBits n' x r
  end.

Definition K : list Z :=
  Eval vm_compute in
    map (fun p => cbrtBits 40 (p * 2 ^ 96) 0 mod 2 ^ 32) primes.

(** The eight working variables [a..h] / the chaining value. *)
Definition state : Type := (Z * Z * Z * Z * Z * Z * Z * Z)%type.

Definition fracSqrt (p : Z) : Z := Z.sqrt (p * 2 ^ 64) mod 2 ^ 32.

Definition init : state :=
  Eval vm_compute in
    (fracSqrt 2, fracSqrt 3, fracSqrt 5, fracSqrt 7,
     fracSqrt 11, fracSqrt 13, fracSqrt 17, fracSqrt 19).

(** Message padding: a [0x80] byte, zeros up to 56 mod 64, then the bit
    length as a big-endian 64-bit integer. *)
Definition be_bytes (n : nat) (x : Z) : list Z :=
  map (fun k => Z.shiftr x (8 * Z.of_nat k) mod 256) (rev (seq 0 n)).

Definition pad (msg : list Z) : list Z :=
  let len := Z.of_nat (length msg) in
  msg ++ [0x80] ++ repeat 0 (Z.to_nat ((55 - len) mod 64))
      ++ be_bytes 8 ((8 * len) mod 2 ^ 64).

Fixpoint be_words (n : nat) (bs : list Z) : list Z :=
  match n, bs with
  | S n', b0 :: b1 :: b2 :: b3 :: rest =>
      (((b0 * 256 + b1) * 256 + b2) * 256 + b3) :: be_words n' rest
  | _, _ => []
  end.

(** Message schedule, kept most recent word first. *)
Fixpoint extend (n : nat) (ws : list Z) : list Z :=
  match n with
  | O => ws
  | S n' =>
      let w := add32 (add32 (sigma1 (nth 1 ws 0)) (nth 6 ws 0))
                     (add32 (sigma0 (nth 14 ws 0)) (nth 15 ws 0)) in
      extend n' (w :: ws)
  end.

Definition schedule (block : list Z) : list Z :=
  rev (extend 48 (rev (be_words 16 block))).

Definition round (s : state) (kw : Z * Z) : state :=
  let '(a, b, c, d, e, f, g, h) := s in
  let t1 := add32 (add32 (add32 h (Sigma1 e)) (add32 (Ch e f g) (fst kw)))
                  (snd kw) in
  let t2 := add32 (Sigma0 a) (Maj a b c) in
  (add32 t1 t2, a, b, c, add32 d t1, e, f, g).

Definition compress (hs : state) (block : list Z) : state :=
  let '(a, b, c, d, e, f, g, h) :=
    fold_left round (combine K (schedule block)) hs in
  let '(a0, b0, c0, d0, e0, f0, g0, h0) := hs in
  (add32 a0 a, add32 b0 b, add32 c0 c, add32 d0 d,
   add32 e0 e, add32 f0 f, add32 g0 g, add32 h0 h).

Fixpoint blocks (n : nat) (hs : state) (bs : list Z) : state :=
  match n with
  | O => hs
  | S n' => blocks n' (compress hs (firstn 64 bs)) (skipn 64 bs)
  end.

Definition word_bytes (w : Z) : list Z :=
  [ Z.shiftr w 24 mod 256; Z.shiftr w 16 mod 256;
    Z.shiftr w 8 mod 256; w mod 256 ].

Definition Sum256 (msg : list Z) : list Z :=
  let p := pad msg in
  let '(a, b, c, d, e, f, g, h) := blocks (length p / 64) init p in
  word_bytes a ++ word_bytes b ++ word_bytes c ++ word_bytes d ++
  word_bytes e ++ word_bytes f ++ word_bytes g ++ word_bytes h.

End Sha256.

(** ** Package [strings]

    [strings.TrimSpace] and [strings.Contains] of the Go standard library, on
    the bytes of the string.  [TrimSpace] removes the leading and then the
    trailing runes that [unicode.IsSpace] accepts; a rune is recognised by its
    UTF-8 encoding, and a byte that does not begin (respectively end) such an
    encoding stops the trimming, as the decoder's [RuneError] does. *)
Module strings.

Fixpoint string_of_bytes (l : list Z) : string :=
  match l with
  | [] => EmptyString
  | b :: l' => String (ascii_of_N (Z.to_N b)) (string_of_bytes l')
  end.

(** The UTF-8 encodings of the White_Space code points: U+0009..U+000D,
    U+0020, U+0085, U+00A0, U+1680, U+2000..U+200A, U+2028, U+2029, U+202F,
    U+205F, U+3000. *)
Definition spaceRunes : list (list Z) :=
  [ [0x09]; [0x0a]; [0x0b]; [0x0c]; [0x0d]; [0x20];
    [0xc2; 0x85]; [0xc2; 0xa0]; [0xe1; 0x9a; 0x80];
    [0xe2; 0x80; 0x80]; [0xe2; 0x80; 0x81]; [0xe2; 0x80; 0x82];
    [0xe2; 0x80; 0x83]; [0xe2; 0x80; 0x84]; [0xe2; 0x80; 0x85];
    [0xe2; 0x80; 0x86]; [0xe2; 0x80; 0x87]; [0xe2; 0x80; 0x88];
    [0xe2; 0x80; 0x89]; [0xe2; 0x80; 0x8a]; [0xe2; 0x80; 0xa8];
    [0xe2; 0x80; 0xa9]; [0xe2; 0x80; 0xaf]; [0xe2; 0x81; 0x9f];
    [0xe3; 0x80; 0x80] ].

(** [stripPrefix p s] is [Some r] when [s = p ++ r]. *)
Fixpoint stripPrefix (p s : list Z) : option (list Z) :=
  match p, s with
  | [], _ => Some s
  | a :: p', b :: s' => if a =? b then stripPrefix p' s' else None
  | _ :: _, [] => None
  end.

Fixpoint stripAny (ps : list (list Z)) (s : list Z) : option (list Z) :=
  match ps with
  | [] => None
  | p :: ps' =>
      match stripPrefix p s with
      | Some r => Some r
      | None => stripAny ps' s
      end
  end.

(** Removes leading occurrences of the patterns [ps], at most [n] of them. *)
Fixpoint trimLeading (ps : list (list Z)) (n : nat) (s : list Z) : list Z :=
  match n with
  | O => s
  | S n' =>
      match stripAny ps s with
      | Some r => trimLeading ps n' r
      | None => s
      end
  end.

Definition trimLeft (s : list Z) : list Z :=
  trimLeading spaceRunes (length s) s.

(** Trailing runes are found from the end of the string. *)
Definition trimRight (s : list Z) : list Z :=
  rev (trimLeading (map (@rev Z) spaceRunes) (length s) (rev s)).

Definition TrimSpace (s : string) : string :=
  string_of_bytes (trimRight (trimLeft (bytes_of_string s))).

Fixpoint containsBytes (s sub : list Z) : bool :=
  match stripPrefix sub s with
  | Some _ => true
  | None =>
      match s with
      | [] => false
      | _ :: s' => containsBytes s' sub
      end
  end.

Definition Contains (s substr : string) : bool :=
  containsBytes (bytes_of_string s) (bytes_of_string substr).

End strings.

(** ** Errors

    A Go [error] value: an [*apiError], a fresh value made by [errors.New] or
    [fmt.Errorf] without [%w], a value that wraps another one ([fmt.Errorf]
    with [%w]), or one of the package-level error variables, which are
    compared by identity. *)

Record apiError : Type := {
  StatusCode : Z;
  Message : string;
  Body : list Z
}.

Inductive errorVar : Type :=
| ErrAIUnavailable
| errAuthRequired
| contextCanceled
| contextDeadlineExceeded.

Inductive error : Type :=
| ErrApi (ae : apiError)
| ErrNew (msg : string)
| ErrWrap (prefix : string) (cause : error)
| ErrVar (v : errorVar).

(** A Go result pair [(T, error)]; [Err] is [err != nil]. *)
Inductive result (A : Type) : Type :=
| Ok (a : A)
| Err (e : error).
Arguments Ok {A} a.
Arguments Err {A} e.

Definition errorVar_eqb (a b : errorVar) : bool :=
  match a, b with
  | ErrAIUnavailable, ErrAIUnavailable
  | errAuthRequired, errAuthRequired
  | contextCanceled, contextCanceled
  | contextDeadlineExceeded, contextDeadlineExceeded => true
  | _, _ => false
  end.

(** [errors.As(err, &ae)] with [ae *apiError]. *)
Fixpoint errorsAs (err : error) : option apiError :=
  match err with
  | ErrApi ae => Some ae
  | ErrWrap _ cause => errorsAs cause
  | _ => None
  end.

(** [errors.Is(err, target)] for a package-level error variable. *)
Fixpoint errorsIs (err : error) (target : errorVar) : bool :=
  match err with
  | ErrVar v => errorVar_eqb v target
  | ErrWrap _ cause => errorsIs cause target
  | _ => false
  end.

(** ** Cancellation

    A [context.Context] as the proof-of-work search sees it: whether [Done]
    is closed when attempt [i] polls it, and the value of [Err] then. *)
Record Context : Type := {
  Done : Z -> bool;
  ctxErr : error
}.

Definition Background : Context :=
  {| Done := fun _ => false; ctxErr := ErrVar contextCanceled |}.

(** ** Proof of work (the PoW file) *)

Definition Second : Z := 1000000000.
Definition Millisecond : Z := 1000000.

(** [powRefreshWindow] is the time before expiry to refresh PoW. *)
Definition powRefreshWindow : Z := 120 * Second.

(** [sum[i]] on a [[sha256.Size]byte]: [None] is the index-out-of-range
    panic. *)
Definition index (sum : list Z) (i : Z) : option Z :=
  if (0 <=? i) && (i <? 32) then Some (nth (Z.to_nat i) sum 0) else None.

(** The loop [for i := 0; i < fullZeroBytes; i++] of
    [hasLeadingZeroNibbles], with [n] iterations left: [Some false] when it
    returns false, [Some true] when it runs to its end. *)
Fixpoint zeroBytesFrom (sum : list Z) (i : Z) (n : nat) : option bool :=
  match n with
  | O => Some true
  | S n' =>
      match index sum i with
      | None => None
      | Some b => if b =? 0 then zeroBytesFrom sum (i + 1) n' else Some false
      end
  end.

(** [hasLeadingZeroNibbles] checks if hash has the required leading zeros. *)
Definition hasLeadingZeroNibbles
    (sum : list Z) (fullZeroBytes : Z) (halfNibble : bool) : option bool :=
  match zeroBytesFrom sum 0 (Z.to_nat fullZeroBytes) with
  | Some true =>
      if halfNibble then
        match index sum fullZeroBytes with
        | None => None
        | Some b => Some (Z.land b 0xF0 =? 0)
        end
      else Some true
  | r => r
  end.

Definition checkEvery : Z := 100000.

(** The search loop [for i := 0; ; i++] of [computePowNonce], from attempt
    [i], with at most [fuel] attempts.  [None]: the attempts ran out, or the
    digest was indexed out of range.  The progress line that the loop logs
    every [checkEvery] attempts is not modelled. *)
Fixpoint powSearch (fuel : nat) (ctx : Context) (challenge : string)
    (fullZeroBytes : Z) (halfNibble : bool) (i : Z) : option (result string) :=
  match fuel with
  | O => None
  | S fuel' =>
      if (Z.rem i checkEvery =? 0) && Done ctx i then Some (Err (ctxErr ctx))
      else
        let nonce := Itoa i in
        let sum := Sha256.Sum256 (bytes_of_string (challenge ++ nonce)) in
        match hasLeadingZeroNibbles sum fullZeroBytes halfNibble with
        | None => None
        | Some true => Some (Ok nonce)
        | Some false =>
            powSearch fuel' ctx challenge fullZeroBytes halfNibble
                      (wrap64 (i + 1))
        end
  end.

(** [computePowNonce] finds a nonce where sha256(challenge+nonce) has the
    required number of leading zero nibbles (hex digits). *)
Definition computePowNonce (fuel : nat) (ctx : Context) (challenge : string)
    (difficulty : Z) : option (result string) :=
  if (difficulty <? 0) || (64 <? difficulty) then
    Some (Err (ErrNew ("invalid difficulty: " ++ Itoa difficulty)))
  else
    let fullZeroBytes := Z.quot difficulty 2 in
    let halfNibble := Z.rem difficulty 2 =? 1 in
    powSearch fuel ctx challenge fullZeroBytes halfNibble 0.

(** The spec's reading of the test: the digest has at least [d] leading zero
    hex digits.  Nibble [k] of a digest is the high half of byte [k / 2] when
    [k] is even and its low half when [k] is odd. *)
Definition nibble (sum : list Z) (k : Z) : Z :=
  let b := nth (Z.to_nat (k / 2)) sum 0 in
  if Z.even k then Z.shiftr b 4 else Z.land b 0xF.

Definition leadingZeroNibbles (d : Z) (sum : list Z) : bool :=
  forallb (fun k => nibble sum (Z.of_nat k) =? 0) (seq 0 (Z.to_nat d)).

(** Nonce [n] passes the test for [(challenge, d)]. *)
Definition passes (challenge : string) (d n : Z) : bool :=
  leadingZeroNibbles d (Sha256.Sum256 (bytes_of_string (challenge ++ Itoa n))).

(** ** Data model ([api.go], the configuration file) *)

Record aiConfig : Type := {
  ai_Enabled : bool;
  ai_Model : string;
  ai_BaseURL : string;
  ai_APIKey : string
}.

Record appConfig : Type := {
  BaseURL : string;
  Cookie : string;
  UserAgent : string;
  AI : aiConfig
}.

Definition defaultUA : string :=
  "Mozilla/5.0 (Windows NT 10.0; Win64; x64) AppleWebKit/537.36 (KHTML, like Gecko) Chrome/131.0.0.0 Safari/537.36".
Definition defaultAIModel : string := "claude-sonnet-4-5-20250929".

(** [apiClient] handles HTTP communication with the puzzle API.  The cookie
    jar and the HTTP transport live outside the model; what the jar holds is
    observed through [exportCookieHeader]. *)
Record apiClient : Type := {
  baseURL : string;
  cookie : string;
  userAgent : string
}.

(** [authMaterial] holds parsed authentication data from user input. *)
Record authMaterial : Type := {
  am_Cookie : string;
  am_UserAgent : string;
  am_BaseURL : string
}.

Record authMeResponse : Type := {
  User_ID : string;
  User_Username : string
}.

Record dailyRemainingResponse : Type := {
  Remaining : Z;
  Completed : Z;
  Limit : Z
}.

Record powStatusResponse : Type := {
  HasValidPow : bool;
  PowExpiresAt : Z;
  HasOngoingChallenge : bool
}.

Record powChallengeResponse : Type := {
  Challenge : string;
  Difficulty : Z;
  ExpiresAt : Z
}.

Definition grid : Type := list (list Z).

Record puzzleExample : Type := {
  Input : grid;
  Output : grid
}.

Record puzzleHints : Type := {
  BackgroundColor : Z;
  AnswerSize_Width : Z;
  AnswerSize_Height : Z
}.

Record puzzle : Type := {
  ID : string;
  Train : list puzzleExample;
  TestInput : grid;
  Hints : puzzleHints
}.

Record puzzleNewResponse : Type := {
  Puzzle : puzzle;
  RemainingAttempts : Z;
  DailyRemaining : Z;
  DailyLimit : Z
}.

Record puzzleSubmitResponse : Type := {
  Success : bool;
  Correct : bool;
  sub_Message : string;
  sub_RemainingAttempts : Z;
  PointsAwarded : Z;
  PointsBalance : Z;
  sub_DailyRemaining : Z;
  sub_DailyLimit : Z
}.

(** [Solver] uses an OpenAI-compatible API to solve ARC puzzles. *)
Record Solver : Type := {
  model : string;
  solver_cfg : aiConfig
}.

(** The parsed command line of [solve]. *)
Record flags : Type := {
  configPath : string;
  count : Z;
  dryRun : bool;
  autoLoop : bool
}.

(** ** The environment

    Everything outside the modelled code (the HTTP round trips, the JSON
    decoder, the terminal, the file system, the clock, the random source, the
    AI service) answers through a script: each request takes the next reply,
    which must be of the request's kind.  What the program does to the
    outside is recorded as a list of events, oldest first. *)

(** What one HTTP exchange of [doJSON] gives: a failure of the transport, or
    a response with its status, its body, the [message]/[error] field of the
    body and what [json.Unmarshal] makes of the body. *)
Inductive httpOutcome (A : Type) : Type :=
| TransportFailure (e : error)
| ReadFailure (e : error)
| Response (status : Z) (body : list Z) (message : string)
           (decoded : result A).
Arguments TransportFailure {A} e.
Arguments ReadFailure {A} e.
Arguments Response {A} status body message decoded.

Inductive Call : Type :=
| CFlagParse (args : list string)
| CLoadConfig (path : string)
| CSaveConfig (path : string) (cfg : appConfig)
| CPromptAuthMaterial
| CUrlParse (raw : string)
| CExportCookieHeader (c : apiClient)
| CGetenv (name : string)
| CAuthMe (c : apiClient)
| CDailyRemaining (c : apiClient)
| CPowStatus (c : apiClient)
| CPowChallenge (c : apiClient)
| CPowVerify (c : apiClient) (challenge nonce : string)
| CPuzzleNew (c : apiClient)
| CPuzzleSubmit (c : apiClient) (puzzleID : string) (answer : grid)
| CSolve (s : Solver) (p : puzzle)
| CTimeNow
| CRandIntn (n : Z).

Inductive Reply : Type :=
| RFlagParse (r : result flags)
| RLoadConfig (r : result appConfig)
| RSaveConfig (e : option error)
| RPromptAuthMaterial (r : result authMaterial)
| RUrlParse (r : result string)
| RExportCookieHeader (s : string)
| RGetenv (s : string)
| RAuthMe (o : httpOutcome authMeResponse)
| RDailyRemaining (o : httpOutcome dailyRemainingResponse)
| RPowStatus (o : httpOutcome powStatusResponse)
| RPowChallenge (o : httpOutcome powChallengeResponse)
| RPowVerify (o : httpOutcome unit)
| RPuzzleNew (o : httpOutcome puzzleNewResponse)
| RPuzzleSubmit (o : httpOutcome puzzleSubmitResponse)
| RSolve (r : result grid)
| RTimeNow (unixNano : Z)
| RRandIntn (v : Z).

Inductive level : Type := INF | WRN | ERR.

(** An argument of a log line.  [AElapsed] stands for a duration measured on
    the wall clock, which the model does not track. *)
Inductive logArg : Type :=
| AInt (z : Z)
| AStr (s : string)
| ABool (b : bool)
| ADuration (d : Z)
| AError (e : error)
| AElapsed.

Inductive Event : Type :=
| ECall (c : Call)
| ESleep (d : Z)
| ELog (l : level) (format : string) (args : list logArg)
| EUsage (stderr : bool).

(** A computation takes the remaining script and gives its value, the events
    it produced and the script left; [None] when the script has no fitting
    reply or a loop ran out of fuel. *)
Definition M (A : Type) : Type :=
  list Reply -> option (A * list Event * list Reply).

Definition ret {A} (a : A) : M A := fun s => Some (a, [], s).

Definition bind {A B} (m : M A) (k : A -> M B) : M B :=
  fun s =>
    match m s with
    | None => None
    | Some (a, t1, s1) =>
        match k a s1 with
        | None => None
        | Some (b, t2, s2) => Some (b, t1 ++ t2, s2)
        end
    end.

Definition stuck {A} : M A := fun _ => None.

Declare Scope m_scope.
Delimit Scope m_scope with M.
Notation "x <- m ;; k" := (bind m (fun x => k))
  (at level 100, m at next level, right associativity) : m_scope.
Notation "' p <- m ;; k" := (bind m (fun x => match x with p => k end))
  (at level 100, p pattern, m at next level, right associativity) : m_scope.
Notation "m ;; k" := (bind m (fun _ => k))
  (at level 100, right associativity) : m_scope.
Local Open Scope m_scope.

Definition emit (e : Event) : M unit := fun s => Some (tt, [e], s).

(** A request to the environment. *)
Definition ask {A} (c : Call) (decode : Reply -> option A) : M A :=
  fun s =>
    match s with
    | [] => None
    | r :: s' =>
        match decode r with
        | Some a => Some (a, [ECall c], s')
        | None => None
        end
    end.

Definition logf (l : level) (format : string) (args : list logArg) : M unit :=
  emit (ELog l format args).

(** [time.Sleep]. *)
Definition Sleep (d : Z) : M unit := emit (ESleep d).

(** [time.Now], as nanoseconds since the Unix epoch. *)
Definition timeNow : M Z :=
  ask CTimeNow (fun r => match r with RTimeNow t => Some t | _ => None end).

(** [rand.Intn(n)]: a value in [[0, n)]. *)
Definition randIntn (n : Z) : M Z :=
  ask (CRandIntn n)
      (fun r => match r with
                | RRandIntn v => if (0 <=? v) && (v <? n) then Some v else None
                | _ => None
                end).

(** ** The remote client ([api.go]) *)

(** [doJSON] performs an HTTP request with JSON body and response: what it
    returns for each outcome of the exchange. *)
Definition doJSON {A} (o : httpOutcome A) : result A :=
  match o with
  | TransportFailure e => Err (ErrWrap "request failed: " e)
  | ReadFailure e => Err (ErrWrap "read response: " e)
  | Response status b msg decoded =>
      if (status <? 200) || (300 <=? status) then
        Err (ErrApi {| StatusCode := status; Message := msg; Body := b |})
      else
        match b with
        | [] => Err (ErrNew "empty response body")
        | _ :: _ =>
            match decoded with
            | Err e => Err (ErrWrap "parse response: " e)
            | Ok v => Ok v
            end
        end
  end.

(** [newAPIClient] creates a new API client with the given configuration. *)
Definition newAPIClient (cfg : appConfig) : M (result apiClient) :=
  if String.eqb (BaseURL cfg) "" then ret (Err (ErrNew "base_url is required"))
  else
    u <- ask (CUrlParse (BaseURL cfg))
             (fun r => match r with RUrlParse u => Some u | _ => None end) ;;
    match u with
    | Err err => ret (Err (ErrWrap "invalid base_url: " err))
    | Ok u =>
        ret (Ok {| baseURL := u;
                   cookie := strings.TrimSpace (Cookie cfg);
                   userAgent := if String.eqb (UserAgent cfg) ""
                                then defaultUA else UserAgent cfg |})
    end.

Definition exportCookieHeader (c : apiClient) : M string :=
  ask (CExportCookieHeader c)
      (fun r => match r with RExportCookieHeader s => Some s | _ => None end).

Definition authMe (c : apiClient) : M (result authMeResponse) :=
  ask (CAuthMe c)
      (fun r => match r with RAuthMe o => Some (doJSON o) | _ => None end).

Definition dailyRemaining (c : apiClient) : M (result dailyRemainingResponse) :=
  ask (CDailyRemaining c)
      (fun r => match r with
                | RDailyRemaining o => Some (doJSON o) | _ => None end).

Definition powStatus (c : apiClient) : M (result powStatusResponse) :=
  ask (CPowStatus c)
      (fun r => match r with RPowStatus o => Some (doJSON o) | _ => None end).

Definition powChallenge (c : apiClient) : M (result powChallengeResponse) :=
  ask (CPowChallenge c)
      (fun r => match r with
                | RPowChallenge o => Some (doJSON o) | _ => None end).

Definition powVerify (c : apiClient) (challenge nonce : string)
  : M (option error) :=
  ask (CPowVerify c challenge nonce)
      (fun r => match r with
                | RPowVerify o =>
                    Some (match doJSON o with Ok _ => None | Err e => Some e end)
                | _ => None
                end).

Definition puzzleNew (c : apiClient) : M (result puzzleNewResponse) :=
  ask (CPuzzleNew c)
      (fun r => match r with RPuzzleNew o => Some (doJSON o) | _ => None end).

Definition puzzleSubmit (c : apiClient) (puzzleID : string) (answer : grid)
  : M (result puzzleSubmitResponse) :=
  ask (CPuzzleSubmit c puzzleID answer)
      (fun r => match r with
                | RPuzzleSubmit o => Some (doJSON o) | _ => None end).

(** ** Collaborators of [main.go] that live outside the model *)

Definition flagParse (args : list string) : M (result flags) :=
  ask (CFlagParse args)
      (fun r => match r with RFlagParse x => Some x | _ => None end).

Definition loadConfig (path : string) : M (result appConfig) :=
  ask (CLoadConfig path)
      (fun r => match r with RLoadConfig x => Some x | _ => None end).

Definition saveConfig (path : string) (cfg : appConfig) : M (option error) :=
  ask (CSaveConfig path cfg)
      (fun r => match r with RSaveConfig x => Some x | _ => None end).

Definition promptAuthMaterial : M (result authMaterial) :=
  ask CPromptAuthMaterial
      (fun r => match r with RPromptAuthMaterial x => Some x | _ => None end).

Definition Getenv (name : string) : M string :=
  ask (CGetenv name)
      (fun r => match r with RGetenv x => Some x | _ => None end).

Definition Solve (s : Solver) (p : puzzle) : M (result grid) :=
  ask (CSolve s p) (fun r => match r with RSolve x => Some x | _ => None end).

(** A pure computation that may not produce a value. *)
Definition liftOption {A} (o : option A) : M A :=
  fun s => match o with Some a => Some (a, [], s) | None => None end.

(** ** Time *)

(** [time.UnixMilli], as nanoseconds since the Unix epoch. *)
Definition UnixMilli (msec : Z) : Z := msec * Millisecond.

(** [t.Sub(u)]: the difference, saturated to the range of a [Duration]. *)
Definition timeSub (t u : Z) : Z := sat64 (t - u).

(** ** [ensurePow] checks PoW status and refreshes if needed. *)

(** The value of [need] after the freshness test. *)
Definition powNeedsRefresh (st : powStatusResponse) (now : Z) : bool :=
  let exp := UnixMilli (PowExpiresAt st) in
  let need := negb (HasValidPow st) in
  if HasValidPow st && (0 <? PowExpiresAt st)
     && (timeSub exp now <? powRefreshWindow)
  then true
  else need.

Definition ensurePow (gas : nat) (ctx : Context) (c : apiClient)
  : M (option error) :=
  r <- powStatus c ;;
  match r with
  | Err err => ret (Some err)
  | Ok st =>
      now <- timeNow ;;
      if negb (powNeedsRefresh st now) then
        logf INF "PoW valid, no refresh needed" [] ;;
        ret None
      else
        logf INF "PoW needs refresh, solving..." [] ;;
        r <- powChallenge c ;;
        match r with
        | Err err => ret (Some err)
        | Ok chal =>
            r <- liftOption (computePowNonce gas ctx (Challenge chal)
                                             (Difficulty chal)) ;;
            match r with
            | Err err => ret (Some err)
            | Ok nonce =>
                logf INF "PoW found nonce=%s (elapsed %s)"
                     [AStr nonce; AElapsed] ;;
                e <- powVerify c (Challenge chal) nonce ;;
                match e with
                | Some err => ret (Some err)
                | None => logf INF "PoW verified" [] ;; ret None
                end
            end
        end
  end.

(** ** Error classification ([main.go]) *)

Definition isAuthError (err : error) : bool :=
  match errorsAs err with
  | Some ae => (StatusCode ae =? 401) || (StatusCode ae =? 403)
  | None => false
  end.

(** The server-side messages that signal an exhausted daily quota. *)
Definition markerQuotaUsedUp : string := "次数已用完".
Definition markerCompleted : string := "已完成".
Definition markerComeBackTomorrow : string := "请明天再来".

(** [isDailyExhaustedError] checks if the error indicates daily limit is
    reached. *)
Definition isDailyExhaustedError (err : error) : bool :=
  match errorsAs err with
  | None => false
  | Some ae =>
      if negb (StatusCode ae =? 403) then false
      else
        let msg := strings.TrimSpace (Message ae) in
        strings.Contains msg markerQuotaUsedUp
        || strings.Contains msg markerCompleted
        || strings.Contains msg markerComeBackTomorrow
  end.

(** ** Retry on rate limiting ([main.go]) *)

(** [d.Round(m)] for a non-negative duration [d]: to the nearest multiple of
    [m], halves away from zero.  It only shapes log lines. *)
Definition durationRound (d m : Z) : Z :=
  if m <=? 0 then d
  else
    let r := Z.rem d m in
    if r + r <? m then d - r else sat64 (d + m - r).

(** The loop of [puzzleNewWithRetry], entered with the current [backoff]. *)
Fixpoint puzzleNewRetryLoop (fuel : nat) (client : apiClient) (backoff : Z)
  : M (result puzzleNewResponse) :=
  match fuel with
  | O => stuck
  | S fuel' =>
      r <- puzzleNew client ;;
      match r with
      | Ok pNew => ret (Ok pNew)
      | Err err =>
          if match errorsAs err with
             | Some ae => StatusCode ae =? 429
             | None => false
             end
          then
            logf WRN "rate limited (429), waiting %s..."
                 [ADuration (durationRound backoff (100 * Millisecond))] ;;
            Sleep backoff ;;
            puzzleNewRetryLoop fuel' client
              (if backoff <? 30 * Second then wrap64 (backoff * 2)
               else backoff)
          else ret (Err err)
      end
  end.

Definition puzzleNewWithRetry (fuel : nat) (client : apiClient)
  : M (result puzzleNewResponse) :=
  puzzleNewRetryLoop fuel client (2 * Second).

(** The loop of [submitWithRetry], entered with the current [backoff]. *)
Fixpoint submitRetryLoop (fuel : nat) (client : apiClient)
    (puzzleID : string) (answer : grid) (backoff : Z)
  : M (result puzzleSubmitResponse) :=
  match fuel with
  | O => stuck
  | S fuel' =>
      r <- puzzleSubmit client puzzleID answer ;;
      match r with
      | Ok sub => ret (Ok sub)
      | Err err =>
          if match errorsAs err with
             | Some ae => StatusCode ae =? 429
             | None => false
             end
          then
            logf WRN "submit rate limited (429), waiting %s..."
                 [ADuration (durationRound backoff (100 * Millisecond))] ;;
            Sleep backoff ;;
            submitRetryLoop fuel' client puzzleID answer
              (if backoff <? 30 * Second then wrap64 (backoff * 2)
               else backoff)
          else ret (Err err)
      end
  end.

Definition submitWithRetry (fuel : nat) (client : apiClient)
    (puzzleID : string) (answer : grid) : M (result puzzleSubmitResponse) :=
  submitRetryLoop fuel client puzzleID answer (2 * Second).

(** ** Session management ([main.go]) *)

Definition withCookie (cfg : appConfig) (c : string) : appConfig :=
  {| BaseURL := BaseURL cfg; Cookie := c; UserAgent := UserAgent cfg;
     AI := AI cfg |}.

(** The assignments that take the prompted material into the configuration. *)
Definition applyAuthMaterial (cfg : appConfig) (i : authMaterial) : appConfig :=
  {| BaseURL := if negb (String.eqb (am_BaseURL i) "")
                   && String.eqb (BaseURL cfg) ""
                then am_BaseURL i else BaseURL cfg;
     Cookie := am_Cookie i;
     UserAgent := if negb (String.eqb (am_UserAgent i) "")
                  then am_UserAgent i else UserAgent cfg;
     AI := AI cfg |}.

(** Prompt, apply, save: the block that [ensureLoginInteractive] runs at
    both of its prompts. *)
Definition promptAndSave (cfg : appConfig) (configPath : string)
  : M (result appConfig) :=
  i <- promptAuthMaterial ;;
  match i with
  | Err err => ret (Err err)
  | Ok i =>
      let cfg := applyAuthMaterial cfg i in
      e <- saveConfig configPath cfg ;;
      match e with
      | Some err => ret (Err err)
      | None =>
          logf INF "config.json updated (cookie saved)" [] ;;
          ret (Ok cfg)
      end
  end.

(** The second half of [ensureLoginInteractive]: validate the session,
    and on an auth error prompt once and validate again. *)
Definition loginValidate (ctx : Context) (cfg : appConfig)
    (configPath : string) : M (result appConfig) :=
  r <- newAPIClient cfg ;;
  match r with
  | Err err => ret (Err err)
  | Ok client =>
      r <- authMe client ;;
      match r with
      | Ok _ => ret (Ok cfg)
      | Err err =>
          if negb (isAuthError err) then ret (Err err)
          else
            r <- promptAndSave cfg configPath ;;
            match r with
            | Err perr => ret (Err perr)
            | Ok cfg =>
                r <- newAPIClient cfg ;;
                match r with
                | Err err => ret (Err err)
                | Ok client =>
                    r <- authMe client ;;
                    match r with
                    | Ok _ => ret (Ok cfg)
                    | Err err =>
                        if isAuthError err then
                          ret (Err (ErrNew
                            "login still invalid: please check cookie/token"))
                        else ret (Err err)
                    end
                end
            end
      end
  end.

Definition ensureLoginInteractive (ctx : Context) (cfg : appConfig)
    (configPath : string) : M (result appConfig) :=
  let cfg := withCookie cfg (strings.TrimSpace (Cookie cfg)) in
  r <- (if String.eqb (Cookie cfg) "" then promptAndSave cfg configPath
        else ret (Ok cfg)) ;;
  match r with
  | Err err => ret (Err err)
  | Ok cfg => loginValidate ctx cfg configPath
  end.

(** [persistCookieIfChanged] saves config if cookies have been updated.  It
    returns the configuration as the caller's [cfg] is left, with the
    error. *)
Definition persistCookieIfChanged (configPath : string) (cfg : appConfig)
    (c : apiClient) : M (appConfig * option error) :=
  h <- exportCookieHeader c ;;
  let newCookie := strings.TrimSpace h in
  if String.eqb newCookie "" then ret (cfg, None)
  else if String.eqb (strings.TrimSpace (Cookie cfg)) newCookie
  then ret (cfg, None)
  else
    let cfg := withCookie cfg newCookie in
    e <- saveConfig configPath cfg ;;
    match e with
    | Some err => ret (cfg, Some err)
    | None =>
        logf INF "config.json updated (cookie refreshed)" [] ;;
        ret (cfg, None)
    end.

(** [newAISolver] (the solver file). *)
Definition newAISolver (cfg : appConfig) : M (result (option Solver)) :=
  if negb (ai_Enabled (AI cfg)) then ret (Ok None)
  else
    let apiKey := strings.TrimSpace (ai_APIKey (AI cfg)) in
    apiKey <- (if String.eqb apiKey "" then
                 v <- Getenv "OPENAI_API_KEY" ;; ret (strings.TrimSpace v)
               else ret apiKey) ;;
    if String.eqb apiKey "" then
      ret (Err (ErrNew
        "missing API key (set ai.api_key in config or OPENAI_API_KEY env)"))
    else
      let modelName := strings.TrimSpace (ai_Model (AI cfg)) in
      let modelName :=
        if String.eqb modelName "" then defaultAIModel else modelName in
      let baseURL := strings.TrimSpace (ai_BaseURL (AI cfg)) in
      (if negb (String.eqb baseURL "") then
         logf INF "AI using custom endpoint: %s" [AStr baseURL]
       else ret tt) ;;
      ret (Ok (Some {| model := modelName; solver_cfg := AI cfg |})).

(** ** The orchestration loop ([runSolve], [main.go]) *)

(** The variables of [runSolve] that the loop reads and assigns. *)
Record loopState : Type := {
  cfg : appConfig;
  client : apiClient;
  solvedCount : Z;
  target : Z   (* the variable [count], which the loop rewrites *)
}.

(** How one pass through the loop body ends: [continue] (or the end of the
    body) with the variables as they are then, or [return err]. *)
Inductive control : Type :=
| Continue (st : loopState)
| Return (err : option error).

(** The re-authentication block that follows an auth error of the fetch and
    of the submission. *)
Definition reauthenticate (ctx : Context) (configPath : string)
    (st : loopState) : M control :=
  logf WRN "auth expired, re-authenticating..." [] ;;
  r <- ensureLoginInteractive ctx (cfg st) configPath ;;
  match r with
  | Err err => ret (Return (Some err))
  | Ok cfg' =>
      r <- newAPIClient cfg' ;;
      match r with
      | Err err => ret (Return (Some err))
      | Ok client' =>
          ret (Continue {| cfg := cfg'; client := client';
                           solvedCount := solvedCount st;
                           target := target st |})
      end
  end.

(** The cooldown of the auto mode after a failed solve or a wrong answer. *)
Definition cooldown (st : loopState) : M control :=
  n <- randIntn 30 ;;
  let waitDur := wrap64 (wrap64 (30 + n) * Second) in
  logf INF "sleeping %s before continue..."
       [ADuration (durationRound waitDur Second)] ;;
  Sleep waitDur ;;
  ret (Continue {| cfg := cfg st; client := client st;
                   solvedCount := solvedCount st;
                   target := wrap64 (solvedCount st + 1) |}).

(** The part of the body that follows a successful submission call. *)
Definition handleOutcome (fl : flags) (st : loopState)
    (sub : puzzleSubmitResponse) : M control :=
  if negb (Success sub) then
    ret (Return (Some (ErrNew ("submit failed: " ++ sub_Message sub))))
  else
    logf INF "submit response: %s" [AStr (sub_Message sub)] ;;
    if Correct sub then
      logf INF "correct: +%d points, balance=%d, dailyRemaining=%d/%d"
           [AInt (PointsAwarded sub); AInt (PointsBalance sub);
            AInt (sub_DailyRemaining sub); AInt (sub_DailyLimit sub)] ;;
      let solved := wrap64 (solvedCount st + 1) in
      if autoLoop fl && (0 <? sub_DailyRemaining sub) then
        n <- randIntn (4 * 60 + 1) ;;
        let waitMin := wrap64 (1 * 60 + n) in
        let waitDur := wrap64 (waitMin * Second) in
        logf INF "auto mode: sleeping %s (remaining %d)..."
             [ADuration (durationRound waitDur Second);
              AInt (sub_DailyRemaining sub)] ;;
        Sleep waitDur ;;
        ret (Continue {| cfg := cfg st; client := client st;
                         solvedCount := solved;
                         target := wrap64 (solved + 1) |})
      else
        ret (Continue {| cfg := cfg st; client := client st;
                         solvedCount := solved; target := target st |})
    else
      logf WRN "incorrect: remainingAttempts=%d"
           [AInt (sub_RemainingAttempts sub)] ;;
      if autoLoop fl then
        logf WRN "auto mode: answer incorrect, skipping..." [] ;;
        cooldown st
      else ret (Return (Some (ErrNew "submitted answer was incorrect"))).

(** The submission part of the body: from the second PoW check to the
    handling of the outcome. *)
Definition submitPhase (gas : nat) (ctx : Context) (fl : flags)
    (st : loopState) (pNew : puzzleNewResponse) (answer : grid) : M control :=
  e <- ensurePow gas ctx (client st) ;;
  match e with
  | Some err => ret (Return (Some err))
  | None =>
      '(cfg2, _) <- persistCookieIfChanged (configPath fl) (cfg st)
                                           (client st) ;;
      let st := {| cfg := cfg2; client := client st;
                   solvedCount := solvedCount st; target := target st |} in
      logf INF "submitting: puzzleId=%s" [AStr (ID (Puzzle pNew))] ;;
      r <- submitWithRetry gas (client st) (ID (Puzzle pNew)) answer ;;
      match r with
      | Err err =>
          if isAuthError err then reauthenticate ctx (configPath fl) st
          else ret (Return (Some err))
      | Ok sub =>
          '(cfg3, _) <- persistCookieIfChanged (configPath fl) (cfg st)
                                               (client st) ;;
          handleOutcome fl
            {| cfg := cfg3; client := client st;
               solvedCount := solvedCount st; target := target st |} sub
      end
  end.

(** One pass through the body of [for solvedCount < count]. *)
Definition loopBody (gas : nat) (ctx : Context) (fl : flags) (solver : Solver)
    (st : loopState) : M control :=
  logf INF "fetching puzzle: index=%d/%d"
       [AInt (wrap64 (solvedCount st + 1)); AInt (target st)] ;;
  r <- puzzleNewWithRetry gas (client st) ;;
  match r with
  | Err err =>
      if isDailyExhaustedError err then
        logf WRN "stopping: daily limit exhausted" [] ;;
        ret (Return None)
      else if isAuthError err then reauthenticate ctx (configPath fl) st
      else ret (Return (Some err))
  | Ok pNew =>
      '(cfg1, _) <- persistCookieIfChanged (configPath fl) (cfg st)
                                           (client st) ;;
      let st := {| cfg := cfg1; client := client st;
                   solvedCount := solvedCount st; target := target st |} in
      if DailyRemaining pNew <=? 0 then
        logf WRN "stopping: daily limit exhausted" [] ;;
        ret (Return None)
      else
        logf INF
          "puzzle fetched: puzzleId=%s, remainingAttempts=%d, dailyRemaining=%d/%d"
          [AStr (ID (Puzzle pNew)); AInt (RemainingAttempts pNew);
           AInt (DailyRemaining pNew); AInt (DailyLimit pNew)] ;;
        r <- Solve solver (Puzzle pNew) ;;
        match r with
        | Err err =>
            if errorsIs err ErrAIUnavailable then
              logf ERR "AI service unavailable" [] ;;
              ret (Return (Some (ErrWrap "AI unavailable: " err)))
            else if autoLoop fl then
              logf WRN "AI solve failed: %v, skipping..." [AError err] ;;
              cooldown st
            else ret (Return (Some (ErrWrap "ai solve failed: " err)))
        | Ok answer =>
            logf INF "AI solved (elapsed %s)" [AElapsed] ;;
            if dryRun fl then
              logf INF
                "dry-run: puzzleId=%s answer generated but not submitted"
                [AStr (ID (Puzzle pNew))] ;;
              ret (Continue {| cfg := cfg st; client := client st;
                               solvedCount := wrap64 (solvedCount st + 1);
                               target := target st |})
            else submitPhase gas ctx fl st pNew answer
        end
  end.

(** The loop [for solvedCount < count] with what follows it, at most [fuel]
    passes through the body. *)
Fixpoint solveLoop (fuel gas : nat) (ctx : Context) (fl : flags)
    (solver : Solver) (st : loopState) : M (option error) :=
  if solvedCount st <? target st then
    match fuel with
    | O => stuck
    | S fuel' =>
        c <- loopBody gas ctx fl solver st ;;
        match c with
        | Continue st' => solveLoop fuel' gas ctx fl solver st'
        | Return err => ret err
        end
    end
  else if autoLoop fl then
    logf INF
      "auto mode complete: daily limit exhausted, solved %d puzzles, elapsed %s"
      [AInt (solvedCount st); AElapsed] ;;
    ret None
  else
    logf INF "done: solved=%d/%d elapsed=%s"
         [AInt (solvedCount st); AInt (target st); AElapsed] ;;
    ret None.

(** How the statements of [runSolve] before the loop end: with a [return],
    or at the loop with its variables set. *)
Inductive entry : Type :=
| Exit (err : option error)
| Enter (fl : flags) (solver : Solver) (st : loopState).

(** [runSolve] from the initial daily-quota query to the loop, with the
    client and the configuration that the login produced. *)
Definition setupFromQuota (gas : nat) (ctx : Context) (fl : flags)
    (cfg0 : appConfig) (client0 : apiClient) : M entry :=
  dr <- dailyRemaining client0 ;;
  stop <- match dr with
          | Ok dr =>
              logf INF "daily quota: remaining=%d completed=%d limit=%d"
                   [AInt (Remaining dr); AInt (Completed dr);
                    AInt (Limit dr)] ;;
              if Remaining dr <=? 0 then
                logf WRN "stopping: daily limit exhausted" [] ;; ret true
              else ret false
          | Err err =>
              logf WRN
                "failed to query daily quota: %s (will try fetching puzzle)"
                [AError err] ;;
              ret false
          end ;;
  if stop : bool then ret (Exit None)
  else
    e <- ensurePow gas ctx client0 ;;
    match e with
    | Some err => ret (Exit (Some err))
    | None =>
        '(cfg1, _) <- persistCookieIfChanged (configPath fl) cfg0 client0 ;;
        r <- newAISolver cfg1 ;;
        match r with
        | Err err => ret (Exit (Some err))
        | Ok None => ret (Exit (Some (ErrNew "AI solver not configured")))
        | Ok (Some solver) =>
            ret (Enter fl solver
                   {| cfg := cfg1; client := client0; solvedCount := 0;
                      target := count fl |})
        end
    end.

(** The statements of [runSolve] before the loop. *)
Definition runSolveSetup (gas : nat) (ctx : Context) (args : list string)
  : M entry :=
  r <- flagParse args ;;
  match r with
  | Err err => ret (Exit (Some err))
  | Ok fl =>
      if String.eqb (configPath fl) "" then
        ret (Exit (Some (ErrNew "--config is required")))
      else if count fl <=? 0 then
        ret (Exit (Some (ErrNew "--count must be > 0")))
      else
        logf INF "starting: count=%d dryRun=%v autoLoop=%v"
             [AInt (count fl); ABool (dryRun fl); ABool (autoLoop fl)] ;;
        r <- loadConfig (configPath fl) ;;
        match r with
        | Err err => ret (Exit (Some err))
        | Ok cfg0 =>
            r <- ensureLoginInteractive ctx cfg0 (configPath fl) ;;
            match r with
            | Err err => ret (Exit (Some err))
            | Ok cfg0 =>
                r <- newAPIClient cfg0 ;;
                match r with
                | Err err => ret (Exit (Some err))
                | Ok client0 =>
                    r <- authMe client0 ;;
                    match r with
                    | Err err =>
                        if isAuthError err then
                          ret (Exit (Some (ErrVar errAuthRequired)))
                        else ret (Exit (Some err))
                    | Ok me =>
                        '(cfg1, _) <- persistCookieIfChanged (configPath fl)
                                        cfg0 client0 ;;
                        logf INF "logged in: %s(%s)"
                             [AStr (User_Username me); AStr (User_ID me)] ;;
                        logf INF "site: %s" [AStr (BaseURL cfg1)] ;;
                        setupFromQuota gas ctx fl cfg1 client0
                    end
                end
            end
        end
  end.

Definition runSolve (fuel : nat) (ctx : Context) (args : list string)
  : M (option error) :=
  e <- runSolveSetup fuel ctx args ;;
  match e with
  | Exit err => ret err
  | Enter fl solver st => solveLoop fuel fuel ctx fl solver st
  end.

Definition cmdSolve : string := "solve".
Definition cmdHelp : string := "help".

Definition run (fuel : nat) (ctx : Context) (args : list string)
  : M (option error) :=
  match args with
  | [] => emit (EUsage false) ;; ret None
  | a :: rest =>
      if String.eqb a cmdHelp || String.eqb a "-h" || String.eqb a "--help" then
        emit (EUsage false) ;; ret None
      else if String.eqb a cmdSolve then runSolve fuel ctx rest
      else
        emit (EUsage true) ;;
        ret (Some (ErrNew ("unknown command: " ++ a)))
  end.

(** [err.Error()]. *)
Fixpoint errorText (err : error) : string :=
  match err with
  | ErrApi ae =>
      if negb (String.eqb (Message ae) "") then
        "api " ++ Itoa (StatusCode ae) ++ ": " ++ Message ae
      else "api " ++ Itoa (StatusCode ae)
  | ErrNew msg => msg
  | ErrWrap prefix cause => prefix ++ errorText cause
  | ErrVar ErrAIUnavailable => "AI service unavailable"
  | ErrVar errAuthRequired => "auth_required"
  | ErrVar contextCanceled => "context canceled"
  | ErrVar contextDeadlineExceeded => "context deadline exceeded"
  end.

(** [main]: the exit status of the process. In the source two statements
    come before the call of [run]: [godotenv.Load()], which reads a [.env]
    file of the working directory, when there is one, into the process
    environment and whose error is dropped, and [newLogger()], which looks
    at [NO_COLOR] and at the mode of the error stream to choose the colours
    of the log lines. Neither has an event here: the trace of [main] is the
    trace from the call of [run] on, the environment that [Getenv] reads is
    the one after the [.env] file, and a log line is recorded without its
    colours. *)
Definition main (fuel : nat) (args : list string) : M Z :=
  e <- run fuel Background args ;;
  match e with
  | Some err => logf ERR (errorText err) [] ;; ret 1
  | None => ret 0
  end.

(** ** Vocabulary of the statements *)

(** The calls and the sleeps of a trace, in order. *)
Definition callsOf (t : list Event) : list Call :=
  flat_map (fun e => match e with ECall c => [c] | _ => [] end) t.

Definition sleepsOf (t : list Event) : list Z :=
  flat_map (fun e => match e with ESleep d => [d] | _ => [] end) t.

(** The test of the retry wrappers: the result is an error that carries an
    [apiError] of status 429. *)
Definition rateLimited {A} (r : result A) : bool :=
  match r with
  | Ok _ => false
  | Err err =>
      match errorsAs err with
      | Some ae => StatusCode ae =? 429
      | None => false
      end
  end.

(** The bytes of a digest are bytes. *)
Definition isByte (b : Z) : Prop := 0 <= b < 256.

(** The update of [backoff] after a rate-limited attempt. *)
Definition nextBackoff (backoff : Z) : Z :=
  if backoff <? 30 * Second then wrap64 (backoff * 2) else backoff.

(** The sleep before retry [k + 1], in closed form: 2s, 4s, 8s, 16s and
    then 32s. *)
Definition backoffAt (k : nat) : Z :=
  Z.min (2 ^ (Z.of_nat k + 1)) 32 * Second.

(** What [n] rate-limited attempts of [call] leave in the trace, the first
    of them made with [backoff]. *)
Fixpoint retryTrace (call : Call) (format : string) (n : nat) (backoff : Z)
  : list Event :=
  match n with
  | O => []
  | S n' =>
      [ECall call;
       ELog WRN format [ADuration (durationRound backoff (100 * Millisecond))];
       ESleep backoff]
      ++ retryTrace call format n' (nextBackoff backoff)
  end.

(** A client, for the examples. *)
Definition someClient : apiClient :=
  {| baseURL := "https://example.org"; cookie := "sid=1";
     userAgent := defaultUA |}.

(** Replies for the examples: a 200 response that decodes to [v], and a
    response with another status and a message. *)
Definition httpOK {A} (v : A) : httpOutcome A :=
  Response 200 [123; 125] "" (Ok v).

Definition httpStatus {A} (status : Z) (message : string) : httpOutcome A :=
  Response status [] message (Err (ErrNew "body not decoded")).

Definition somePuzzle : puzzle :=
  {| ID := "p1"; Train := []; TestInput := [[1; 2]; [3; 4]];
     Hints := {| BackgroundColor := 0; AnswerSize_Width := 2;
                 AnswerSize_Height := 2 |} |}.

Definition someTicket (dailyLeft : Z) : puzzleNewResponse :=
  {| Puzzle := somePuzzle; RemainingAttempts := 3;
     DailyRemaining := dailyLeft; DailyLimit := 5 |}.

(** The client that [newAPIClient] builds from [cfg] when the URL parser
    answers [u]. *)
Definition clientOf (cfg : appConfig) (u : string) : apiClient :=
  {| baseURL := u;
     cookie := strings.TrimSpace (Cookie cfg);
     userAgent := if String.eqb (UserAgent cfg) "" then defaultUA
                  else UserAgent cfg |}.

(** The events of one validation of [cfg] and of one prompt that ends with
    [cfg] saved. *)
Definition validationEvents (cfg : appConfig) (u : string) : list Event :=
  [ECall (CUrlParse (BaseURL cfg)); ECall (CAuthMe (clientOf cfg u))].

Definition promptEvents (configPath : string) (cfg : appConfig)
  : list Event :=
  [ECall CPromptAuthMaterial; ECall (CSaveConfig configPath cfg);
   ELog INF "config.json updated (cookie saved)" []].

Definition loginStillInvalid : error :=
  ErrNew "login still invalid: please check cookie/token".

(** [sub] occurs in [s]. *)
Definition occursIn (sub s : list Z) : Prop :=
  exists u v, s = u ++ sub ++ v.

(** The byte [b] is in none of the encodings that [TrimSpace] removes. *)
Definition notSpaceByte (b : Z) : bool :=
  forallb (fun p => negb (existsb (Z.eqb b) p)) strings.spaceRunes.

(** A stored configuration, for the examples. *)
Definition someConfig (storedCookie : string) : appConfig :=
  {| BaseURL := "https://example.org"; Cookie := storedCookie;
     UserAgent := "";
     AI := {| ai_Enabled := true; ai_Model := ""; ai_BaseURL := "";
              ai_APIKey := "key" |} |}.

(** Log lines of the loop that the statements name. *)
Definition fetchingLog (st : loopState) : Event :=
  ELog INF "fetching puzzle: index=%d/%d"
       [AInt (wrap64 (solvedCount st + 1)); AInt (target st)].

Definition stoppingLog : Event :=
  ELog WRN "stopping: daily limit exhausted" [].

Definition autoCompleteLog (solved : Z) : Event :=
  ELog INF
    "auto mode complete: daily limit exhausted, solved %d puzzles, elapsed %s"
    [AInt solved; AElapsed].

(** The exit status of the process for what [run] returns, and the line
    that [main] logs. *)
Definition exitStatus (e : option error) : Z :=
  match e with Some _ => 1 | None => 0 end.

Definition errorLog (e : option error) : list Event :=
  match e with Some err => [ELog ERR (errorText err) []] | None => [] end.

Definition reauthLog : Event :=
  ELog WRN "auth expired, re-authenticating..." [].

Definition submittingLog (pNew : puzzleNewResponse) : Event :=
  ELog INF "submitting: puzzleId=%s" [AStr (ID (Puzzle pNew))].

(** Flags, a solver, loop variables and replies for the examples. *)
Definition someFlags (auto : bool) (n : Z) : flags :=
  {| configPath := "config.json"; count := n; dryRun := false;
     autoLoop := auto |}.

Definition someSolver : Solver :=
  {| model := defaultAIModel; solver_cfg := AI (someConfig "sid=1") |}.

Definition someState (solved n : Z) : loopState :=
  {| cfg := someConfig "sid=1"; client := someClient;
     solvedCount := solved; target := n |}.

Definition someOutcome (success correct : bool) (dailyLeft : Z)
  : puzzleSubmitResponse :=
  {| Success := success; Correct := correct; sub_Message := "ok";
     sub_RemainingAttempts := 2; PointsAwarded := 10; PointsBalance := 10;
     sub_DailyRemaining := dailyLeft; sub_DailyLimit := 5 |}.

Definition validPow : powStatusResponse :=
  {| HasValidPow := true; PowExpiresAt := 1767229200000;
     HasOngoingChallenge := false |}.

Definition someNow : Z := 1767225600 * Second.

(** The replies of one pass in which the fetch, the solver and the PoW check
    succeed and the cookie does not change, up to the submission's reply. *)
Definition passUntilSubmit (dailyLeft : Z) : list Reply :=
  [RPuzzleNew (httpOK (someTicket dailyLeft)); RExportCookieHeader "sid=1";
   RSolve (Ok [[4; 3]; [2; 1]]);
   RPowStatus (httpOK validPow); RTimeNow someNow;
   RExportCookieHeader "sid=1"].

Definition someUser : authMeResponse :=
  {| User_ID := "1"; User_Username := "ann" |}.

(** An error that the retry wrappers do not retry and that is not an auth
    error. *)
Definition fatalResult {A} (r : result A) : bool :=
  match r with
  | Ok _ => false
  | Err err => negb (rateLimited r) && negb (isAuthError err)
  end.

(** A reply of the puzzle service, other than the reply to the daily-quota
    query, that makes the remote call fail with such an error. *)
Definition fatalReply (r : Reply) : bool :=
  match r with
  | RAuthMe o => fatalResult (doJSON o)
  | RPowStatus o => fatalResult (doJSON o)
  | RPowChallenge o => fatalResult (doJSON o)
  | RPowVerify o => fatalResult (doJSON o)
  | RPuzzleNew o => fatalResult (doJSON o)
  | RPuzzleSubmit o => fatalResult (doJSON o)
  | _ => false
  end.

Definition noFatal (c : list Reply) : bool := negb (existsb fatalReply c).

(** Whatever [m] returns, it has consumed a prefix of the script, and if a
    fatal reply was in it the value is [bad]. *)
Definition stopsOnFatal {A} (bad : A -> Prop) (m : M A) : Prop :=
  forall s a t s',
    m s = Some (a, t, s') ->
    exists c, s = c ++ s' /\ (noFatal c = true \/ bad a).

(** Every value of [m] is [bad]. *)
Definition always {A} (bad : A -> Prop) (m : M A) : Prop :=
  forall s a t s', m s = Some (a, t, s') -> bad a.

Definition isErr {A} (r : result A) : Prop :=
  match r with Err _ => True | Ok _ => False end.

Definition isSomeErr (e : option error) : Prop :=
  match e with Some _ => True | None => False end.

Definition isReturnErr (c : control) : Prop :=
  match c with Return (Some _) => True | _ => False end.

Definition isExitErr (e : entry) : Prop :=
  match e with Exit (Some _) => True | _ => False end.

(** The replies of a run of [solve] up to the daily-quota query: the flags
    parse, the configuration holds a cookie, and the session is valid. *)
Definition repliesUntilQuota (fl : flags) : list Reply :=
  [RFlagParse (Ok fl); RLoadConfig (Ok (someConfig "sid=1"));
   RUrlParse (Ok "https://example.org"%string); RAuthMe (httpOK someUser);
   RUrlParse (Ok "https://example.org"%string); RAuthMe (httpOK someUser);
   RExportCookieHeader "sid=1"].

(** The events of that part of the run. *)
Definition eventsUntilQuota (fl : flags) : list Event :=
  [ECall (CFlagParse ["--config"%string; "config.json"%string]);
   ELog INF "starting: count=%d dryRun=%v autoLoop=%v"
        [AInt (count fl); ABool (dryRun fl); ABool (autoLoop fl)];
   ECall (CLoadConfig "config.json");
   ECall (CUrlParse "https://example.org"); ECall (CAuthMe someClient);
   ECall (CUrlParse "https://example.org"); ECall (CAuthMe someClient);
   ECall (CExportCookieHeader someClient);
   ELog INF "logged in: %s(%s)" [AStr "ann"; AStr "1"];
   ELog INF "site: %s" [AStr "https://example.org"]].

Definition solveArgs : list string :=
  ["solve"%string; "--config"%string; "config.json"%string].


(** ** The answer grid (the solver file) *)

(** The widest row: the loop that keeps [maxWidth]. *)
Definition maxWidth (g : grid) : nat :=
  fold_left (fun m row => if (m <? length row)%nat then length row else m)
            g O.

(** [make([]int, maxWidth)] with the row copied into it. *)
Definition padRow (width : nat) (row : list Z) : list Z :=
  if (length row <? width)%nat then row ++ repeat 0 (width - length row)
  else row.

Definition normalizeGrid (g : grid) : result grid :=
  match g with
  | [] => Err (ErrNew "empty grid")
  | _ :: _ =>
      let w := maxWidth g in
      if Nat.eqb w 0 then Err (ErrNew "empty rows")
      else Ok (map (padRow w) g)
  end.

(** The loop over the rows of [validateAnswerSize], at row [i]. *)
Fixpoint checkRowWidths (i w : Z) (rows : grid) : option error :=
  match rows with
  | [] => None
  | row :: rest =>
      if negb (Z.of_nat (length row) =? w) then
        Some (ErrNew ("row " ++ Itoa i ++ " width mismatch: got "
                      ++ Itoa (Z.of_nat (length row)) ++ ", want " ++ Itoa w))
      else checkRowWidths (i + 1) w rest
  end.

Definition validateAnswerSize (p : puzzle) (g : grid) : option error :=
  let h := AnswerSize_Height (Hints p) in
  let w := AnswerSize_Width (Hints p) in
  if (h <=? 0) || (w <=? 0) then None
  else if negb (Z.of_nat (length g) =? h) then
    Some (ErrNew ("row count mismatch: got " ++ Itoa (Z.of_nat (length g))
                  ++ ", want " ++ Itoa h))
  else checkRowWidths 0 w g.

Definition openBracket : Z := 91.
Definition closeBracket : Z := 93.

(** The loop of [findMatchingBracket] over the bytes from index [i] on. *)
Fixpoint bracketScan (bs : list Z) (i depth : Z) : Z :=
  match bs with
  | [] => -1
  | b :: rest =>
      if b =? openBracket then bracketScan rest (i + 1) (depth + 1)
      else if b =? closeBracket then
        if depth - 1 =? 0 then i else bracketScan rest (i + 1) (depth - 1)
      else bracketScan rest (i + 1) depth
  end.

(** [findMatchingBracket]; [None] is the index-out-of-range panic of a
    negative [start]. *)
Definition findMatchingBracket (text : string) (start : Z) : option Z :=
  if start <? 0 then None
  else Some (bracketScan (skipn (Z.to_nat start) (bytes_of_string text))
                         start 0).

(** [strings.Index]: the index of the first occurrence, or -1. *)
Fixpoint indexFrom (s sub : list Z) (i : Z) : Z :=
  match strings.stripPrefix sub s with
  | Some _ => i
  | None =>
      match s with
      | [] => -1
      | _ :: s' => indexFrom s' sub (i + 1)
      end
  end.

Definition Index (s substr : string) : Z :=
  indexFrom (bytes_of_string s) (bytes_of_string substr) 0.

(** [text[lo:hi]]; [None] is the slice-bounds panic. *)
Definition slice (text : string) (lo hi : Z) : option string :=
  if (0 <=? lo) && (lo <=? hi)
     && (hi <=? Z.of_nat (length (bytes_of_string text)))
  then Some (strings.string_of_bytes
               (firstn (Z.to_nat (hi - lo))
                       (skipn (Z.to_nat lo) (bytes_of_string text))))
  else None.

(** [parseAnswerGrid]; [unmarshal] is [json.Unmarshal] into a [[][]int], and
    [None] is a panic. *)
Definition parseAnswerGrid (unmarshal : string -> result grid) (text : string)
  : option (result grid) :=
  match unmarshal text with
  | Ok g => Some (normalizeGrid g)
  | Err _ =>
      let start := Index text "[[" in
      let start := if start =? -1 then Index text "[" else start in
      if start =? -1 then Some (Err (ErrNew "not valid json array"))
      else
        match findMatchingBracket text start with
        | None => None
        | Some e =>
            if (e =? -1) || (e <=? start) then
              Some (Err (ErrNew "not valid json array"))
            else
              match slice text start (e + 1) with
              | None => None
              | Some candidate =>
                  match unmarshal candidate with
                  | Err err => Some (Err (ErrWrap "parse json array: " err))
                  | Ok g => Some (normalizeGrid g)
                  end
              end
        end
  end.

(** ** Vocabulary of the further statements *)

(** A grid whose rows all have [w] cells. *)
Definition rectangular (w : nat) (g : grid) : Prop :=
  Forall (fun row => length row = w) g.

(** The number of bytes equal to [b]. *)
Definition countByte (b : Z) (bs : list Z) : nat :=
  length (filter (Z.eqb b) bs).

(** The brackets of [bs] balance at depth [depth]: as many closing ones as
    opening ones and [depth] more. *)
Definition balancedAt (depth : Z) (bs : list Z) : Prop :=
  depth + Z.of_nat (countByte openBracket bs)
  = Z.of_nat (countByte closeBracket bs).

(** The bytes of [text] from index [lo] up to and including index [hi]. *)
Definition bytesBetween (text : string) (lo hi : Z) : list Z :=
  firstn (Z.to_nat (hi - lo + 1)) (skipn (Z.to_nat lo) (bytes_of_string text)).

Definition byteAt (text : string) (i : Z) : Z :=
  nth (Z.to_nat i) (bytes_of_string text) (-1).

(** Every event of every run of [m] passes the test [allowed]. *)
Definition emitsOnly {A} (allowed : Event -> bool) (m : M A) : Prop :=
  forall s a t s', m s = Some (a, t, s') -> forallb allowed t = true.

(** The event is not the submission of an answer. *)
Definition notSubmission (e : Event) : bool :=
  match e with
  | ECall (CPuzzleSubmit _ _ _) => false
  | _ => true
  end.

(** The event is neither a submission nor a request of the PoW protocol. *)
Definition notSubmissionNorPow (e : Event) : bool :=
  match e with
  | ECall (CPuzzleSubmit _ _ _) | ECall (CPowStatus _)
  | ECall (CPowChallenge _) | ECall (CPowVerify _ _ _) => false
  | _ => true
  end.

(** The last line of a run without auto mode that went through the loop. *)
Definition doneLog (solved n : Z) : Event :=
  ELog INF "done: solved=%d/%d elapsed=%s" [AInt solved; AInt n; AElapsed].

(** The trace [t] ends with the event [e]. *)
Definition endsWith (e : Event) (t : list Event) : Prop :=
  exists t0, t = t0 ++ [e].

(** The flags of a dry run for one puzzle, for the examples. *)
Definition dryFlags : flags :=
  {| configPath := "config.json"; count := 1; dryRun := true;
     autoLoop := false |}.

(** Further log lines of the loop. *)
Definition fetchedLog (pNew : puzzleNewResponse) : Event :=
  ELog INF
    "puzzle fetched: puzzleId=%s, remainingAttempts=%d, dailyRemaining=%d/%d"
    [AStr (ID (Puzzle pNew)); AInt (RemainingAttempts pNew);
     AInt (DailyRemaining pNew); AInt (DailyLimit pNew)].

Definition quotaLog (dr : dailyRemainingResponse) : Event :=
  ELog INF "daily quota: remaining=%d completed=%d limit=%d"
       [AInt (Remaining dr); AInt (Completed dr); AInt (Limit dr)].

(** The events of a cooldown of [d] nanoseconds. *)
Definition cooldownEvents (d : Z) : list Event :=
  [ECall (CRandIntn 30);
   ELog INF "sleeping %s before continue..." [ADuration d];
   ESleep d].

(** The loop variables after a cooldown: the target is the solved count
    plus one. *)
Definition afterCooldown (st : loopState) : loopState :=
  {| cfg := cfg st; client := client st; solvedCount := solvedCount st;
     target := solvedCount st + 1 |}.

Definition withCfg (st : loopState) (c : appConfig) : loopState :=
  {| cfg := c; client := client st; solvedCount := solvedCount st;
     target := target st |}.

(** The events of a pass up to the request to the solver. *)
Definition eventsUntilSolve (solver : Solver) (st : loopState)
    (pNew : puzzleNewResponse) (t1 t2 : list Event) : list Event :=
  fetchingLog st :: t1 ++ t2
  ++ [fetchedLog pNew; ECall (CSolve solver (Puzzle pNew))].

(** The number of prompts for auth material in a trace. *)
Definition promptsOf (t : list Event) : nat :=
  length (filter (fun c => match c with
                           | CPromptAuthMaterial => true
                           | _ => false
                           end) (callsOf t)).

(** ** The configuration file (the configuration part of the source) *)

Definition defaultConfig : appConfig :=
  {| BaseURL := ""; Cookie := ""; UserAgent := defaultUA;
     AI := {| ai_Enabled := true; ai_Model := defaultAIModel;
              ai_BaseURL := ""; ai_APIKey := "" |} |}.

(** What the file system and the parser give [loadConfig]: no file, a
    failure of [os.Stat], of the load or of the decoding, or the value of
    [cfg] after the file has been decoded over the defaults. *)
Inductive configFile : Type :=
| FileMissing
| StatFailure (e : error)
| LoadFailure (e : error)
| UnmarshalFailure (e : error)
| Unmarshalled (cfg : appConfig).

(** [loadConfig] loads configuration from the specified path: what it
    returns for each of these. *)
Definition loadConfigFrom (f : configFile) : result appConfig :=
  match f with
  | FileMissing => Ok defaultConfig
  | StatFailure e => Err (ErrWrap "stat config: " e)
  | LoadFailure e => Err (ErrWrap "load config: " e)
  | UnmarshalFailure e => Err (ErrWrap "unmarshal config: " e)
  | Unmarshalled cfg =>
      let cookie := strings.TrimSpace (Cookie cfg) in
      let base := strings.TrimSpace (BaseURL cfg) in
      if String.eqb base "" then
        Err (ErrNew "base_url is required in config")
      else
        Ok {| BaseURL := base; Cookie := cookie;
              UserAgent := if String.eqb (UserAgent cfg) "" then defaultUA
                           else UserAgent cfg;
              AI := {| ai_Enabled := ai_Enabled (AI cfg);
                       ai_Model :=
                         if String.eqb (strings.TrimSpace (ai_Model (AI cfg))) ""
                         then defaultAIModel else ai_Model (AI cfg);
                       ai_BaseURL := ai_BaseURL (AI cfg);
                       ai_APIKey := ai_APIKey (AI cfg) |} |}
  end.

(** ** The exchanges with the model (the solver file) *)

(** [Answer] represents the structured response from the AI solver. *)
Record Answer : Type := {
  Reasoning : string;
  answer_Answer : grid;
  Confidence : Z
}.

(** [VerifyResult] represents the AI verification response. *)
Record VerifyResult : Type := {
  Valid : bool;
  vr_Reasoning : string
}.

(** A streamed reply: of each chunk the delta contents of its choices, and
    the error of the stream. *)
Record streamed : Type := {
  chunks : list (list string);
  streamErr : option error
}.

(** The loop over [stream.Next()] that fills [contentBuilder]. *)
Definition streamContent (cs : list (list string)) : string :=
  fold_left (fun acc choices =>
               match choices with
               | c :: _ => if negb (String.eqb c "") then (acc ++ c)%string
                           else acc
               | [] => acc
               end) cs ""%string.

(** [strings.LastIndex]: the index of the last occurrence, or -1. *)
Fixpoint lastIndexFrom (s sub : list Z) (i last : Z) : Z :=
  let last := match strings.stripPrefix sub s with
              | Some _ => i
              | None => last
              end in
  match s with
  | [] => last
  | _ :: s' => lastIndexFrom s' sub (i + 1) last
  end.

Definition LastIndex (s substr : string) : Z :=
  lastIndexFrom (bytes_of_string s) (bytes_of_string substr) 0 (-1).

(** [verifyAnswer], from the outcomes of its exchange on: [unmarshal] is
    [json.Unmarshal] into a [VerifyResult], [marshalPuzzle] and
    [marshalAnswer] are the errors of the two encodings, and [None] is a
    panic. *)
Definition verifyAnswerFrom (unmarshal : string -> result VerifyResult)
    (marshalPuzzle marshalAnswer : option error) (x : streamed)
  : option (result bool) :=
  match marshalPuzzle with
  | Some err => Some (Err (ErrWrap "marshal puzzle: " err))
  | None =>
      match marshalAnswer with
      | Some err => Some (Err (ErrWrap "marshal answer: " err))
      | None =>
          match streamErr x with
          | Some err =>
              Some (Err (ErrWrap "verify chat completion error: " err))
          | None =>
              let content := streamContent (chunks x) in
              if String.eqb content "" then
                Some (Err (ErrNew "no content in verify response"))
              else
                match unmarshal content with
                | Ok v => Some (Ok (Valid v))
                | Err _ =>
                    let start := Index content "{" in
                    let e := LastIndex content "}" in
                    if negb (start =? -1) && (start <? e) then
                      match slice content start (e + 1) with
                      | None => None
                      | Some part =>
                          match unmarshal part with
                          | Err err =>
                              Some (Err (ErrWrap "parse verify response: " err))
                          | Ok v => Some (Ok (Valid v))
                          end
                      end
                    else Some (Err (ErrNew "invalid verify response format"))
                end
          end
      end
  end.

(** The errors of [Solve]. *)
Inductive solveFailure : Type :=
| MarshalPuzzle (err : error)   (* "marshal puzzle: %w" *)
| Unavailable (cause : error)   (* "%w: %v" of [ErrAIUnavailable] and cause *)
| NoContent                     (* "no content in response" *)
| NotParsed (err : error)       (* the error of [parseAnswerGrid] *)
| EmptyAnswer                   (* "empty answer grid" *)
| VerificationFailed.           (* "AI self-verification failed: ..." *)

(** [errors.Is(err, ErrAIUnavailable)] on them. *)
Definition failureIsUnavailable (f : solveFailure) : bool :=
  match f with
  | MarshalPuzzle err | NotParsed err => errorsIs err ErrAIUnavailable
  | Unavailable _ => true
  | NoContent | EmptyAnswer | VerificationFailed => false
  end.

(** What [Solve] returns, with the warnings it logged. *)
Inductive solveResult : Type :=
| Solved (answer : grid) (warnings : list Event)
| Failed (f : solveFailure).

(** [Solve], from the outcomes of its exchange on: [unmarshalAnswer] and
    [unmarshalGrid] are [json.Unmarshal] into an [Answer] and into a
    [[][]int], [verify] is [s.verifyAnswer], and [None] is a panic. *)
Definition SolveFrom (unmarshalAnswer : string -> result Answer)
    (unmarshalGrid : string -> result grid) (verify : grid -> result bool)
    (p : puzzle) (marshalPuzzle : option error) (x : streamed)
  : option solveResult :=
  match marshalPuzzle with
  | Some err => Some (Failed (MarshalPuzzle err))
  | None =>
      match streamErr x with
      | Some err => Some (Failed (Unavailable err))
      | None =>
          let content := streamContent (chunks x) in
          if String.eqb content "" then Some (Failed NoContent)
          else
            match unmarshalAnswer content with
            | Err _ =>
                match parseAnswerGrid unmarshalGrid content with
                | None => None
                | Some (Err parseErr) => Some (Failed (NotParsed parseErr))
                | Some (Ok g) => Some (Solved g [])
                end
            | Ok answer =>
                if (length (answer_Answer answer) =? 0)%nat then
                  Some (Failed EmptyAnswer)
                else
                  let sizeWarning :=
                    match validateAnswerSize p (answer_Answer answer) with
                    | Some err =>
                        [ELog WRN "answer size mismatch: %v" [AError err]]
                    | None => []
                    end in
                  match verify (answer_Answer answer) with
                  | Err verifyErr =>
                      Some (Solved (answer_Answer answer)
                              (sizeWarning
                               ++ [ELog WRN "verification error: %v"
                                        [AError verifyErr]]))
                  | Ok verified =>
                      if negb verified then Some (Failed VerificationFailed)
                      else Some (Solved (answer_Answer answer) sizeWarning)
                  end
            end
      end
  end.

(** The result without the warnings. *)
Definition verdict (r : solveResult) : grid + solveFailure :=
  match r with
  | Solved g _ => inl g
  | Failed f => inr f
  end.

(** ** Cookie headers ([api.go]) *)

(** The fields of an [http.Cookie] that the client sets and reads. *)
Record httpCookie : Type := {
  ck_Name : string;
  ck_Value : string;
  ck_Path : string
}.

Definition semicolon : Z := 59.
Definition equalsSign : Z := 61.

(** [strings.Split(s, sep)] for a separator of one byte. *)
Fixpoint splitOn (sep : Z) (bs : list Z) : list (list Z) :=
  match bs with
  | [] => [[]]
  | b :: rest =>
      if b =? sep then [] :: splitOn sep rest
      else
        match splitOn sep rest with
        | p :: ps => (b :: p) :: ps
        | [] => [[b]]
        end
  end.

(** [strings.SplitN(s, sep, 2)] for a separator of one byte: the two pieces,
    or [None] when there is one piece only. *)
Fixpoint cutAt (sep : Z) (bs : list Z) : option (list Z * list Z) :=
  match bs with
  | [] => None
  | b :: rest =>
      if b =? sep then Some ([], rest)
      else
        match cutAt sep rest with
        | Some (k, v) => Some (b :: k, v)
        | None => None
        end
  end.

(** The body of the loop of [parseCookieHeader]: what the part [p]
    appends to [out]. *)
Definition parseCookiePart (p : list Z) : list httpCookie :=
  let p := strings.TrimSpace (strings.string_of_bytes p) in
  if String.eqb p "" then []
  else
    match cutAt equalsSign (bytes_of_string p) with
    | None => []
    | Some (k, v) =>
        let name := strings.TrimSpace (strings.string_of_bytes k) in
        let val := strings.TrimSpace (strings.string_of_bytes v) in
        if String.eqb name "" then []
        else [{| ck_Name := name; ck_Value := val; ck_Path := "/" |}]
    end.

(** [parseCookieHeader] parses a Cookie header string into individual
    cookies. *)
Definition parseCookieHeader (header : string) : list httpCookie :=
  let header := strings.TrimSpace header in
  if String.eqb header "" then []
  else flat_map parseCookiePart (splitOn semicolon (bytes_of_string header)).

(** [strings.Join]. *)
Fixpoint Join (elems : list string) (sep : string) : string :=
  match elems with
  | [] => ""
  | [e] => e
  | e :: rest => e ++ sep ++ Join rest sep
  end.

(** [exportCookieHeader] returns the current cookies as a header string:
    from the cookie of the client and what the jar holds for the base URL
    ([None] without a jar or a parsed base URL; an entry of the list is
    [None] for a nil cookie). *)
Definition exportCookieHeaderOf (cookie : string)
    (jar : option (list (option httpCookie))) : string :=
  match jar with
  | None => strings.TrimSpace cookie
  | Some [] => strings.TrimSpace cookie
  | Some cookies =>
      Join (flat_map (fun ck =>
                        match ck with
                        | None => []
                        | Some ck =>
                            if String.eqb (strings.TrimSpace (ck_Name ck)) ""
                            then []
                            else [(ck_Name ck ++ "=" ++ ck_Value ck)%string]
                        end) cookies) "; "
  end.

(** A cookie as [parseCookieHeader] produces them: a name that is not empty,
    name and value trimmed, no separator of the header inside them, and the
    path "/". *)
Definition cleanCookie (ck : httpCookie) : Prop :=
  ck_Name ck <> ""%string
  /\ strings.TrimSpace (ck_Name ck) = ck_Name ck
  /\ strings.TrimSpace (ck_Value ck) = ck_Value ck
  /\ ck_Path ck = "/"%string
  /\ ~ In equalsSign (bytes_of_string (ck_Name ck))
  /\ ~ In semicolon (bytes_of_string (ck_Name ck))
  /\ ~ In semicolon (bytes_of_string (ck_Value ck)).

(** The pair that [exportCookieHeader] writes for a cookie. *)
Definition cookiePair (ck : httpCookie) : string :=
  (ck_Name ck ++ "=" ++ ck_Value ck)%string.

(** The event is not a sleep shorter than 2 seconds or longer than 5
    minutes. *)
Definition sleepInRange (e : Event) : bool :=
  match e with
  | ESleep d => (2 * Second <=? d) && (d <=? 300 * Second)
  | _ => true
  end.

(** * Properties *)

(** ** Proof of work *)

Lemma word_bytes_isByte w : Forall isByte (Sha256.word_bytes w).
Proof.
  unfold Sha256.word_bytes, isByte.
  repeat constructor; apply Z.mod_pos_bound; lia.
Qed.

Lemma Sum256_isByte msg : Forall isByte (Sha256.Sum256 msg).
Proof.
  unfold Sha256.Sum256.
  destruct (Sha256.blocks _ _ _) as [[[[[[[a b] c] d] e] f] g] h].
  repeat (apply Forall_app; split); apply word_bytes_isByte.
Qed.

Lemma nth_isByte sum i : Forall isByte sum -> isByte (nth i sum 0).
Proof.
  intros H. destruct (nth_in_or_default i sum 0) as [Hin | ->].
  - rewrite Forall_forall in H. auto.
  - unfold isByte; lia.
Qed.

(** A byte is zero when both of its hex digits are; its high digit is zero
    when the mask [0xF0] finds nothing. *)
Lemma byte_digits_table :
  forallb (fun n => let b := Z.of_nat n in
             Bool.eqb (b =? 0) ((Z.shiftr b 4 =? 0) && (Z.land b 0xF =? 0))
             && Bool.eqb (Z.land b 0xF0 =? 0) (Z.shiftr b 4 =? 0))
          (seq 0 256) = true.
Proof. vm_compute. reflexivity. Qed.

Lemma byte_digits b :
  isByte b ->
  (b =? 0) = ((Z.shiftr b 4 =? 0) && (Z.land b 0xF =? 0))
  /\ (Z.land b 0xF0 =? 0) = (Z.shiftr b 4 =? 0).
Proof.
  intros Hb. pose proof byte_digits_table as T.
  rewrite forallb_forall in T.
  specialize (T (Z.to_nat b)).
  cbv zeta in T. rewrite Z2Nat.id in T by (unfold isByte in Hb; lia).
  assert (Hin : In (Z.to_nat b) (seq 0 256)).
  { apply in_seq. unfold isByte in Hb. lia. }
  apply T in Hin. apply andb_true_iff in Hin as [H1 H2].
  apply eqb_prop in H1. apply eqb_prop in H2. split; assumption.
Qed.

Lemma index_in_range sum i :
  0 <= i < 32 -> index sum i = Some (nth (Z.to_nat i) sum 0).
Proof.
  intros H. unfold index.
  replace (0 <=? i) with true by (symmetry; apply Z.leb_le; lia).
  replace (i <? 32) with true by (symmetry; apply Z.ltb_lt; lia).
  reflexivity.
Qed.

Lemma zeroBytesFrom_spec sum n : forall i,
  0 <= i -> i + Z.of_nat n <= 32 ->
  exists b, zeroBytesFrom sum i n = Some b
    /\ (b = true <->
        forall j, i <= j < i + Z.of_nat n -> nth (Z.to_nat j) sum 0 = 0).
Proof.
  induction n as [| n IH]; intros i Hi Hn.
  - exists true. split; [reflexivity |]. split; [intros _ j Hj; lia | auto].
  - cbn [zeroBytesFrom]. rewrite index_in_range by lia.
    destruct (Z.eqb_spec (nth (Z.to_nat i) sum 0) 0) as [Hz | Hz].
    + destruct (IH (i + 1)) as [b [Hb Hiff]]; [lia | lia |].
      exists b. split; [exact Hb |]. rewrite Hiff. split.
      * intros H j Hj. destruct (Z.eq_dec j i) as [-> | Hne]; [exact Hz |].
        apply H. lia.
      * intros H j Hj. apply H. lia.
    + exists false. split; [reflexivity |]. split; [discriminate |].
      intros H. exfalso. apply Hz. apply H. lia.
Qed.

Lemma leadingZeroNibbles_spec d sum :
  leadingZeroNibbles d sum = true <->
  forall k, 0 <= k < d -> nibble sum k = 0.
Proof.
  unfold leadingZeroNibbles. rewrite forallb_forall. split.
  - intros H k Hk. specialize (H (Z.to_nat k)).
    rewrite Z2Nat.id in H by lia. apply Z.eqb_eq. apply H.
    apply in_seq. lia.
  - intros H n Hn. apply in_seq in Hn. apply Z.eqb_eq. apply H. lia.
Qed.

Lemma nibble_even sum j :
  0 <= j -> nibble sum (2 * j) = Z.shiftr (nth (Z.to_nat j) sum 0) 4.
Proof.
  intros Hj. unfold nibble.
  replace (2 * j / 2) with j by (apply Z.div_unique with 0; lia).
  rewrite Z.even_mul. reflexivity.
Qed.

Lemma nibble_odd sum j :
  0 <= j -> nibble sum (2 * j + 1) = Z.land (nth (Z.to_nat j) sum 0) 0xF.
Proof.
  intros Hj. unfold nibble.
  replace ((2 * j + 1) / 2) with j by (apply Z.div_unique with 1; lia).
  replace (Z.even (2 * j + 1)) with false; [reflexivity |].
  symmetry. rewrite Z.add_comm. rewrite Z.even_add_mul_2. reflexivity.
Qed.

(** All the nibbles below [2 * q] are zero exactly when the first [q] bytes
    are. *)
Lemma zero_nibbles_zero_bytes sum q :
  Forall isByte sum -> 0 <= q ->
  (forall k, 0 <= k < 2 * q -> nibble sum k = 0) <->
  (forall j, 0 <= j < q -> nth (Z.to_nat j) sum 0 = 0).
Proof.
  intros Hs Hq. split.
  - intros H j Hj.
    destruct (byte_digits (nth (Z.to_nat j) sum 0)) as [E _];
      [apply nth_isByte; exact Hs |].
    apply Z.eqb_eq. rewrite E. apply andb_true_iff. split; apply Z.eqb_eq.
    + rewrite <- nibble_even by lia. apply H. lia.
    + rewrite <- nibble_odd by lia. apply H. lia.
  - intros H k Hk.
    assert (Hj : 0 <= k / 2 < q).
    { split; [apply Z.div_pos; lia | apply Z.div_lt_upper_bound; lia]. }
    specialize (H _ Hj).
    unfold nibble. rewrite H. destruct (Z.even k); reflexivity.
Qed.

(** The code's test agrees with the spec's reading of it, and never indexes
    the digest out of range, for a difficulty in [[0, 64]]. *)
Lemma hasLeadingZeroNibbles_spec sum d :
  Forall isByte sum -> 0 <= d <= 64 ->
  hasLeadingZeroNibbles sum (Z.quot d 2) (Z.rem d 2 =? 1)
  = Some (leadingZeroNibbles d sum).
Proof.
  intros Hs Hd.
  rewrite Z.quot_div_nonneg by lia. rewrite Z.rem_mod_nonneg by lia.
  set (q := d / 2). pose proof (Z.div_mod d 2 ltac:(lia)) as Hdm.
  pose proof (Z.mod_pos_bound d 2 ltac:(lia)) as Hr. fold q in Hdm.
  assert (Hq : 0 <= q <= 32) by lia.
  unfold hasLeadingZeroNibbles.
  destruct (zeroBytesFrom_spec sum (Z.to_nat q) 0) as [b [Hb Hiff]];
    [lia | lia |].
  rewrite Hb. rewrite Z2Nat.id in Hiff by lia.
  rewrite <- (zero_nibbles_zero_bytes sum q Hs) in Hiff by lia.
  destruct b.
  - destruct Hiff as [Hall _]. specialize (Hall eq_refl).
    destruct (Z.eqb_spec (d mod 2) 1) as [Hodd | Heven].
    + rewrite index_in_range by lia. f_equal.
      destruct (byte_digits (nth (Z.to_nat q) sum 0)) as [_ E];
        [apply nth_isByte; exact Hs |].
      rewrite E. rewrite <- nibble_even by lia.
      apply eq_true_iff_eq. rewrite leadingZeroNibbles_spec, Z.eqb_eq. split.
      * intros H0 k Hk. destruct (Z.eq_dec k (2 * q)) as [-> | Hne];
          [exact H0 | apply Hall; lia].
      * intros H. apply H. lia.
    + f_equal. symmetry. apply leadingZeroNibbles_spec.
      intros k Hk. apply Hall. lia.
  - f_equal. symmetry. apply not_true_is_false. intros Hl.
    rewrite leadingZeroNibbles_spec in Hl.
    assert (false = true); [| discriminate].
    apply Hiff. intros k Hk. apply Hl. lia.
Qed.

(** The least nonce that passes, below one that does. *)
Lemma least_passing challenge d n :
  0 <= n -> passes challenge d n = true ->
  exists m, 0 <= m <= n /\ passes challenge d m = true
    /\ forall k, 0 <= k < m -> passes challenge d k = false.
Proof.
  intros Hn Hp.
  assert (H : forall c : nat,
    (forall k, 0 <= k < n - Z.of_nat c -> passes challenge d k = false) ->
    (Z.of_nat c <= n) ->
    exists m, 0 <= m <= n /\ passes challenge d m = true
      /\ forall k, 0 <= k < m -> passes challenge d k = false).
  { induction c as [| c IH]; intros Hbelow Hc.
    - exists n. repeat split; try lia; [exact Hp |].
      intros k Hk. apply Hbelow. lia.
    - destruct (passes challenge d (n - Z.of_nat (S c))) eqn:E.
      + exists (n - Z.of_nat (S c)). repeat split; try lia; [exact E |].
        exact Hbelow.
      + apply IH; [| lia]. intros k Hk.
        destruct (Z.eq_dec k (n - Z.of_nat (S c))) as [-> | Hne];
          [exact E | apply Hbelow; lia]. }
  apply (H (Z.to_nat n)); [intros k Hk; lia | lia].
Qed.

Lemma wrap64_id z : minInt64 <= z <= maxInt64 -> wrap64 z = z.
Proof.
  unfold minInt64, maxInt64, wrap64. intros H.
  rewrite Z.mod_small by lia. lia.
Qed.

(** The search from attempt [i] reaches the first passing nonce [m]. *)
Lemma powSearch_reaches ctx challenge d m :
  0 <= d <= 64 -> (forall i, Done ctx i = false) ->
  m <= maxInt64 -> passes challenge d m = true ->
  forall fuel i,
    0 <= i <= m ->
    (forall k, i <= k < m -> passes challenge d k = false) ->
    (Z.to_nat (m - i) < fuel)%nat ->
    powSearch fuel ctx challenge (Z.quot d 2) (Z.rem d 2 =? 1) i
    = Some (Ok (Itoa m)).
Proof.
  intros Hd Hctx Hm Hp.
  induction fuel as [| fuel IH]; intros i Hi Hfail Hfuel; [lia |].
  cbn [powSearch]. rewrite Hctx, andb_false_r.
  rewrite hasLeadingZeroNibbles_spec by (try apply Sum256_isByte; exact Hd).
  fold (passes challenge d i).
  destruct (Z.eq_dec i m) as [-> | Hne].
  - rewrite Hp. reflexivity.
  - rewrite Hfail by lia.
    rewrite wrap64_id by (unfold minInt64, maxInt64 in *; lia).
    apply IH; [lia | intros k Hk; apply Hfail; lia | lia].
Qed.

(** C2. For a difficulty in [[0, 64]], a context that is never cancelled and
    a challenge for which some nonce [n] in the range of [int] passes the
    leading-zero-nibble test, [computePowNonce] returns the decimal string of
    the smallest natural number [m] that passes it: every nonce [0..m-1]
    fails, and every run with room for [m + 1] attempts returns that same
    string. *)
Theorem computePowNonce_smallest ctx challenge d n :
  0 <= d <= 64 ->
  (forall i, Done ctx i = false) ->
  0 <= n <= maxInt64 ->
  passes challenge d n = true ->
  exists m,
    0 <= m <= n
    /\ passes challenge d m = true
    /\ (forall k, 0 <= k < m -> passes challenge d k = false)
    /\ forall fuel, (Z.to_nat m < fuel)%nat ->
         computePowNonce fuel ctx challenge d = Some (Ok (Itoa m)).
Proof.
  intros Hd Hctx Hn Hp.
  destruct (least_passing challenge d n) as [m [Hm [Hpm Hleast]]];
    [lia | exact Hp |].
  exists m. repeat split; try lia; try assumption.
  intros fuel Hfuel. unfold computePowNonce.
  replace (d <? 0) with false by (symmetry; apply Z.ltb_ge; lia).
  replace (64 <? d) with false by (symmetry; apply Z.ltb_ge; lia).
  cbn [orb].
  apply powSearch_reaches; try assumption; lia.
Qed.

Lemma computePowNonce_smallest_witness :
  exists m,
    0 <= m <= 3
    /\ passes "ergo" 1 m = true
    /\ (forall k, 0 <= k < m -> passes "ergo" 1 k = false)
    /\ forall fuel, (Z.to_nat m < fuel)%nat ->
         computePowNonce fuel Background "ergo" 1 = Some (Ok (Itoa m)).
Proof.
  apply (computePowNonce_smallest Background "ergo" 1 3).
  - lia.
  - intros i. reflexivity.
  - unfold maxInt64. lia.
  - vm_compute. reflexivity.
Defined.

(** C9. For every difficulty below 0 or above 64, [computePowNonce] returns
    the invalid-difficulty error, whatever the challenge, the context and
    the number of attempts it is allowed, none included: no digest is
    computed. *)
Theorem computePowNonce_invalid_difficulty fuel ctx challenge d :
  d < 0 \/ 64 < d ->
  computePowNonce fuel ctx challenge d
  = Some (Err (ErrNew ("invalid difficulty: " ++ Itoa d)))
  /\ computePowNonce 0 ctx challenge d = computePowNonce fuel ctx challenge d.
Proof.
  intros H. unfold computePowNonce.
  assert (E : (d <? 0) || (64 <? d) = true).
  { apply orb_true_iff. destruct H; [left | right]; apply Z.ltb_lt; lia. }
  rewrite E. split; reflexivity.
Qed.

Lemma computePowNonce_invalid_difficulty_witness :
  computePowNonce 5 Background "ergo" 65
  = Some (Err (ErrNew "invalid difficulty: 65"))
  /\ computePowNonce 0 Background "ergo" 65
     = computePowNonce 5 Background "ergo" 65.
Proof.
  apply (computePowNonce_invalid_difficulty 5 Background "ergo" 65).
  right. lia.
Defined.

Example computePowNonce_ergo :
  computePowNonce 100 Background "ergo" 2 = Some (Ok "32"%string)
  /\ computePowNonce 100 Background "ergo" 1 = Some (Ok "3"%string)
  /\ computePowNonce 100 Background "ergo" 0 = Some (Ok "0"%string)
  /\ computePowNonce 3 Background "ergo" 1 = None.
Proof.
  split; [vm_compute; reflexivity |].
  split; [vm_compute; reflexivity |].
  split; vm_compute; reflexivity.
Qed.

Example marker_bytes :
  bytes_of_string markerQuotaUsedUp
  = [0xe6; 0xac; 0xa1; 0xe6; 0x95; 0xb0; 0xe5; 0xb7; 0xb2;
     0xe7; 0x94; 0xa8; 0xe5; 0xae; 0x8c]
  /\ bytes_of_string markerCompleted
     = [0xe5; 0xb7; 0xb2; 0xe5; 0xae; 0x8c; 0xe6; 0x88; 0x90]
  /\ bytes_of_string markerComeBackTomorrow
     = [0xe8; 0xaf; 0xb7; 0xe6; 0x98; 0x8e; 0xe5; 0xa4; 0xa9;
        0xe5; 0x86; 0x8d; 0xe6; 0x9d; 0xa5].
Proof. repeat split; reflexivity. Qed.

(** ** Running computations *)

Lemma bind_run {A B} (m : M A) (k : A -> M B) s a t1 s1 :
  m s = Some (a, t1, s1) ->
  bind m k s = match k a s1 with
               | None => None
               | Some (b, t2, s2) => Some (b, t1 ++ t2, s2)
               end.
Proof. intros H. unfold bind. rewrite H. reflexivity. Qed.

Lemma bind_run_Some {A B} (m : M A) (k : A -> M B) s a t1 s1 b t2 s2 :
  m s = Some (a, t1, s1) -> k a s1 = Some (b, t2, s2) ->
  bind m k s = Some (b, t1 ++ t2, s2).
Proof. intros H1 H2. rewrite (bind_run _ _ _ _ _ _ H1), H2. reflexivity. Qed.

Lemma bind_inv {A B} (m : M A) (k : A -> M B) s b t s' :
  bind m k s = Some (b, t, s') ->
  exists a t1 s1 t2,
    m s = Some (a, t1, s1) /\ k a s1 = Some (b, t2, s') /\ t = t1 ++ t2.
Proof.
  unfold bind. destruct (m s) as [[[a t1] s1] |]; [| discriminate].
  destruct (k a s1) as [[[b' t2] s2] |] eqn:E; [| discriminate].
  intros H. inversion H; subst. exists a, t1, s1, t2. auto.
Qed.

Lemma ask_inv {A} (c : Call) (decode : Reply -> option A) s a t s' :
  ask c decode s = Some (a, t, s') ->
  exists r, s = r :: s' /\ decode r = Some a /\ t = [ECall c].
Proof.
  unfold ask. destruct s as [| r s1]; [discriminate |].
  destruct (decode r) as [a' |] eqn:E; [| discriminate].
  intros H. inversion H; subst. exists r. auto.
Qed.

(** ** PoW freshness *)

Lemma sat64_lt_window z :
  (sat64 z <? powRefreshWindow) = (z <? powRefreshWindow).
Proof.
  unfold sat64, powRefreshWindow, Second, minInt64, maxInt64.
  change (2 ^ 63) with 9223372036854775808.
  destruct (Z.ltb_spec z (- (9223372036854775808)));
    [| destruct (Z.ltb_spec (9223372036854775808 - 1) z)];
    apply eq_true_iff_eq; rewrite !Z.ltb_lt; lia.
Qed.

Lemma powNeedsRefresh_eq st now :
  powNeedsRefresh st now =
  negb (HasValidPow st)
  || ((0 <? PowExpiresAt st)
      && (UnixMilli (PowExpiresAt st) - now <? powRefreshWindow)).
Proof.
  unfold powNeedsRefresh, timeSub. rewrite sat64_lt_window.
  destruct (HasValidPow st), (0 <? PowExpiresAt st),
    (UnixMilli (PowExpiresAt st) - now <? powRefreshWindow); reflexivity.
Qed.

(** C6, as the code has it. With [hasValidPow = false] a refresh is always
    needed. With [hasValidPow = true] and a positive [powExpiresAt], a
    refresh is needed exactly when [expiresAt - now] is below the 120s
    window; with [hasValidPow = true] and [powExpiresAt <= 0] none is needed.
    [ensurePow] then stops after the status query when no refresh is needed,
    and otherwise requests a challenge, searches the nonce and verifies
    it. *)
Theorem ensurePow_refresh_policy st now :
  (HasValidPow st = false -> powNeedsRefresh st now = true)
  /\ (HasValidPow st = true -> 0 < PowExpiresAt st ->
      (powNeedsRefresh st now = true <->
       UnixMilli (PowExpiresAt st) - now < 120 * Second))
  /\ (HasValidPow st = true -> PowExpiresAt st <= 0 ->
      powNeedsRefresh st now = false)
  /\ forall gas ctx c o rest,
       doJSON o = Ok st ->
       (powNeedsRefresh st now = false ->
        ensurePow gas ctx c (RPowStatus o :: RTimeNow now :: rest)
        = Some (None,
                [ECall (CPowStatus c); ECall CTimeNow;
                 ELog INF "PoW valid, no refresh needed" []],
                rest))
       /\ (powNeedsRefresh st now = true ->
           forall oc chal nonce ov,
             doJSON oc = Ok chal ->
             computePowNonce gas ctx (Challenge chal) (Difficulty chal)
             = Some (Ok nonce) ->
             doJSON ov = Ok tt ->
             ensurePow gas ctx c
               (RPowStatus o :: RTimeNow now :: RPowChallenge oc
                  :: RPowVerify ov :: rest)
             = Some (None,
                     [ECall (CPowStatus c); ECall CTimeNow;
                      ELog INF "PoW needs refresh, solving..." [];
                      ECall (CPowChallenge c);
                      ELog INF "PoW found nonce=%s (elapsed %s)"
                           [AStr nonce; AElapsed];
                      ECall (CPowVerify c (Challenge chal) nonce);
                      ELog INF "PoW verified" []],
                     rest)).
Proof.
  rewrite powNeedsRefresh_eq.
  split; [| split; [| split]].
  - intros ->. reflexivity.
  - intros Hv Hpos. rewrite Hv. cbn [negb orb].
    rewrite andb_true_iff, !Z.ltb_lt. fold powRefreshWindow. tauto.
  - intros Hv Hle. rewrite Hv. cbn [negb orb].
    replace (0 <? PowExpiresAt st) with false
      by (symmetry; apply Z.ltb_ge; lia).
    reflexivity.
  - intros gas ctx c o rest Ho. rewrite <- powNeedsRefresh_eq. split.
    + intros Hneed.
      unfold ensurePow, bind, powStatus, timeNow, ask, logf, emit, ret.
      rewrite Ho, Hneed. reflexivity.
    + intros Hneed oc chal nonce ov Hoc Hn Hov.
      unfold ensurePow, bind, powStatus, timeNow, powChallenge, powVerify,
        liftOption, ask, logf, emit, ret.
      rewrite Ho. cbn -[computePowNonce]. rewrite Hneed.
      cbn -[computePowNonce]. rewrite Hoc. cbn -[computePowNonce].
      rewrite Hn. cbn. rewrite Hov. reflexivity.
Qed.

Lemma ensurePow_refresh_policy_witness :
  powNeedsRefresh
    {| HasValidPow := true; PowExpiresAt := 1767225700000;
       HasOngoingChallenge := false |}
    (1767225600 * Second) = true
  /\ powNeedsRefresh
       {| HasValidPow := true; PowExpiresAt := 1767225720000;
          HasOngoingChallenge := false |}
       (1767225600 * Second) = false.
Proof.
  split.
  - destruct (ensurePow_refresh_policy
                {| HasValidPow := true; PowExpiresAt := 1767225700000;
                   HasOngoingChallenge := false |}
                (1767225600 * Second)) as (_ & H & _).
    apply H; [reflexivity | reflexivity | vm_compute; reflexivity].
  - destruct (ensurePow_refresh_policy
                {| HasValidPow := true; PowExpiresAt := 1767225720000;
                   HasOngoingChallenge := false |}
                (1767225600 * Second)) as (_ & H & _).
    apply not_true_is_false. intros E.
    apply H in E; [| reflexivity | reflexivity].
    vm_compute in E. discriminate.
Defined.

(** C6 as stated fails: with [hasValidPow = true] and [powExpiresAt = 0],
    [expiresAt - now] is far below 120s, yet [ensurePow] does not refresh. *)
Lemma ensurePow_no_refresh_without_expiry :
  let st := {| HasValidPow := true; PowExpiresAt := 0;
               HasOngoingChallenge := false |} in
  let now := 1767225600 * Second in
  HasValidPow st = true
  /\ UnixMilli (PowExpiresAt st) - now < 120 * Second
  /\ ensurePow 1 Background someClient
       [RPowStatus (Response 200 [123; 125] "" (Ok st)); RTimeNow now]
     = Some (None,
             [ECall (CPowStatus someClient); ECall CTimeNow;
              ELog INF "PoW valid, no refresh needed" []],
             []).
Proof.
  cbv zeta. split; [reflexivity |]. split; [reflexivity |].
  vm_compute. reflexivity.
Qed.

(** ** Retry on rate limiting *)

Lemma callsOf_app t1 t2 : callsOf (t1 ++ t2) = callsOf t1 ++ callsOf t2.
Proof. unfold callsOf. apply flat_map_app. Qed.

Lemma sleepsOf_app t1 t2 : sleepsOf (t1 ++ t2) = sleepsOf t1 ++ sleepsOf t2.
Proof. unfold sleepsOf. apply flat_map_app. Qed.

Lemma callsOf_retryTrace call format n : forall b,
  callsOf (retryTrace call format n b ++ [ECall call]) = repeat call (n + 1).
Proof.
  induction n as [| n IH]; intros b; [reflexivity |].
  cbn [retryTrace Nat.add repeat]. rewrite <- app_assoc, callsOf_app, IH.
  reflexivity.
Qed.

Lemma sleepsOf_retryTrace call format n : forall b,
  sleepsOf (retryTrace call format n b ++ [ECall call])
  = map (fun k => Nat.iter k nextBackoff b) (seq 0 n).
Proof.
  induction n as [| n IH]; intros b; [reflexivity |].
  cbn [retryTrace seq map]. rewrite <- app_assoc, sleepsOf_app, IH.
  rewrite <- seq_shift, map_map. cbn [sleepsOf flat_map app].
  f_equal. apply map_ext. intros k. rewrite Nat.iter_succ_r. reflexivity.
Qed.

Lemma nextBackoff_32 : nextBackoff (32 * Second) = 32 * Second.
Proof. reflexivity. Qed.

(** The backoff variable of the loop follows the closed form. *)
Lemma backoff_closed_form k :
  Nat.iter k nextBackoff (2 * Second) = backoffAt k.
Proof.
  assert (H : forall j, Nat.iter (4 + j) nextBackoff (2 * Second)
                        = 32 * Second).
  { induction j as [| j IH]; [reflexivity |].
    rewrite Nat.add_succ_r, Nat.iter_succ, IH. apply nextBackoff_32. }
  destruct k as [| [| [| [| k]]]]; try reflexivity.
  change (S (S (S (S k)))) with (4 + k)%nat at 1.
  rewrite (H k). unfold backoffAt.
  rewrite Z.min_r; [reflexivity |].
  change 32 with (2 ^ 5). apply Z.pow_le_mono_r; lia.
Qed.

Lemma backoffAt_bound k :
  2 * Second <= backoffAt k <= 32 * Second.
Proof.
  unfold backoffAt, Second.
  assert (2 ^ 1 <= 2 ^ (Z.of_nat k + 1)) by (apply Z.pow_le_mono_r; lia).
  change (2 ^ 1) with 2 in *. lia.
Qed.

Lemma rateLimited_Err {A} (r : result A) :
  rateLimited r = true ->
  exists err, r = Err err
    /\ match errorsAs err with
       | Some ae => StatusCode ae =? 429
       | None => false
       end = true.
Proof.
  destruct r as [a | err]; cbn; [discriminate |]. intros H. eauto.
Qed.

Lemma not_rateLimited {A} (r : result A) :
  rateLimited r = false ->
  match r with
  | Ok _ => True
  | Err err => match errorsAs err with
               | Some ae => StatusCode ae =? 429
               | None => false
               end = false
  end.
Proof. destruct r; cbn; auto. Qed.

Lemma puzzleNewRetryLoop_run c o rest : forall os fuel b,
  Forall (fun o => rateLimited (doJSON o) = true) os ->
  rateLimited (doJSON o) = false ->
  (length os < fuel)%nat ->
  puzzleNewRetryLoop fuel c b (map RPuzzleNew os ++ RPuzzleNew o :: rest)
  = Some (doJSON o,
          retryTrace (CPuzzleNew c) "rate limited (429), waiting %s..."
                     (length os) b ++ [ECall (CPuzzleNew c)],
          rest).
Proof.
  induction os as [| o1 os IH]; intros fuel b Hos Ho Hfuel;
    (destruct fuel as [| fuel]; [cbn in Hfuel; lia |]).
  - cbn [map app length retryTrace puzzleNewRetryLoop].
    unfold bind, puzzleNew, ask, ret.
    apply not_rateLimited in Ho.
    destruct (doJSON o) as [p | err]; [reflexivity |].
    rewrite Ho. reflexivity.
  - inversion Hos as [| ? ? H1 Hrest]; subst.
    apply rateLimited_Err in H1 as [err [E1 E2]].
    cbn [map app length retryTrace puzzleNewRetryLoop].
    unfold bind at 1. unfold puzzleNew, ask. rewrite E1, E2.
    unfold bind at 1. unfold logf, emit. unfold bind at 1. unfold Sleep, emit.
    fold (nextBackoff b).
    rewrite IH by (try assumption; cbn in Hfuel; lia).
    reflexivity.
Qed.

Lemma submitRetryLoop_run c id answer o rest : forall os fuel b,
  Forall (fun o => rateLimited (doJSON o) = true) os ->
  rateLimited (doJSON o) = false ->
  (length os < fuel)%nat ->
  submitRetryLoop fuel c id answer b
    (map RPuzzleSubmit os ++ RPuzzleSubmit o :: rest)
  = Some (doJSON o,
          retryTrace (CPuzzleSubmit c id answer)
                     "submit rate limited (429), waiting %s..."
                     (length os) b ++ [ECall (CPuzzleSubmit c id answer)],
          rest).
Proof.
  induction os as [| o1 os IH]; intros fuel b Hos Ho Hfuel;
    (destruct fuel as [| fuel]; [cbn in Hfuel; lia |]).
  - cbn [map app length retryTrace submitRetryLoop].
    unfold bind, puzzleSubmit, ask, ret.
    apply not_rateLimited in Ho.
    destruct (doJSON o) as [p | err]; [reflexivity |].
    rewrite Ho. reflexivity.
  - inversion Hos as [| ? ? H1 Hrest]; subst.
    apply rateLimited_Err in H1 as [err [E1 E2]].
    cbn [map app length retryTrace submitRetryLoop].
    unfold bind at 1. unfold puzzleSubmit, ask. rewrite E1, E2.
    unfold bind at 1. unfold logf, emit. unfold bind at 1. unfold Sleep, emit.
    fold (nextBackoff b).
    rewrite IH by (try assumption; cbn in Hfuel; lia).
    reflexivity.
Qed.

(** C1, as the code has it. After [N] rate-limited answers and one that is
    not rate-limited, each retry wrapper has made exactly [N + 1] calls, has
    slept [N] times, for 2s, 4s, 8s, 16s and then 32s each time, and returns
    what the last call returned: the successful result, or at once the error
    whose status is not 429. The backoff doubles while it is below 30s, so
    no sleep exceeds 32s. *)
Theorem retry_wrappers_backoff c id answer (N fuel : nat) rest :
  (N < fuel)%nat ->
  (forall os o,
     length os = N ->
     Forall (fun o => rateLimited (doJSON o) = true) os ->
     rateLimited (doJSON o) = false ->
     exists t,
       puzzleNewWithRetry fuel c (map RPuzzleNew os ++ RPuzzleNew o :: rest)
       = Some (doJSON o, t, rest)
       /\ callsOf t = repeat (CPuzzleNew c) (N + 1)
       /\ sleepsOf t = map backoffAt (seq 0 N))
  /\ (forall os o,
        length os = N ->
        Forall (fun o => rateLimited (doJSON o) = true) os ->
        rateLimited (doJSON o) = false ->
        exists t,
          submitWithRetry fuel c id answer
            (map RPuzzleSubmit os ++ RPuzzleSubmit o :: rest)
          = Some (doJSON o, t, rest)
          /\ callsOf t = repeat (CPuzzleSubmit c id answer) (N + 1)
          /\ sleepsOf t = map backoffAt (seq 0 N))
  /\ (forall k, 2 * Second <= backoffAt k <= 32 * Second)
  /\ (forall k, (k < 4)%nat -> backoffAt k = 2 ^ (Z.of_nat k + 1) * Second)
  /\ (forall k, (4 <= k)%nat -> backoffAt k = 32 * Second).
Proof.
  intros Hfuel. split; [| split; [| split; [| split]]].
  - intros os o Hlen Hos Ho. subst N. eexists. split.
    + unfold puzzleNewWithRetry. apply puzzleNewRetryLoop_run; assumption.
    + split; [apply callsOf_retryTrace |].
      rewrite sleepsOf_retryTrace. apply map_ext. apply backoff_closed_form.
  - intros os o Hlen Hos Ho. subst N. eexists. split.
    + unfold submitWithRetry. apply submitRetryLoop_run; assumption.
    + split; [apply callsOf_retryTrace |].
      rewrite sleepsOf_retryTrace. apply map_ext. apply backoff_closed_form.
  - apply backoffAt_bound.
  - intros k Hk. unfold backoffAt. f_equal. apply Z.min_l.
    change 32 with (2 ^ 5). apply Z.pow_le_mono_r; lia.
  - intros k Hk. unfold backoffAt. f_equal. apply Z.min_r.
    change 32 with (2 ^ 5). apply Z.pow_le_mono_r; lia.
Qed.

Lemma retry_wrappers_backoff_witness :
  exists t,
    puzzleNewWithRetry 3 someClient
      [RPuzzleNew (httpStatus 429 "slow down");
       RPuzzleNew (httpStatus 429 "slow down");
       RPuzzleNew (httpOK (someTicket 2))]
    = Some (Ok (someTicket 2), t, [])
    /\ callsOf t = repeat (CPuzzleNew someClient) 3
    /\ sleepsOf t = [2 * Second; 4 * Second].
Proof.
  destruct (retry_wrappers_backoff someClient "p1"%string [] 2 3 [])
    as (H & _); [lia |].
  apply (H [httpStatus 429 "slow down"; httpStatus 429 "slow down"]
           (httpOK (someTicket 2))).
  - reflexivity.
  - repeat constructor.
  - reflexivity.
Defined.

(** C1 as stated fails: after five rate-limited answers the wrapper has
    slept 32s, which is above the 30s of the claim. *)
Lemma retry_sleeps_32s_after_five_429 :
  option_map (fun '(r, t, s) => (r, callsOf t, sleepsOf t, s))
    (puzzleNewWithRetry 6 someClient
       (repeat (RPuzzleNew (httpStatus 429 "slow down")) 5
        ++ [RPuzzleNew (httpOK (someTicket 2))]))
  = Some (Ok (someTicket 2),
          repeat (CPuzzleNew someClient) 6,
          [2 * Second; 4 * Second; 8 * Second; 16 * Second; 32 * Second],
          [])
  /\ 30 * Second < 32 * Second.
Proof. split; vm_compute; reflexivity. Qed.

(** ** Interactive login *)

(** Runs the first computation of a [bind] with a known result. *)
Ltac run_with H := rewrite (bind_run _ _ _ _ _ _ H); cbv beta iota.

Lemma newAPIClient_run cfg u s :
  BaseURL cfg <> ""%string ->
  newAPIClient cfg (RUrlParse (Ok u) :: s)
  = Some (Ok (clientOf cfg u), [ECall (CUrlParse (BaseURL cfg))], s).
Proof.
  intros H. unfold newAPIClient.
  apply String.eqb_neq in H. rewrite H. reflexivity.
Qed.

Lemma authMe_run c o s :
  authMe c (RAuthMe o :: s) = Some (doJSON o, [ECall (CAuthMe c)], s).
Proof. reflexivity. Qed.

Lemma promptAndSave_run cfg path am s :
  promptAndSave cfg path (RPromptAuthMaterial (Ok am) :: RSaveConfig None :: s)
  = Some (Ok (applyAuthMaterial cfg am),
          promptEvents path (applyAuthMaterial cfg am), s).
Proof. reflexivity. Qed.

Lemma promptAndSave_first cfg path s r t s' :
  promptAndSave cfg path s = Some (r, t, s') ->
  exists t', t = ECall CPromptAuthMaterial :: t'.
Proof.
  unfold promptAndSave. intros H.
  apply bind_inv in H as (a & t1 & s1 & t2 & H1 & _ & ->).
  apply ask_inv in H1 as (_ & _ & _ & ->). eexists. reflexivity.
Qed.

Lemma applyAuthMaterial_BaseURL cfg am :
  BaseURL cfg <> ""%string -> BaseURL (applyAuthMaterial cfg am) = BaseURL cfg.
Proof.
  intros H. unfold applyAuthMaterial. cbn [BaseURL].
  apply String.eqb_neq in H. rewrite H, andb_false_r. reflexivity.
Qed.

(** One validation: the client is built and [authMe] is called. *)
Lemma loginValidate_first_ok ctx cfg path u o me s :
  BaseURL cfg <> ""%string -> doJSON o = Ok me ->
  loginValidate ctx cfg path (RUrlParse (Ok u) :: RAuthMe o :: s)
  = Some (Ok cfg, validationEvents cfg u, s).
Proof.
  intros Hb Ho. unfold loginValidate.
  run_with (newAPIClient_run cfg u (RAuthMe o :: s) Hb).
  run_with (authMe_run (clientOf cfg u) o s).
  rewrite Ho. reflexivity.
Qed.

Lemma loginValidate_first_fatal ctx cfg path u o e s :
  BaseURL cfg <> ""%string -> doJSON o = Err e -> isAuthError e = false ->
  loginValidate ctx cfg path (RUrlParse (Ok u) :: RAuthMe o :: s)
  = Some (Err e, validationEvents cfg u, s).
Proof.
  intros Hb Ho He. unfold loginValidate.
  run_with (newAPIClient_run cfg u (RAuthMe o :: s) Hb).
  run_with (authMe_run (clientOf cfg u) o s).
  rewrite Ho, He. reflexivity.
Qed.

(** After an auth error of the first validation: the prompt, and the second
    validation, whose outcome decides. *)
Lemma loginValidate_second ctx cfg path u1 o1 e1 am u2 o2 s :
  BaseURL cfg <> ""%string -> doJSON o1 = Err e1 -> isAuthError e1 = true ->
  loginValidate ctx cfg path
    (RUrlParse (Ok u1) :: RAuthMe o1 :: RPromptAuthMaterial (Ok am)
       :: RSaveConfig None :: RUrlParse (Ok u2) :: RAuthMe o2 :: s)
  = Some (match doJSON o2 with
          | Ok _ => Ok (applyAuthMaterial cfg am)
          | Err e2 => if isAuthError e2 then Err loginStillInvalid else Err e2
          end,
          validationEvents cfg u1
          ++ promptEvents path (applyAuthMaterial cfg am)
          ++ validationEvents (applyAuthMaterial cfg am) u2,
          s).
Proof.
  intros Hb Ho He. unfold loginValidate.
  run_with (newAPIClient_run cfg u1
              (RAuthMe o1 :: RPromptAuthMaterial (Ok am) :: RSaveConfig None
                 :: RUrlParse (Ok u2) :: RAuthMe o2 :: s) Hb).
  run_with (authMe_run (clientOf cfg u1) o1
              (RPromptAuthMaterial (Ok am) :: RSaveConfig None
                 :: RUrlParse (Ok u2) :: RAuthMe o2 :: s)).
  rewrite Ho, He. cbn [negb].
  run_with (promptAndSave_run cfg path am
              (RUrlParse (Ok u2) :: RAuthMe o2 :: s)).
  assert (Hb' : BaseURL (applyAuthMaterial cfg am) <> ""%string)
    by (rewrite applyAuthMaterial_BaseURL; assumption).
  run_with (newAPIClient_run (applyAuthMaterial cfg am) u2
              (RAuthMe o2 :: s) Hb').
  run_with (authMe_run (clientOf (applyAuthMaterial cfg am) u2) o2 s).
  destruct (doJSON o2) as [me | e2]; [reflexivity |].
  destruct (isAuthError e2); reflexivity.
Qed.

Lemma loginValidate_prompts ctx cfg path u o e s r t s' :
  BaseURL cfg <> ""%string -> doJSON o = Err e -> isAuthError e = true ->
  loginValidate ctx cfg path (RUrlParse (Ok u) :: RAuthMe o :: s)
  = Some (r, t, s') ->
  exists t', t = validationEvents cfg u ++ ECall CPromptAuthMaterial :: t'.
Proof.
  intros Hb Ho He. unfold loginValidate.
  run_with (newAPIClient_run cfg u (RAuthMe o :: s) Hb).
  run_with (authMe_run (clientOf cfg u) o s).
  rewrite Ho, He. cbn [negb].
  match goal with
  | |- context [bind (promptAndSave cfg path) ?k s] =>
      unfold bind at 1;
      destruct (promptAndSave cfg path s) as [[[r1 t1] s1] |] eqn:E;
        [| discriminate];
      destruct (k r1 s1) as [[[r2 t2] s2] |]; [| discriminate]
  end.
  apply promptAndSave_first in E as [t' ->].
  intros H. inversion H; subst. eexists. reflexivity.
Qed.

(** A validation needs a base URL, and one that parses. *)
Lemma loginValidate_no_base ctx cfg path s :
  BaseURL cfg = ""%string ->
  loginValidate ctx cfg path s
  = Some (Err (ErrNew "base_url is required"), [], s).
Proof.
  intros Hb. unfold loginValidate, newAPIClient. rewrite Hb. reflexivity.
Qed.

Lemma newAPIClient_bad_url cfg e s :
  BaseURL cfg <> ""%string ->
  newAPIClient cfg (RUrlParse (Err e) :: s)
  = Some (Err (ErrWrap "invalid base_url: " e),
          [ECall (CUrlParse (BaseURL cfg))], s).
Proof.
  intros H. unfold newAPIClient.
  apply String.eqb_neq in H. rewrite H. reflexivity.
Qed.

Lemma loginValidate_bad_url ctx cfg path e s :
  BaseURL cfg <> ""%string ->
  loginValidate ctx cfg path (RUrlParse (Err e) :: s)
  = Some (Err (ErrWrap "invalid base_url: " e),
          [ECall (CUrlParse (BaseURL cfg))], s).
Proof.
  intros Hb. unfold loginValidate.
  run_with (newAPIClient_bad_url cfg e s Hb). reflexivity.
Qed.

Lemma loginValidate_second_bad_url ctx cfg path u1 o1 e1 am e s :
  BaseURL cfg <> ""%string -> doJSON o1 = Err e1 -> isAuthError e1 = true ->
  loginValidate ctx cfg path
    (RUrlParse (Ok u1) :: RAuthMe o1 :: RPromptAuthMaterial (Ok am)
       :: RSaveConfig None :: RUrlParse (Err e) :: s)
  = Some (Err (ErrWrap "invalid base_url: " e),
          validationEvents cfg u1
          ++ promptEvents path (applyAuthMaterial cfg am)
          ++ [ECall (CUrlParse (BaseURL (applyAuthMaterial cfg am)))],
          s).
Proof.
  intros Hb Ho He. unfold loginValidate.
  run_with (newAPIClient_run cfg u1
              (RAuthMe o1 :: RPromptAuthMaterial (Ok am) :: RSaveConfig None
                 :: RUrlParse (Err e) :: s) Hb).
  run_with (authMe_run (clientOf cfg u1) o1
              (RPromptAuthMaterial (Ok am) :: RSaveConfig None
                 :: RUrlParse (Err e) :: s)).
  rewrite Ho, He. cbn [negb].
  run_with (promptAndSave_run cfg path am (RUrlParse (Err e) :: s)).
  assert (Hb' : BaseURL (applyAuthMaterial cfg am) <> ""%string)
    by (rewrite applyAuthMaterial_BaseURL; assumption).
  run_with (newAPIClient_bad_url (applyAuthMaterial cfg am) e s Hb').
  reflexivity.
Qed.

(** C7. [ensureLoginInteractive] on any stored configuration, the defaults
    of a missing file (no base URL, no cookie) included. With an empty
    stored cookie it first prompts. The validations then start from the
    stored configuration with its cookie trimmed or, after that prompt, from
    the configuration that the prompt produced. A validation needs a base
    URL: without one the run ends with "base_url is required", and with one
    that does not parse it ends with "invalid base_url". When the first
    validation fails with an auth error the run prompts; when the validation
    that follows that prompt fails with an auth error too, it returns "login
    still invalid"; and a validation that fails with any other error, the
    first or the second, ends the run with that error, with no request made
    after it. *)
Theorem ensureLoginInteractive_recovery ctx cfg path :
  let cfg0 := withCookie cfg (strings.TrimSpace (Cookie cfg)) in
  (* the stored cookie is empty: the first request is the prompt *)
  (Cookie cfg0 = ""%string ->
   forall s r t s',
     ensureLoginInteractive ctx cfg path s = Some (r, t, s') ->
     exists t', t = ECall CPromptAuthMaterial :: t')
  (* the validations start from [v1], after the replies [asked] and the
     events [before]: nothing, or the first prompt *)
  /\ forall asked before v1,
       (Cookie cfg0 <> ""%string
        /\ v1 = cfg0 /\ asked = [] /\ before = [])
       \/ (Cookie cfg0 = ""%string
           /\ exists am,
                v1 = applyAuthMaterial cfg0 am
                /\ asked = [RPromptAuthMaterial (Ok am); RSaveConfig None]
                /\ before = promptEvents path v1) ->
       (* no base URL: the run ends, nothing is requested *)
       (BaseURL v1 = ""%string ->
        forall s,
          ensureLoginInteractive ctx cfg path (asked ++ s)
          = Some (Err (ErrNew "base_url is required"), before, s))
       /\ (BaseURL v1 <> ""%string ->
           (* the base URL does not parse: the run ends *)
           (forall e s,
              ensureLoginInteractive ctx cfg path
                (asked ++ RUrlParse (Err e) :: s)
              = Some (Err (ErrWrap "invalid base_url: " e),
                      before ++ [ECall (CUrlParse (BaseURL v1))], s))
           (* a non-auth error of the first validation ends the run *)
           /\ (forall u o e s,
                 doJSON o = Err e -> isAuthError e = false ->
                 ensureLoginInteractive ctx cfg path
                   (asked ++ RUrlParse (Ok u) :: RAuthMe o :: s)
                 = Some (Err e, before ++ validationEvents v1 u, s))
           (* the first validation fails with an auth error: the prompt
              follows *)
           /\ (forall u o e s r t s',
                 doJSON o = Err e -> isAuthError e = true ->
                 ensureLoginInteractive ctx cfg path
                   (asked ++ RUrlParse (Ok u) :: RAuthMe o :: s)
                 = Some (r, t, s') ->
                 exists t',
                   t = before ++ validationEvents v1 u
                       ++ ECall CPromptAuthMaterial :: t')
           (* the validation after that prompt fails with an auth error:
              login still invalid *)
           /\ (forall u1 o1 e1 am u2 o2 e2 s,
                 doJSON o1 = Err e1 -> isAuthError e1 = true ->
                 doJSON o2 = Err e2 -> isAuthError e2 = true ->
                 let v2 := applyAuthMaterial v1 am in
                 ensureLoginInteractive ctx cfg path
                   (asked ++ RUrlParse (Ok u1) :: RAuthMe o1
                      :: RPromptAuthMaterial (Ok am) :: RSaveConfig None
                      :: RUrlParse (Ok u2) :: RAuthMe o2 :: s)
                 = Some (Err loginStillInvalid,
                         before ++ validationEvents v1 u1
                         ++ promptEvents path v2 ++ validationEvents v2 u2,
                         s))
           (* a non-auth error of the second validation ends the run *)
           /\ (forall u1 o1 e1 am u2 o2 e2 s,
                 doJSON o1 = Err e1 -> isAuthError e1 = true ->
                 doJSON o2 = Err e2 -> isAuthError e2 = false ->
                 let v2 := applyAuthMaterial v1 am in
                 ensureLoginInteractive ctx cfg path
                   (asked ++ RUrlParse (Ok u1) :: RAuthMe o1
                      :: RPromptAuthMaterial (Ok am) :: RSaveConfig None
                      :: RUrlParse (Ok u2) :: RAuthMe o2 :: s)
                 = Some (Err e2,
                         before ++ validationEvents v1 u1
                         ++ promptEvents path v2 ++ validationEvents v2 u2,
                         s))
           (* the base URL does not parse at the second validation: the run
              ends *)
           /\ (forall u1 o1 e1 am e s,
                 doJSON o1 = Err e1 -> isAuthError e1 = true ->
                 let v2 := applyAuthMaterial v1 am in
                 ensureLoginInteractive ctx cfg path
                   (asked ++ RUrlParse (Ok u1) :: RAuthMe o1
                      :: RPromptAuthMaterial (Ok am) :: RSaveConfig None
                      :: RUrlParse (Err e) :: s)
                 = Some (Err (ErrWrap "invalid base_url: " e),
                         before ++ validationEvents v1 u1
                         ++ promptEvents path v2
                         ++ [ECall (CUrlParse (BaseURL v2))],
                         s))).
Proof.
  intros cfg0. split.
  - intros Hc s r t s' H. unfold ensureLoginInteractive in H. fold cfg0 in H.
    rewrite Hc in H. cbn [String.eqb] in H.
    apply bind_inv in H as (a & t1 & s1 & t2 & H1 & _ & ->).
    apply promptAndSave_first in H1 as [t' ->]. eexists. reflexivity.
  - intros asked before v1 Hentry.
    assert (Hrun : forall s,
               ensureLoginInteractive ctx cfg path (asked ++ s)
               = match loginValidate ctx v1 path s with
                 | None => None
                 | Some (r, t, s') => Some (r, before ++ t, s')
                 end).
    { destruct Hentry as [(Hc & -> & -> & ->) | (Hc & am & -> & -> & ->)];
        intros s; cbn [app]; unfold ensureLoginInteractive; fold cfg0.
      - apply String.eqb_neq in Hc. rewrite Hc.
        unfold bind, ret. cbv beta iota.
        destruct (loginValidate ctx cfg0 path s) as [[[r t] s'] |];
          reflexivity.
      - rewrite Hc. cbn [String.eqb].
        run_with (promptAndSave_run cfg0 path am s). reflexivity. }
    split.
    + intros Hb s. rewrite Hrun, (loginValidate_no_base _ _ _ _ Hb).
      rewrite app_nil_r. reflexivity.
    + intros Hb. split; [| split; [| split; [| split; [| split]]]].
      * intros e s. rewrite Hrun, (loginValidate_bad_url _ _ _ _ _ Hb).
        reflexivity.
      * intros u o e s Ho He.
        rewrite Hrun, (loginValidate_first_fatal _ _ _ _ _ _ _ Hb Ho He).
        reflexivity.
      * intros u o e s r t s' Ho He H. rewrite Hrun in H.
        destruct (loginValidate ctx v1 path (RUrlParse (Ok u) :: RAuthMe o :: s))
          as [[[r0 t0] s0] |] eqn:E; [| discriminate H].
        inversion H; subst.
        destruct (loginValidate_prompts _ _ _ _ _ _ _ _ _ _ Hb Ho He E)
          as [t' ->].
        exists t'. reflexivity.
      * intros u1 o1 e1 am u2 o2 e2 s Ho1 He1 Ho2 He2 v2.
        rewrite Hrun,
          (loginValidate_second ctx v1 path u1 o1 e1 am u2 o2 s Hb Ho1 He1).
        rewrite Ho2, He2. reflexivity.
      * intros u1 o1 e1 am u2 o2 e2 s Ho1 He1 Ho2 He2 v2.
        rewrite Hrun,
          (loginValidate_second ctx v1 path u1 o1 e1 am u2 o2 s Hb Ho1 He1).
        rewrite Ho2, He2. reflexivity.
      * intros u1 o1 e1 am e s Ho1 He1 v2.
        rewrite Hrun,
          (loginValidate_second_bad_url ctx v1 path u1 o1 e1 am e s Hb Ho1 He1).
        reflexivity.
Qed.

(** A first run: no configuration file, so no base URL and no cookie. The
    prompt supplies both; the service answers 401, and after the second
    prompt 403. *)
Lemma ensureLoginInteractive_recovery_witness :
  option_map (fun '(r, _, s) => (r, s))
    (ensureLoginInteractive Background defaultConfig "config.json"
       [RPromptAuthMaterial
          (Ok {| am_Cookie := "sid=1"; am_UserAgent := "";
                 am_BaseURL := "https://example.org" |});
        RSaveConfig None; RUrlParse (Ok "https://example.org"%string);
        RAuthMe (httpStatus 401 "unauthorized");
        RPromptAuthMaterial
          (Ok {| am_Cookie := "sid=2"; am_UserAgent := ""; am_BaseURL := "" |});
        RSaveConfig None; RUrlParse (Ok "https://example.org"%string);
        RAuthMe (httpStatus 403 "forbidden")])
  = Some (Err loginStillInvalid, []).
Proof.
  pose (am1 := {| am_Cookie := "sid=1"; am_UserAgent := "";
                  am_BaseURL := "https://example.org" |}).
  pose (v1 := applyAuthMaterial defaultConfig am1).
  destruct (proj2 (ensureLoginInteractive_recovery Background defaultConfig
                     "config.json")
              [RPromptAuthMaterial (Ok am1); RSaveConfig None]
              (promptEvents "config.json" v1) v1) as (_ & H).
  - right. split; [reflexivity |]. exists am1. repeat split.
  - destruct (H ltac:(discriminate)) as (_ & _ & _ & Hstill & _).
    cbn [app] in Hstill.
    rewrite (Hstill _ (httpStatus 401 "unauthorized")
               (ErrApi {| StatusCode := 401; Message := "unauthorized";
                          Body := [] |})
               _ _ (httpStatus 403 "forbidden")
               (ErrApi {| StatusCode := 403; Message := "forbidden";
                          Body := [] |})
               [] eq_refl eq_refl eq_refl eq_refl).
    reflexivity.
Defined.

(** ** [strings.TrimSpace] keeps the quota markers *)

Lemma stripPrefix_Some p : forall s r,
  strings.stripPrefix p s = Some r -> s = p ++ r.
Proof.
  induction p as [| a p IH]; intros s r H.
  - cbn in H. inversion H. reflexivity.
  - destruct s as [| b s]; [discriminate |]. cbn in H.
    destruct (Z.eqb_spec a b) as [-> | _]; [| discriminate].
    cbn. f_equal. apply IH. exact H.
Qed.

Lemma stripPrefix_app p : forall r, strings.stripPrefix p (p ++ r) = Some r.
Proof.
  induction p as [| a p IH]; intros r; [reflexivity |].
  cbn. rewrite Z.eqb_refl. apply IH.
Qed.

Lemma stripAny_Some ps : forall s r,
  strings.stripAny ps s = Some r -> exists p, In p ps /\ s = p ++ r.
Proof.
  induction ps as [| p ps IH]; intros s r H; [discriminate |].
  cbn in H. destruct (strings.stripPrefix p s) as [r' |] eqn:E.
  - inversion H; subst. exists p. split; [left; reflexivity |].
    apply stripPrefix_Some. exact E.
  - destruct (IH _ _ H) as [q [Hq Hs]]. exists q. split; [right |]; assumption.
Qed.

Lemma containsBytes_occursIn sub : forall s,
  strings.containsBytes s sub = true <-> occursIn sub s.
Proof.
  induction s as [| b s IH].
  - cbn. destruct (strings.stripPrefix sub []) as [r |] eqn:E.
    + split; [intros _ | reflexivity].
      apply stripPrefix_Some in E. exists [], r. exact E.
    + split; [discriminate |]. intros [u [v H]].
      symmetry in H. apply app_eq_nil in H as [-> H].
      apply app_eq_nil in H as [-> ->]. discriminate.
  - cbn [strings.containsBytes].
    destruct (strings.stripPrefix sub (b :: s)) as [r |] eqn:E.
    + split; [intros _ | reflexivity].
      apply stripPrefix_Some in E. exists [], r. exact E.
    + rewrite IH. split.
      * intros [u [v H]]. exists (b :: u), v. rewrite H. reflexivity.
      * intros [u [v H]]. destruct u as [| b' u].
        -- cbn in H. rewrite H, stripPrefix_app in E. discriminate.
        -- inversion H; subst. exists u, v. reflexivity.
Qed.

(** Removing a leading pattern that does not hold the first byte of [sub]
    keeps every occurrence of [sub]. *)
Lemma occursIn_strip a sub p r :
  ~ In a p -> occursIn (a :: sub) (p ++ r) -> occursIn (a :: sub) r.
Proof.
  intros Ha [u [v H]].
  apply app_eq_app in H as [l [[Hp Hr] | [Hu Hr]]].
  - destruct l as [| x l].
    + cbn in Hr. exists [], v. symmetry. exact Hr.
    + cbn in Hr. inversion Hr; subst. exfalso. apply Ha.
      apply in_or_app. right. left. reflexivity.
  - exists l, v. exact Hr.
Qed.

Lemma occursIn_trimLeading a sub ps :
  (forall p, In p ps -> ~ In a p) ->
  forall n s, occursIn (a :: sub) s ->
              occursIn (a :: sub) (strings.trimLeading ps n s).
Proof.
  intros Hps. induction n as [| n IH]; intros s H; [exact H |].
  cbn. destruct (strings.stripAny ps s) as [r |] eqn:E; [| exact H].
  apply stripAny_Some in E as [p [Hp ->]].
  apply IH. eapply occursIn_strip; [apply Hps; exact Hp | exact H].
Qed.

Lemma occursIn_rev sub s : occursIn sub s -> occursIn (rev sub) (rev s).
Proof.
  intros [u [v ->]]. exists (rev v), (rev u).
  rewrite !rev_app_distr, app_assoc. reflexivity.
Qed.

Lemma notSpaceByte_spec b :
  notSpaceByte b = true -> forall p, In p strings.spaceRunes -> ~ In b p.
Proof.
  unfold notSpaceByte. rewrite forallb_forall. intros H p Hp Hin.
  specialize (H p Hp). apply negb_true_iff in H.
  assert (existsb (Z.eqb b) p = true); [| congruence].
  apply existsb_exists. exists b. split; [exact Hin | apply Z.eqb_refl].
Qed.

Lemma occursIn_trimLeft a sub s :
  notSpaceByte a = true ->
  occursIn (a :: sub) s -> occursIn (a :: sub) (strings.trimLeft s).
Proof.
  intros Ha. apply occursIn_trimLeading. apply notSpaceByte_spec. exact Ha.
Qed.

Lemma occursIn_trimRight b sub s :
  notSpaceByte b = true ->
  occursIn (sub ++ [b]) s -> occursIn (sub ++ [b]) (strings.trimRight s).
Proof.
  intros Hb H. unfold strings.trimRight.
  rewrite <- (rev_involutive (sub ++ [b])). apply occursIn_rev.
  rewrite rev_app_distr. cbn [rev app].
  apply occursIn_trimLeading.
  - intros p Hp Hin. apply in_map_iff in Hp as [q [<- Hq]].
    apply in_rev in Hin. revert Hin. apply notSpaceByte_spec; assumption.
  - apply occursIn_rev in H. rewrite rev_app_distr in H. exact H.
Qed.

Lemma bytes_of_string_isByte s : Forall isByte (bytes_of_string s).
Proof.
  induction s as [| c s IH]; constructor; [| exact IH].
  unfold isByte. pose proof (N_ascii_bounded c). lia.
Qed.

Lemma bytes_of_string_of_bytes l :
  Forall isByte l -> bytes_of_string (strings.string_of_bytes l) = l.
Proof.
  induction 1 as [| b l Hb _ IH]; [reflexivity |].
  cbn. rewrite IH. f_equal. rewrite N_ascii_embedding.
  - apply Z2N.id. unfold isByte in Hb. lia.
  - unfold isByte in Hb. lia.
Qed.

Lemma trimLeading_Forall (P : Z -> Prop) ps : forall n s,
  Forall P s -> Forall P (strings.trimLeading ps n s).
Proof.
  induction n as [| n IH]; intros s H; [exact H |].
  cbn. destruct (strings.stripAny ps s) as [r |] eqn:E; [| exact H].
  apply stripAny_Some in E as [p [_ ->]].
  apply IH. apply Forall_app in H. tauto.
Qed.

Lemma trim_isByte s :
  Forall isByte s -> Forall isByte (strings.trimRight (strings.trimLeft s)).
Proof.
  intros H. unfold strings.trimRight, strings.trimLeft.
  apply Forall_rev. apply trimLeading_Forall. apply Forall_rev.
  apply trimLeading_Forall. exact H.
Qed.

(** A substring that neither begins nor ends with a byte of a space
    encoding survives [TrimSpace]. *)
Lemma Contains_TrimSpace msg m a inner b :
  bytes_of_string m = a :: inner ++ [b] ->
  notSpaceByte a = true -> notSpaceByte b = true ->
  strings.Contains msg m = true ->
  strings.Contains (strings.TrimSpace msg) m = true.
Proof.
  intros Hm Ha Hb. unfold strings.Contains, strings.TrimSpace.
  rewrite bytes_of_string_of_bytes
    by (apply trim_isByte; apply bytes_of_string_isByte).
  rewrite !containsBytes_occursIn, Hm. intros H.
  change (a :: inner ++ [b]) with ((a :: inner) ++ [b]).
  apply occursIn_trimRight; [exact Hb |].
  change ((a :: inner) ++ [b]) with (a :: inner ++ [b]).
  apply occursIn_trimLeft; assumption.
Qed.

(** ** The loop *)

Lemma solveLoop_step fuel gas ctx fl solver st s c t s1 :
  solvedCount st < target st ->
  loopBody gas ctx fl solver st s = Some (c, t, s1) ->
  solveLoop (S fuel) gas ctx fl solver st s
  = match c with
    | Return e => Some (e, t, s1)
    | Continue st' =>
        match solveLoop fuel gas ctx fl solver st' s1 with
        | None => None
        | Some (e, t2, s2) => Some (e, t ++ t2, s2)
        end
    end.
Proof.
  intros Hlt Hbody. cbn [solveLoop].
  apply Z.ltb_lt in Hlt. rewrite Hlt.
  run_with Hbody. destruct c as [st' | e]; [reflexivity |].
  unfold ret. rewrite app_nil_r. reflexivity.
Qed.

Lemma solveLoop_done fuel gas ctx fl solver st s :
  target st <= solvedCount st ->
  solveLoop fuel gas ctx fl solver st s
  = Some (None,
          [if autoLoop fl then autoCompleteLog (solvedCount st)
           else ELog INF "done: solved=%d/%d elapsed=%s"
                     [AInt (solvedCount st); AInt (target st); AElapsed]],
          s).
Proof.
  intros Hge. apply Z.ltb_ge in Hge.
  destruct fuel; cbn [solveLoop]; rewrite Hge;
    destruct (autoLoop fl); reflexivity.
Qed.

(** What [main] makes of a run that reaches the loop. *)
Lemma main_of_loop fuel args s0 fl solver st t0 s r t s' :
  runSolveSetup fuel Background args s0 = Some (Enter fl solver st, t0, s) ->
  solveLoop fuel fuel Background fl solver st s = Some (r, t, s') ->
  main fuel ("solve"%string :: args) s0
  = Some (exitStatus r, t0 ++ t ++ errorLog r, s').
Proof.
  intros Hsetup Hloop. unfold main, run.
  change (String.eqb "solve" cmdHelp) with false.
  change (String.eqb "solve" "-h") with false.
  change (String.eqb "solve" "--help") with false.
  change (String.eqb "solve" cmdSolve) with true.
  cbn [orb]. unfold runSolve.
  rewrite (bind_run _ _ _ _ _ _
             (bind_run_Some _ _ _ _ _ _ _ _ _ Hsetup Hloop)).
  destruct r as [err |]; cbn; rewrite <- ?app_assoc, ?app_nil_r; reflexivity.
Qed.

(** What one pass does with an error of the fetch. *)
Lemma loopBody_fetch_error gas ctx fl solver st s e t s' :
  puzzleNewWithRetry gas (client st) s = Some (Err e, t, s') ->
  loopBody gas ctx fl solver st s
  = if isDailyExhaustedError e then
      Some (Return None, fetchingLog st :: t ++ [stoppingLog], s')
    else if isAuthError e then
      match reauthenticate ctx (configPath fl) st s' with
      | None => None
      | Some (c, t2, s2) => Some (c, fetchingLog st :: t ++ t2, s2)
      end
    else Some (Return (Some e), fetchingLog st :: t, s').
Proof.
  intros Hfetch. unfold loopBody.
  unfold bind at 1. unfold logf at 1, emit at 1.
  run_with Hfetch.
  destruct (isDailyExhaustedError e); [reflexivity |].
  destruct (isAuthError e).
  - destruct (reauthenticate ctx (configPath fl) st s') as [[[c t2] s2] |];
      reflexivity.
  - cbn. rewrite app_nil_r. reflexivity.
Qed.

Lemma isDailyExhaustedError_isAuthError e :
  isDailyExhaustedError e = true -> isAuthError e = true.
Proof.
  unfold isDailyExhaustedError, isAuthError.
  destruct (errorsAs e) as [ae |]; [| discriminate].
  destruct (StatusCode ae =? 403); [| discriminate].
  intros _. apply orb_true_r.
Qed.

Lemma isDailyExhaustedError_of_marker e ae :
  errorsAs e = Some ae -> StatusCode ae = 403 ->
  strings.Contains (Message ae) markerQuotaUsedUp = true
  \/ strings.Contains (Message ae) markerCompleted = true
  \/ strings.Contains (Message ae) markerComeBackTomorrow = true ->
  isDailyExhaustedError e = true.
Proof.
  intros Has Hst Hm. unfold isDailyExhaustedError. rewrite Has, Hst.
  cbn [Z.eqb Pos.eqb negb]. rewrite !orb_true_iff.
  destruct Hm as [H | [H | H]]; [left; left | left; right | right].
  - apply (Contains_TrimSpace _ markerQuotaUsedUp 0xe6
             [0xac; 0xa1; 0xe6; 0x95; 0xb0; 0xe5; 0xb7; 0xb2;
              0xe7; 0x94; 0xa8; 0xe5; 0xae] 0x8c);
      [reflexivity | reflexivity | reflexivity | exact H].
  - apply (Contains_TrimSpace _ markerCompleted 0xe5
             [0xb7; 0xb2; 0xe5; 0xae; 0x8c; 0xe6; 0x88] 0x90);
      [reflexivity | reflexivity | reflexivity | exact H].
  - apply (Contains_TrimSpace _ markerComeBackTomorrow 0xe8
             [0xaf; 0xb7; 0xe6; 0x98; 0x8e; 0xe5; 0xa4; 0xa9;
              0xe5; 0x86; 0x8d; 0xe6; 0x9d] 0xa5);
      [reflexivity | reflexivity | reflexivity | exact H].
Qed.

(** C5. When the fetch of a pass fails with an error of status 403 whose
    message contains one of the quota markers, the loop logs that the daily
    limit is exhausted and returns no error, having made no request after
    the fetch (so no re-authentication); [main] then exits with status
    0. *)
Theorem quota_exhausted_stops_loop fuel gas ctx fl solver st e ae s t s' :
  errorsAs e = Some ae ->
  StatusCode ae = 403 ->
  strings.Contains (Message ae) markerQuotaUsedUp = true
  \/ strings.Contains (Message ae) markerCompleted = true
  \/ strings.Contains (Message ae) markerComeBackTomorrow = true ->
  solvedCount st < target st ->
  puzzleNewWithRetry gas (client st) s = Some (Err e, t, s') ->
  solveLoop (S fuel) gas ctx fl solver st s
  = Some (None, fetchingLog st :: t ++ [stoppingLog], s')
  /\ forall args s0 t0,
       gas = S fuel -> ctx = Background ->
       runSolveSetup gas ctx args s0 = Some (Enter fl solver st, t0, s) ->
       main gas ("solve"%string :: args) s0
       = Some (0, t0 ++ fetchingLog st :: t ++ [stoppingLog], s').
Proof.
  intros Has Hst Hm Hlt Hfetch.
  pose proof (isDailyExhaustedError_of_marker e ae Has Hst Hm) as Hex.
  assert (Hloop : solveLoop (S fuel) gas ctx fl solver st s
                  = Some (None, fetchingLog st :: t ++ [stoppingLog], s')).
  { erewrite solveLoop_step; [| exact Hlt |].
    2: { rewrite (loopBody_fetch_error _ _ _ _ _ _ _ _ _ Hfetch), Hex.
         reflexivity. }
    reflexivity. }
  split; [exact Hloop |].
  intros args s0 t0 -> -> Hsetup.
  rewrite (main_of_loop _ _ _ _ _ _ _ _ _ _ _ Hsetup Hloop).
  cbn [exitStatus errorLog]. rewrite app_nil_r. reflexivity.
Qed.

(** C10. Every error that [isDailyExhaustedError] accepts is an auth error
    for [isAuthError]; on a fetch error that [isAuthError] accepts, the pass
    stops the loop without error when [isDailyExhaustedError] accepts it,
    and re-authenticates otherwise: the first test decides. *)
Theorem exhausted_is_auth_and_checked_first :
  (forall e, isDailyExhaustedError e = true -> isAuthError e = true)
  /\ forall gas ctx fl solver st s e t s',
       puzzleNewWithRetry gas (client st) s = Some (Err e, t, s') ->
       isAuthError e = true ->
       loopBody gas ctx fl solver st s
       = if isDailyExhaustedError e then
           Some (Return None, fetchingLog st :: t ++ [stoppingLog], s')
         else
           match reauthenticate ctx (configPath fl) st s' with
           | None => None
           | Some (c, t2, s2) => Some (c, fetchingLog st :: t ++ t2, s2)
           end.
Proof.
  split; [exact isDailyExhaustedError_isAuthError |].
  intros gas ctx fl solver st s e t s' Hfetch Hauth.
  rewrite (loopBody_fetch_error _ _ _ _ _ _ _ _ _ Hfetch), Hauth.
  reflexivity.
Qed.

Lemma quota_exhausted_stops_loop_witness :
  solveLoop 1 1 Background (someFlags true 1) someSolver (someState 0 1)
    [RPuzzleNew (httpStatus 403 "今日次数已用完，请明天再来")]
  = Some (None,
          [fetchingLog (someState 0 1); ECall (CPuzzleNew someClient);
           stoppingLog],
          []).
Proof.
  destruct (quota_exhausted_stops_loop 0 1 Background (someFlags true 1)
              someSolver (someState 0 1)
              (ErrApi {| StatusCode := 403;
                         Message := "今日次数已用完，请明天再来";
                         Body := [] |})
              {| StatusCode := 403;
                 Message := "今日次数已用完，请明天再来";
                 Body := [] |}
              [RPuzzleNew (httpStatus 403 "今日次数已用完，请明天再来")]
              [ECall (CPuzzleNew someClient)] [])
    as [H _].
  - reflexivity.
  - reflexivity.
  - left. vm_compute. reflexivity.
  - reflexivity.
  - reflexivity.
  - exact H.
Defined.

Lemma exhausted_is_auth_and_checked_first_witness :
  isAuthError
    (ErrApi {| StatusCode := 403; Message := "已完成"; Body := [] |}) = true.
Proof.
  apply (proj1 exhausted_is_auth_and_checked_first).
  vm_compute. reflexivity.
Defined.

(** ** Re-authentication *)

Lemma reauthenticate_run ctx path st s cfg' t1 s1 c' t2 s2 :
  ensureLoginInteractive ctx (cfg st) path s = Some (Ok cfg', t1, s1) ->
  newAPIClient cfg' s1 = Some (Ok c', t2, s2) ->
  reauthenticate ctx path st s
  = Some (Continue {| cfg := cfg'; client := c';
                      solvedCount := solvedCount st; target := target st |},
          reauthLog :: t1 ++ t2, s2).
Proof.
  intros Hlogin Hclient. unfold reauthenticate.
  unfold bind at 1. unfold logf at 1, emit at 1.
  run_with Hlogin. run_with Hclient.
  cbn. rewrite app_nil_r. reflexivity.
Qed.

Lemma solveLoop_first_request fuel gas ctx fl solver st s r t s' :
  solvedCount st < target st ->
  solveLoop fuel gas ctx fl solver st s = Some (r, t, s') ->
  exists t', t = fetchingLog st :: ECall (CPuzzleNew (client st)) :: t'.
Proof.
  intros Hlt H. apply Z.ltb_lt in Hlt.
  destruct fuel as [| fuel]; cbn [solveLoop] in H; rewrite Hlt in H;
    [discriminate |].
  apply bind_inv in H as (c & t1 & s1 & t2 & Hbody & _ & ->).
  unfold loopBody in Hbody.
  apply bind_inv in Hbody as ([] & l1 & s2 & l2 & Hlog & Hrest & ->).
  inversion Hlog; subst.
  apply bind_inv in Hrest as (p & l3 & s3 & l4 & Hfetch & _ & ->).
  unfold puzzleNewWithRetry in Hfetch.
  destruct gas as [| gas]; [discriminate |].
  cbn [puzzleNewRetryLoop] in Hfetch.
  apply bind_inv in Hfetch as (p' & l5 & s5 & l6 & Hcall & _ & ->).
  apply ask_inv in Hcall as (_ & _ & _ & ->).
  eexists. cbn. reflexivity.
Qed.

(** C4, as the code has it. When the fetch of a pass fails with an auth
    error that is not the exhausted-quota error, or its submission fails
    with an auth error, the pass runs [ensureLoginInteractive] once,
    rebuilds the client from the configuration it returns, and ends with
    [continue]: the solved count and the target are unchanged. The next
    pass then starts over with a puzzle fetch made with the new client
    (after a failed submission the puzzle is fetched and solved anew). *)
Theorem auth_error_reauthenticates gas ctx fl solver st :
  (forall s e t s1 cfg' t1 s2 c' t2 s3,
     puzzleNewWithRetry gas (client st) s = Some (Err e, t, s1) ->
     isAuthError e = true -> isDailyExhaustedError e = false ->
     ensureLoginInteractive ctx (cfg st) (configPath fl) s1
     = Some (Ok cfg', t1, s2) ->
     newAPIClient cfg' s2 = Some (Ok c', t2, s3) ->
     loopBody gas ctx fl solver st s
     = Some (Continue {| cfg := cfg'; client := c';
                         solvedCount := solvedCount st;
                         target := target st |},
             fetchingLog st :: t ++ reauthLog :: t1 ++ t2, s3))
  /\ (forall pNew answer s tp s1 cfg2 e2 tc s2 e t s3 cfg' t1 s4 c' t2 s5,
        ensurePow gas ctx (client st) s = Some (None, tp, s1) ->
        persistCookieIfChanged (configPath fl) (cfg st) (client st) s1
        = Some ((cfg2, e2), tc, s2) ->
        submitWithRetry gas (client st) (ID (Puzzle pNew)) answer s2
        = Some (Err e, t, s3) ->
        isAuthError e = true ->
        ensureLoginInteractive ctx cfg2 (configPath fl) s3
        = Some (Ok cfg', t1, s4) ->
        newAPIClient cfg' s4 = Some (Ok c', t2, s5) ->
        submitPhase gas ctx fl st pNew answer s
        = Some (Continue {| cfg := cfg'; client := c';
                            solvedCount := solvedCount st;
                            target := target st |},
                tp ++ tc ++ submittingLog pNew :: t ++ reauthLog :: t1 ++ t2,
                s5))
  /\ (forall fuel st' s r t s',
        solvedCount st' < target st' ->
        solveLoop fuel gas ctx fl solver st' s = Some (r, t, s') ->
        exists t',
          t = fetchingLog st' :: ECall (CPuzzleNew (client st')) :: t').
Proof.
  split; [| split].
  - intros s e t s1 cfg' t1 s2 c' t2 s3 Hfetch Hauth Hex Hlogin Hclient.
    rewrite (loopBody_fetch_error _ _ _ _ _ _ _ _ _ Hfetch), Hex, Hauth.
    rewrite (reauthenticate_run _ _ _ _ _ _ _ _ _ _ Hlogin Hclient).
    reflexivity.
  - intros pNew answer s tp s1 cfg2 e2 tc s2 e t s3 cfg' t1 s4 c' t2 s5
      Hpow Hpersist Hsubmit Hauth Hlogin Hclient.
    unfold submitPhase. run_with Hpow. run_with Hpersist.
    unfold bind at 1. unfold logf at 1, emit at 1.
    cbn [client cfg solvedCount target].
    run_with Hsubmit. rewrite Hauth.
    rewrite (reauthenticate_run ctx (configPath fl)
               {| cfg := cfg2; client := client st;
                  solvedCount := solvedCount st; target := target st |}
               _ _ _ _ _ _ _ Hlogin Hclient).
    cbn [solvedCount target]. reflexivity.
  - intros fuel st' s r t s'. apply solveLoop_first_request.
Qed.

Lemma auth_error_reauthenticates_witness :
  option_map (fun '(c, _, s) => (c, s))
    (loopBody 1 Background (someFlags false 1) someSolver (someState 0 1)
       [RPuzzleNew (httpStatus 401 "session expired");
        RUrlParse (Ok "https://example.org"%string);
        RAuthMe (httpOK someUser);
        RUrlParse (Ok "https://example.org"%string)])
  = Some (Continue (someState 0 1), []).
Proof.
  destruct (auth_error_reauthenticates 1 Background (someFlags false 1)
              someSolver (someState 0 1)) as [H _].
  rewrite (H [RPuzzleNew (httpStatus 401 "session expired");
              RUrlParse (Ok "https://example.org"%string);
              RAuthMe (httpOK someUser);
              RUrlParse (Ok "https://example.org"%string)]
             (ErrApi {| StatusCode := 401; Message := "session expired";
                        Body := [] |})
             [ECall (CPuzzleNew someClient)]
             [RUrlParse (Ok "https://example.org"%string);
              RAuthMe (httpOK someUser);
              RUrlParse (Ok "https://example.org"%string)]
             (someConfig "sid=1")
             [ECall (CUrlParse "https://example.org");
              ECall (CAuthMe someClient)]
             [RUrlParse (Ok "https://example.org"%string)]
             someClient
             [ECall (CUrlParse "https://example.org")]
             []);
    reflexivity.
Defined.

(** C4 as stated fails in two ways. A fetch error of status 403 whose
    message carries a quota marker is an auth error for [isAuthError], and
    the loop stops without re-authenticating. And after an auth error of the
    submission and the re-authentication the pass is over: the next pass
    fetches a puzzle; here that fetch reports an exhausted quota and the run
    ends, the submission having been made once and never retried. *)
Lemma auth_error_not_always_retried :
  (isAuthError
     (ErrApi {| StatusCode := 403; Message := "已完成"; Body := [] |}) = true
   /\ solveLoop 1 1 Background (someFlags false 1) someSolver (someState 0 1)
        [RPuzzleNew (httpStatus 403 "已完成")]
      = Some (None,
              [fetchingLog (someState 0 1); ECall (CPuzzleNew someClient);
               stoppingLog],
              []))
  /\ option_map (fun '(r, t, s) => (r, callsOf t, s))
       (solveLoop 2 1 Background (someFlags false 1) someSolver
          (someState 0 1)
          (passUntilSubmit 2
           ++ [RPuzzleSubmit (httpStatus 401 "session expired");
               RUrlParse (Ok "https://example.org"%string);
               RAuthMe (httpOK someUser);
               RUrlParse (Ok "https://example.org"%string);
               RPuzzleNew (httpOK (someTicket 0));
               RExportCookieHeader "sid=1"]))
     = Some (None,
             [CPuzzleNew someClient; CExportCookieHeader someClient;
              CSolve someSolver somePuzzle;
              CPowStatus someClient; CTimeNow;
              CExportCookieHeader someClient;
              CPuzzleSubmit someClient "p1" [[4; 3]; [2; 1]];
              CUrlParse "https://example.org"; CAuthMe someClient;
              CUrlParse "https://example.org";
              CPuzzleNew someClient; CExportCookieHeader someClient],
             []).
Proof.
  split; [split |]; vm_compute; reflexivity.
Qed.

(** ** The outcome of a submission *)

(** C8, as the code has it. In auto mode, when a submission reports
    [success] and [correct], the solved count is incremented. If the
    reported [dailyRemaining] is positive the pass draws a pause of 60 to
    300 seconds, sleeps it and sets the target to the new solved count plus
    one. Otherwise it neither sleeps nor changes the target, and the loop
    ends, reporting the exhausted daily limit and returning no error, when
    the new solved count has reached the target. *)
Theorem correct_submission_in_auto_mode fl st sub :
  autoLoop fl = true -> Success sub = true -> Correct sub = true ->
  minInt64 <= solvedCount st -> solvedCount st + 2 <= maxInt64 ->
  let solved := solvedCount st + 1 in
  (0 < sub_DailyRemaining sub ->
   forall v rest,
     0 <= v <= 240 ->
     exists t,
       handleOutcome fl st sub (RRandIntn v :: rest)
       = Some (Continue {| cfg := cfg st; client := client st;
                           solvedCount := solved; target := solved + 1 |},
               t, rest)
       /\ callsOf t = [CRandIntn 241]
       /\ sleepsOf t = [(60 + v) * Second]
       /\ 60 * Second <= (60 + v) * Second <= 300 * Second)
  /\ (sub_DailyRemaining sub <= 0 ->
      forall s,
        exists t,
          handleOutcome fl st sub s
          = Some (Continue {| cfg := cfg st; client := client st;
                              solvedCount := solved; target := target st |},
                  t, s)
          /\ callsOf t = [] /\ sleepsOf t = []
          /\ (target st <= solved ->
              forall fuel gas ctx solver,
                solveLoop fuel gas ctx fl solver
                  {| cfg := cfg st; client := client st;
                     solvedCount := solved; target := target st |} s
                = Some (None, [autoCompleteLog solved], s))).
Proof.
  intros Hauto Hsucc Hcorr Hlo Hhi solved.
  assert (Hs : wrap64 (solvedCount st + 1) = solved)
    by (apply wrap64_id; unfold minInt64, maxInt64 in *; lia).
  split.
  - intros Hrem v rest Hv.
    unfold handleOutcome. rewrite Hsucc, Hcorr, Hauto, Hs. cbn [negb andb].
    apply Z.ltb_lt in Hrem. rewrite Hrem.
    assert (Hm : wrap64 (1 * 60 + v) = 60 + v)
      by (apply wrap64_id; unfold minInt64, maxInt64; lia).
    assert (Hd : wrap64 ((60 + v) * Second) = (60 + v) * Second)
      by (apply wrap64_id; unfold minInt64, maxInt64, Second; lia).
    assert (Ht : wrap64 (solved + 1) = solved + 1)
      by (apply wrap64_id; unfold solved, minInt64, maxInt64 in *; lia).
    assert (Hr : (0 <=? v) && (v <? 4 * 60 + 1) = true).
    { apply andb_true_iff. split; [apply Z.leb_le | apply Z.ltb_lt]; lia. }
    unfold bind, logf, emit, Sleep, randIntn, ask, ret.
    rewrite Hr, Hm, Hd, Ht. eexists. split; [reflexivity |].
    cbn [callsOf sleepsOf flat_map app]. repeat split; unfold Second; lia.
  - intros Hrem s.
    unfold handleOutcome. rewrite Hsucc, Hcorr, Hauto, Hs. cbn [negb andb].
    replace (0 <? sub_DailyRemaining sub) with false
      by (symmetry; apply Z.ltb_ge; exact Hrem).
    unfold bind, logf, emit, ret. eexists. split; [reflexivity |].
    split; [reflexivity |]. split; [reflexivity |].
    intros Hdone fuel gas ctx solver.
    rewrite solveLoop_done by exact Hdone.
    cbn [solvedCount]. rewrite Hauto. reflexivity.
Qed.

Lemma correct_submission_in_auto_mode_witness :
  exists t,
    handleOutcome (someFlags true 1) (someState 0 1) (someOutcome true true 2)
      [RRandIntn 37]
    = Some (Continue (someState 1 2), t, [])
    /\ callsOf t = [CRandIntn 241]
    /\ sleepsOf t = [97 * Second]
    /\ 60 * Second <= 97 * Second <= 300 * Second.
Proof.
  destruct (correct_submission_in_auto_mode (someFlags true 1) (someState 0 1)
              (someOutcome true true 2))
    as [H _]; try reflexivity; try (vm_compute; discriminate).
  apply (H eq_refl 37 []). lia.
Defined.

(** C8 as stated fails in two ways. With a target of 2, a correct
    submission that reports [dailyRemaining = 0] does not end the loop: the
    next pass fetches a puzzle. And a submission that reports
    [correct = true] with [success = false] is an error; nothing is
    counted. *)
Lemma loop_goes_on_after_last_correct_answer :
  option_map (fun '(r, t, s) => (r, callsOf t, sleepsOf t, s))
    (solveLoop 2 1 Background (someFlags true 2) someSolver (someState 0 2)
       (passUntilSubmit 1
        ++ [RPuzzleSubmit (httpOK (someOutcome true true 0));
            RExportCookieHeader "sid=1";
            RPuzzleNew (httpStatus 403 "已完成")]))
  = Some (None,
          [CPuzzleNew someClient; CExportCookieHeader someClient;
           CSolve someSolver somePuzzle;
           CPowStatus someClient; CTimeNow; CExportCookieHeader someClient;
           CPuzzleSubmit someClient "p1" [[4; 3]; [2; 1]];
           CExportCookieHeader someClient;
           CPuzzleNew someClient],
          [], [])
  /\ handleOutcome (someFlags true 1) (someState 0 1)
       (someOutcome false true 2) []
     = Some (Return (Some (ErrNew "submit failed: ok")), [], []).
Proof. split; vm_compute; reflexivity. Qed.

(** ** Propagation of fatal errors *)

Lemma noFatal_app c1 c2 :
  noFatal (c1 ++ c2) = noFatal c1 && noFatal c2.
Proof. unfold noFatal. rewrite existsb_app, negb_orb. reflexivity. Qed.

Lemma sof_ret {A} (bad : A -> Prop) a : stopsOnFatal bad (ret a).
Proof.
  intros s a' t s' H. inversion H; subst. exists []. split; [| left]; reflexivity.
Qed.

Lemma sof_emit (bad : unit -> Prop) e : stopsOnFatal bad (emit e).
Proof.
  intros s a' t s' H. inversion H; subst. exists []. split; [| left]; reflexivity.
Qed.

Lemma sof_stuck {A} (bad : A -> Prop) : stopsOnFatal bad stuck.
Proof. intros s a t s' H. discriminate. Qed.

Lemma sof_liftOption {A} (bad : A -> Prop) o : stopsOnFatal bad (liftOption o).
Proof.
  intros s a t s' H. unfold liftOption in H. destruct o; [| discriminate].
  inversion H; subst. exists []. split; [| left]; reflexivity.
Qed.

Lemma sof_ask {A} (bad : A -> Prop) c (decode : Reply -> option A) :
  (forall r a, decode r = Some a -> fatalReply r = false \/ bad a) ->
  stopsOnFatal bad (ask c decode).
Proof.
  intros Hd s a t s' H. apply ask_inv in H as (r & -> & Hr & _).
  exists [r]. split; [reflexivity |].
  destruct (Hd r a Hr) as [Hf | Hb]; [left | right; exact Hb].
  unfold noFatal. cbn. rewrite Hf. reflexivity.
Qed.

Lemma sof_bind {A B} (bad1 : A -> Prop) (bad2 : B -> Prop)
    (m : M A) (k : A -> M B) :
  stopsOnFatal bad1 m ->
  (forall a, stopsOnFatal bad2 (k a)) ->
  (forall a, bad1 a -> always bad2 (k a)) ->
  stopsOnFatal bad2 (bind m k).
Proof.
  intros Hm Hk Hbad s b t s' H.
  apply bind_inv in H as (a & t1 & s1 & t2 & H1 & H2 & ->).
  destruct (Hm _ _ _ _ H1) as (c1 & -> & Q1).
  destruct (Hk a _ _ _ _ H2) as (c2 & -> & Q2).
  exists (c1 ++ c2). split; [rewrite app_assoc; reflexivity |].
  destruct Q1 as [N1 | B1].
  - destruct Q2 as [N2 | B2]; [left | right; exact B2].
    rewrite noFatal_app, N1, N2. reflexivity.
  - right. exact (Hbad a B1 _ _ _ _ H2).
Qed.

Lemma sof_bind_plain {A B} (bad : B -> Prop) (m : M A) (k : A -> M B) :
  stopsOnFatal (fun _ => False) m ->
  (forall a, stopsOnFatal bad (k a)) ->
  stopsOnFatal bad (bind m k).
Proof.
  intros Hm Hk. apply (sof_bind (fun _ => False)); [exact Hm | exact Hk |].
  intros a [].
Qed.

Lemma sof_plain {A} (bad : A -> Prop) (m : M A) :
  stopsOnFatal (fun _ => False) m -> stopsOnFatal bad m.
Proof.
  intros Hm s a t s' H. destruct (Hm _ _ _ _ H) as (c & -> & [N | []]).
  exists c. split; [reflexivity | left; exact N].
Qed.

Lemma always_ret {A} (bad : A -> Prop) a : bad a -> always bad (ret a).
Proof. intros Hb s a' t s' H. inversion H; subst. exact Hb. Qed.

Lemma always_bind {A B} (bad : B -> Prop) (m : M A) (k : A -> M B) :
  (forall a, always bad (k a)) -> always bad (bind m k).
Proof.
  intros Hk s b t s' H.
  apply bind_inv in H as (a & t1 & s1 & t2 & _ & H2 & _).
  exact (Hk a _ _ _ _ H2).
Qed.

(** The requests that are not remote calls of the puzzle service, and the
    daily-quota query, never take a fatal reply. *)
Ltac plain_ask :=
  apply sof_ask; intros r a Hr; left; destruct r; try discriminate; reflexivity.

Lemma sof_logf bad l f args : stopsOnFatal bad (logf l f args).
Proof. apply sof_emit. Qed.

Lemma sof_Sleep bad d : stopsOnFatal bad (Sleep d).
Proof. apply sof_emit. Qed.

Lemma sof_timeNow : stopsOnFatal (fun _ => False) timeNow.
Proof. unfold timeNow. plain_ask. Qed.

Lemma sof_randIntn n : stopsOnFatal (fun _ => False) (randIntn n).
Proof. unfold randIntn. plain_ask. Qed.

Lemma sof_flagParse args : stopsOnFatal (fun _ => False) (flagParse args).
Proof. unfold flagParse. plain_ask. Qed.

Lemma sof_loadConfig path : stopsOnFatal (fun _ => False) (loadConfig path).
Proof. unfold loadConfig. plain_ask. Qed.

Lemma sof_saveConfig path c : stopsOnFatal (fun _ => False) (saveConfig path c).
Proof. unfold saveConfig. plain_ask. Qed.

Lemma sof_promptAuthMaterial : stopsOnFatal (fun _ => False) promptAuthMaterial.
Proof. unfold promptAuthMaterial. plain_ask. Qed.

Lemma sof_Getenv name : stopsOnFatal (fun _ => False) (Getenv name).
Proof. unfold Getenv. plain_ask. Qed.

Lemma sof_Solve sv p : stopsOnFatal (fun _ => False) (Solve sv p).
Proof. unfold Solve. plain_ask. Qed.

Lemma sof_exportCookieHeader c :
  stopsOnFatal (fun _ => False) (exportCookieHeader c).
Proof. unfold exportCookieHeader. plain_ask. Qed.

Lemma sof_dailyRemaining c : stopsOnFatal (fun _ => False) (dailyRemaining c).
Proof. unfold dailyRemaining. plain_ask. Qed.

(** A remote call takes a fatal reply exactly when its result is fatal. *)
Ltac remote_ask :=
  apply sof_ask; intros r a Hr; destruct r; try discriminate;
  inversion Hr; subst; cbn [fatalReply];
  match goal with
  | |- ?b = false \/ _ => destruct b eqn:E; [right | left; reflexivity]
  end.

Lemma sof_authMe c : stopsOnFatal (fun r => fatalResult r = true) (authMe c).
Proof. unfold authMe. remote_ask. reflexivity. Qed.

Lemma sof_powStatus c :
  stopsOnFatal (fun r => fatalResult r = true) (powStatus c).
Proof. unfold powStatus. remote_ask. reflexivity. Qed.

Lemma sof_powChallenge c :
  stopsOnFatal (fun r => fatalResult r = true) (powChallenge c).
Proof. unfold powChallenge. remote_ask. reflexivity. Qed.

Lemma sof_puzzleNew c :
  stopsOnFatal (fun r => fatalResult r = true) (puzzleNew c).
Proof. unfold puzzleNew. remote_ask. reflexivity. Qed.

Lemma sof_puzzleSubmit c id answer :
  stopsOnFatal (fun r => fatalResult r = true) (puzzleSubmit c id answer).
Proof. unfold puzzleSubmit. remote_ask. reflexivity. Qed.

Lemma sof_powVerify c ch nonce :
  stopsOnFatal isSomeErr (powVerify c ch nonce).
Proof.
  unfold powVerify. remote_ask.
  destruct (doJSON o); [discriminate | exact I].
Qed.

Create HintDb sof.
#[local] Hint Resolve sof_logf sof_Sleep sof_timeNow sof_randIntn sof_flagParse
  sof_loadConfig sof_saveConfig sof_promptAuthMaterial sof_Getenv sof_Solve
  sof_exportCookieHeader sof_dailyRemaining sof_authMe sof_powStatus
  sof_powChallenge sof_puzzleNew sof_puzzleSubmit sof_powVerify
  sof_liftOption sof_emit : sof.

(** Follows the structure of a computation: the first computation of each
    [bind] is handled by a lemma of the database, and what is left are the
    side conditions of [sof_bind]. *)
Ltac sof :=
  lazymatch goal with
  | |- stopsOnFatal _ (ret _) => apply sof_ret
  | |- stopsOnFatal _ stuck => apply sof_stuck
  | |- stopsOnFatal _ (bind (match ?x with _ => _ end) _) => destruct x; sof
  | |- stopsOnFatal _ (bind _ _) =>
      first [ apply sof_bind_plain;
              [solve [auto with sof | sof] | intros ?; sof]
            | eapply sof_bind; [solve [auto with sof] | intros ?; sof | ] ]
  | |- stopsOnFatal _ (match ?x with _ => _ end) => destruct x; sof
  | |- _ => first [solve [auto with sof]
                  | apply sof_plain; solve [auto with sof]
                  | idtac]
  end.

(** The side conditions: after a bad value the rest returns a bad value. *)
Ltac always_bad :=
  cbv beta iota;
  lazymatch goal with
  | |- always _ (ret _) =>
      apply always_ret; first [exact I | reflexivity | idtac]
  | |- always _ (bind _ _) => apply always_bind; intros ?; always_bad
  | |- always _ (match ?x with _ => _ end) => destruct x; always_bad
  | |- _ => idtac
  end.

Lemma fatalResult_Err {A} (r : result A) :
  fatalResult r = true ->
  exists err, r = Err err /\ rateLimited r = false /\ isAuthError err = false.
Proof.
  destruct r as [a | err]; cbn [fatalResult]; [discriminate |].
  intros H. apply andb_true_iff in H as [H1 H2].
  apply negb_true_iff in H1, H2. eauto.
Qed.

Lemma sof_newAPIClient c : stopsOnFatal (fun _ => False) (newAPIClient c).
Proof.
  unfold newAPIClient. destruct (String.eqb (BaseURL c) ""); [apply sof_ret |].
  apply sof_bind_plain; [plain_ask | intros u; sof].
Qed.
#[local] Hint Resolve sof_newAPIClient : sof.

Lemma sof_promptAndSave c path :
  stopsOnFatal (fun _ => False) (promptAndSave c path).
Proof. unfold promptAndSave. sof. Qed.
#[local] Hint Resolve sof_promptAndSave : sof.

Lemma sof_persistCookieIfChanged path c cl :
  stopsOnFatal (fun _ => False) (persistCookieIfChanged path c cl).
Proof. unfold persistCookieIfChanged. sof. Qed.
#[local] Hint Resolve sof_persistCookieIfChanged : sof.

Lemma sof_ensurePow gas ctx c : stopsOnFatal isSomeErr (ensurePow gas ctx c).
Proof.
  unfold ensurePow. sof.
  all: intros x Hb; try (apply fatalResult_Err in Hb as (err & -> & _));
    try (destruct x; [| contradiction]); always_bad.
Qed.
#[local] Hint Resolve sof_ensurePow : sof.

Lemma not_auth_not_exhausted e :
  isAuthError e = false -> isDailyExhaustedError e = false.
Proof.
  intros H. destruct (isDailyExhaustedError e) eqn:E; [| reflexivity].
  apply isDailyExhaustedError_isAuthError in E. congruence.
Qed.

(** Settles a side condition of [sof_bind]: the bad value is an error that
    is neither rate-limited nor an auth error, or an error of any kind. *)
Ltac sof_side :=
  let x := fresh "x" in
  let Hb := fresh "Hb" in
  intros x Hb;
  first
    [ let Hfatal := fresh "Hfatal" in
      pose proof Hb as Hfatal;
      let err := fresh "err" in
      apply fatalResult_Err in Hb as (err & -> & Hrl & Hau);
      cbn [rateLimited] in Hrl;
      cbv beta iota;
      rewrite ?Hrl, ?Hau, ?(not_auth_not_exhausted _ Hau);
      cbn [negb];
      always_bad; try exact Hfatal
    | destruct x; cbn in Hb; try contradiction;
      repeat match goal with
             | e : option error |- _ =>
                 destruct e; cbn in Hb; try contradiction
             end;
      always_bad ].

Lemma sof_puzzleNewRetryLoop c : forall fuel b,
  stopsOnFatal (fun r => fatalResult r = true) (puzzleNewRetryLoop fuel c b).
Proof.
  induction fuel as [| fuel IH]; intros b; cbn [puzzleNewRetryLoop];
    [apply sof_stuck |].
  sof. sof_side.
Qed.

Lemma sof_puzzleNewWithRetry fuel c :
  stopsOnFatal (fun r => fatalResult r = true) (puzzleNewWithRetry fuel c).
Proof. apply sof_puzzleNewRetryLoop. Qed.

Lemma sof_submitRetryLoop c id answer : forall fuel b,
  stopsOnFatal (fun r => fatalResult r = true)
               (submitRetryLoop fuel c id answer b).
Proof.
  induction fuel as [| fuel IH]; intros b; cbn [submitRetryLoop];
    [apply sof_stuck |].
  sof. sof_side.
Qed.

Lemma sof_submitWithRetry fuel c id answer :
  stopsOnFatal (fun r => fatalResult r = true)
               (submitWithRetry fuel c id answer).
Proof. apply sof_submitRetryLoop. Qed.
#[local] Hint Resolve sof_puzzleNewWithRetry sof_submitWithRetry : sof.

Lemma sof_loginValidate ctx c path :
  stopsOnFatal isErr (loginValidate ctx c path).
Proof. unfold loginValidate. sof; sof_side. Qed.
#[local] Hint Resolve sof_loginValidate : sof.

Lemma sof_ensureLoginInteractive ctx c path :
  stopsOnFatal isErr (ensureLoginInteractive ctx c path).
Proof.
  unfold ensureLoginInteractive. cbv zeta.
  destruct (String.eqb _ ""); sof.
Qed.
#[local] Hint Resolve sof_ensureLoginInteractive : sof.

Lemma sof_reauthenticate ctx path st :
  stopsOnFatal isReturnErr (reauthenticate ctx path st).
Proof. unfold reauthenticate. sof; sof_side. Qed.

Lemma sof_cooldown st : stopsOnFatal (fun _ => False) (cooldown st).
Proof. unfold cooldown. sof. Qed.
#[local] Hint Resolve sof_reauthenticate sof_cooldown : sof.

Lemma sof_handleOutcome fl st sub :
  stopsOnFatal isReturnErr (handleOutcome fl st sub).
Proof.
  unfold handleOutcome. sof.
Qed.
#[local] Hint Resolve sof_handleOutcome : sof.

Lemma sof_submitPhase gas ctx fl st pNew answer :
  stopsOnFatal isReturnErr (submitPhase gas ctx fl st pNew answer).
Proof. unfold submitPhase. sof; sof_side. Qed.
#[local] Hint Resolve sof_submitPhase : sof.

Lemma sof_loopBody gas ctx fl solver st :
  stopsOnFatal isReturnErr (loopBody gas ctx fl solver st).
Proof. unfold loopBody. sof; sof_side. Qed.
#[local] Hint Resolve sof_loopBody : sof.

Lemma sof_solveLoop gas ctx fl solver : forall fuel st,
  stopsOnFatal isSomeErr (solveLoop fuel gas ctx fl solver st).
Proof.
  induction fuel as [| fuel IH]; intros st; cbn [solveLoop]; sof; sof_side.
Qed.
#[local] Hint Resolve sof_solveLoop : sof.

Lemma sof_newAISolver c : stopsOnFatal (fun _ => False) (newAISolver c).
Proof.
  unfold newAISolver. destruct (negb _); [apply sof_ret |]. cbv zeta.
  destruct (String.eqb (strings.TrimSpace (ai_APIKey (AI c))) ""); sof.
Qed.
#[local] Hint Resolve sof_newAISolver : sof.

Lemma sof_setupFromQuota gas ctx fl c cl :
  stopsOnFatal isExitErr (setupFromQuota gas ctx fl c cl).
Proof. unfold setupFromQuota. sof; sof_side. Qed.
#[local] Hint Resolve sof_setupFromQuota : sof.

Lemma sof_runSolveSetup gas ctx args :
  stopsOnFatal isExitErr (runSolveSetup gas ctx args).
Proof. unfold runSolveSetup. sof; sof_side. Qed.
#[local] Hint Resolve sof_runSolveSetup : sof.

Lemma sof_runSolve fuel ctx args :
  stopsOnFatal isSomeErr (runSolve fuel ctx args).
Proof. unfold runSolve. sof; sof_side. Qed.
#[local] Hint Resolve sof_runSolve : sof.

Lemma sof_run fuel ctx args : stopsOnFatal isSomeErr (run fuel ctx args).
Proof. unfold run. sof. Qed.
#[local] Hint Resolve sof_run : sof.








(** ** The models on concrete inputs *)

Example sha256_constants :
  length Sha256.K = 64%nat
  /\ firstn 2 Sha256.K = [0x428a2f98; 0x71374491]
  /\ nth 63 Sha256.K 0 = 0xc67178f2
  /\ fst Sha256.init = (0x6a09e667, 0xbb67ae85, 0x3c6ef372, 0xa54ff53a,
                        0x510e527f, 0x9b05688c, 0x1f83d9ab).
Proof. repeat split. Qed.

Example sha256_abc :
  Sha256.Sum256 (bytes_of_string "abc") =
  [0xba; 0x78; 0x16; 0xbf; 0x8f; 0x01; 0xcf; 0xea;
   0x41; 0x41; 0x40; 0xde; 0x5d; 0xae; 0x22; 0x23;
   0xb0; 0x03; 0x61; 0xa3; 0x96; 0x17; 0x7a; 0x9c;
   0xb4; 0x10; 0xff; 0x61; 0xf2; 0x00; 0x15; 0xad].
Proof. vm_compute. reflexivity. Qed.

Example sha256_empty_head :
  firstn 4 (Sha256.Sum256 []) = [0xe3; 0xb0; 0xc4; 0x42].
Proof. vm_compute. reflexivity. Qed.

Example sha256_two_blocks_head :
  firstn 4 (Sha256.Sum256 (repeat 97 70)) = [0x6b; 0xd5; 0xe5; 0x03].
Proof. vm_compute. reflexivity. Qed.

Example Itoa_examples :
  Itoa 0 = "0"%string /\ Itoa 17350 = "17350"%string /\ Itoa (-5) = "-5"%string.
Proof. repeat split; reflexivity. Qed.

(** A refresh with a real search: the challenge ["ergo"] at difficulty 2 is
    answered with nonce 32. *)
Example ensurePow_refreshes :
  ensurePow 40 Background someClient
    [RPowStatus (httpOK {| HasValidPow := false; PowExpiresAt := 0;
                           HasOngoingChallenge := false |});
     RTimeNow someNow;
     RPowChallenge (httpOK {| Challenge := "ergo"; Difficulty := 2;
                              ExpiresAt := 1767229200000 |});
     RPowVerify (httpOK tt)]
  = Some (None,
          [ECall (CPowStatus someClient); ECall CTimeNow;
           ELog INF "PoW needs refresh, solving..." [];
           ECall (CPowChallenge someClient);
           ELog INF "PoW found nonce=%s (elapsed %s)" [AStr "32"; AElapsed];
           ECall (CPowVerify someClient "ergo" "32");
           ELog INF "PoW verified" []],
          []).
Proof. vm_compute. reflexivity. Qed.

(** One puzzle, no auto mode: the quota is 2, the PoW is valid, the answer
    is correct; the loop ends with one puzzle solved and [main] exits with
    status 0. *)
Example single_solve_run :
  option_map (fun '(code, t, s) => (code, callsOf t, sleepsOf t, last t (EUsage false), s))
    (main 3 solveArgs
       (repliesUntilQuota (someFlags false 1)
        ++ [RDailyRemaining
              (httpOK {| Remaining := 2; Completed := 3; Limit := 5 |});
            RPowStatus (httpOK validPow); RTimeNow someNow;
            RExportCookieHeader "sid=1"]
        ++ passUntilSubmit 2
        ++ [RPuzzleSubmit (httpOK (someOutcome true true 1));
            RExportCookieHeader "sid=1"]))
  = Some (0,
          callsOf (eventsUntilQuota (someFlags false 1))
          ++ [CDailyRemaining someClient;
              CPowStatus someClient; CTimeNow; CExportCookieHeader someClient;
              CPuzzleNew someClient; CExportCookieHeader someClient;
              CSolve someSolver somePuzzle;
              CPowStatus someClient; CTimeNow; CExportCookieHeader someClient;
              CPuzzleSubmit someClient "p1" [[4; 3]; [2; 1]];
              CExportCookieHeader someClient],
          [],
          ELog INF "done: solved=%d/%d elapsed=%s" [AInt 1; AInt 1; AElapsed],
          []).
Proof. vm_compute. reflexivity. Qed.

(** * Further properties *)

(** ** The answer grid *)

Lemma maxWidth_fold g : forall m,
  fold_left (fun m row => if (m <? length row)%nat then length row else m) g m
  = Nat.max m (maxWidth g).
Proof.
  unfold maxWidth. induction g as [| row g IH]; intros m; cbn [fold_left].
  - rewrite Nat.max_0_r. reflexivity.
  - rewrite IH. rewrite (IH (if (0 <? length row)%nat then _ else _)).
    destruct (Nat.ltb_spec m (length row)), (Nat.ltb_spec 0 (length row)); lia.
Qed.

Lemma maxWidth_cons row g :
  maxWidth (row :: g) = Nat.max (length row) (maxWidth g).
Proof.
  unfold maxWidth at 1. cbn [fold_left]. rewrite maxWidth_fold.
  destruct (Nat.ltb_spec 0 (length row)); lia.
Qed.

Lemma maxWidth_bound g : Forall (fun row => (length row <= maxWidth g)%nat) g.
Proof.
  induction g as [| row g IH]; constructor.
  - rewrite maxWidth_cons. lia.
  - eapply Forall_impl; [| exact IH]. cbn beta. intros r Hr.
    rewrite maxWidth_cons. lia.
Qed.

Lemma maxWidth_zero g : maxWidth g = O <-> Forall (fun row => row = []) g.
Proof.
  induction g as [| row g IH].
  - split; [constructor | reflexivity].
  - rewrite maxWidth_cons. split.
    + intros H. constructor.
      * apply length_zero_iff_nil. lia.
      * apply IH. lia.
    + intros H. inversion H; subst. apply IH in H3. cbn. lia.
Qed.

Lemma maxWidth_rectangular w g :
  g <> [] -> rectangular w g -> maxWidth g = w.
Proof.
  intros Hne Hr. induction g as [| row g IH]; [congruence |].
  inversion Hr; subst. rewrite maxWidth_cons.
  destruct g as [| row' g]; [cbn; lia |].
  rewrite IH by (try discriminate; assumption). lia.
Qed.

Lemma padRow_length w row :
  (length row <= w)%nat -> length (padRow w row) = w.
Proof.
  intros H. unfold padRow. destruct (Nat.ltb_spec (length row) w).
  - rewrite length_app, repeat_length. lia.
  - lia.
Qed.

Lemma padRow_app w row :
  padRow w row = row ++ repeat 0 (w - length row).
Proof.
  unfold padRow. destruct (Nat.ltb_spec (length row) w); [reflexivity |].
  replace (w - length row)%nat with O by lia. cbn. rewrite app_nil_r.
  reflexivity.
Qed.

(** X1. [normalizeGrid] fails exactly on a grid without rows ("empty grid")
    and on a grid whose rows are all empty ("empty rows"). Otherwise it
    returns as many rows as it was given, each of them the given row followed
    by zeros up to the width of the widest given row. *)
Theorem normalizeGrid_pads g :
  (normalizeGrid g = Err (ErrNew "empty grid") <-> g = [])
  /\ (normalizeGrid g = Err (ErrNew "empty rows") <->
      g <> [] /\ Forall (fun row => row = []) g)
  /\ (forall g',
        normalizeGrid g = Ok g' ->
        length g' = length g
        /\ (0 < maxWidth g)%nat
        /\ rectangular (maxWidth g) g'
        /\ Forall2 (fun row row' =>
                      row' = row ++ repeat 0 (maxWidth g - length row)) g g')
  /\ (g <> [] -> ~ Forall (fun row => row = []) g ->
      exists g', normalizeGrid g = Ok g').
Proof.
  destruct g as [| row g].
  - cbn [normalizeGrid]. split; [split; reflexivity |]. split.
    + split; [discriminate | intros [H _]; congruence].
    + split; [discriminate | congruence].
  - unfold normalizeGrid. cbv zeta.
    destruct (Nat.eqb_spec (maxWidth (row :: g)) 0) as [Hz | Hnz].
    + split; [split; discriminate |]. split.
      * split; [intros _ | reflexivity].
        split; [discriminate | apply maxWidth_zero; exact Hz].
      * split; [discriminate |]. intros _ Hn. exfalso. apply Hn.
        apply maxWidth_zero. exact Hz.
    + split; [split; discriminate |]. split.
      * split; [discriminate |]. intros [_ H]. apply maxWidth_zero in H.
        congruence.
      * split; [| eauto]. intros g' H.
        assert (Hg : g' = map (padRow (maxWidth (row :: g))) (row :: g))
          by (injection H; auto).
        clear H. subst g'.
        split; [apply length_map |]. split; [lia |]. split.
        -- unfold rectangular. apply Forall_map.
           eapply Forall_impl; [| apply maxWidth_bound].
           cbn beta. intros r Hr. apply padRow_length. exact Hr.
        -- clear Hnz. generalize (maxWidth (row :: g)). intros w.
           generalize (row :: g). intros l.
           induction l as [| r l IH]; cbn [map]; constructor;
             [apply padRow_app | exact IH].
Qed.

(** X2. [validateAnswerSize] returns no error exactly when a hinted
    dimension is not positive or the grid has the hinted number of rows, each
    of the hinted width; a grid that it accepts against positive hints is
    returned unchanged by [normalizeGrid]. *)
Theorem validateAnswerSize_accepts p g :
  let h := AnswerSize_Height (Hints p) in
  let w := AnswerSize_Width (Hints p) in
  (validateAnswerSize p g = None <->
   h <= 0 \/ w <= 0
   \/ (Z.of_nat (length g) = h /\ rectangular (Z.to_nat w) g))
  /\ (0 < h -> 0 < w -> validateAnswerSize p g = None ->
      normalizeGrid g = Ok g).
Proof.
  intros h w.
  assert (Hrows : forall rows i, 0 < w ->
            (checkRowWidths i w rows = None <-> rectangular (Z.to_nat w) rows)).
  { induction rows as [| row rows IH]; intros i Hw; cbn [checkRowWidths].
    - split; [constructor | reflexivity].
    - destruct (Z.eqb_spec (Z.of_nat (length row)) w) as [E | E]; cbn [negb].
      + rewrite IH by exact Hw. split.
        * intros H. constructor; [lia | exact H].
        * intros H. inversion H; assumption.
      + split; [discriminate |]. intros H. inversion H; subst. lia. }
  assert (Hiff : validateAnswerSize p g = None <->
            h <= 0 \/ w <= 0
            \/ (Z.of_nat (length g) = h /\ rectangular (Z.to_nat w) g)).
  { unfold validateAnswerSize. fold h. fold w.
    destruct (Z.leb_spec h 0) as [Hh | Hh]; cbn [orb];
      [split; [left; exact Hh | reflexivity] |].
    destruct (Z.leb_spec w 0) as [Hw | Hw];
      [split; [right; left; exact Hw | reflexivity] |].
    destruct (Z.eqb_spec (Z.of_nat (length g)) h) as [E | E]; cbn [negb].
    - rewrite Hrows by exact Hw. split; [intros H; right; right; auto |].
      intros [H | [H | [_ H]]]; [lia | lia | exact H].
    - split; [discriminate |]. intros [H | [H | [H _]]]; lia. }
  split; [exact Hiff |].
  intros Hh Hw Hv. apply Hiff in Hv as [H | [H | [Hlen Hrect]]]; try lia.
  assert (Hne : g <> []) by (intros ->; cbn in Hlen; lia).
  pose proof (maxWidth_rectangular _ _ Hne Hrect) as Hmax.
  unfold normalizeGrid. destruct g as [| row g]; [congruence |].
  cbv zeta. rewrite Hmax.
  replace (Nat.eqb (Z.to_nat w) 0) with false
    by (symmetry; apply Nat.eqb_neq; lia).
  rewrite <- (map_id (row :: g)) at 2. apply f_equal. apply map_ext_Forall.
  eapply Forall_impl; [| exact Hrect]. cbn beta. intros r Hr.
  unfold padRow. rewrite Hr, Nat.ltb_irrefl. reflexivity.
Qed.

(** ** The bracket matcher *)

Lemma countByte_cons b x l :
  countByte b (x :: l)
  = if b =? x then S (countByte b l) else countByte b l.
Proof. unfold countByte. cbn [filter]. destruct (b =? x); reflexivity. Qed.

(** What the scan returns, in terms of the bytes it is given: the offset of
    the first closing bracket at which the brackets balance. *)
Lemma bracketScan_spec bs : forall i depth,
  (bracketScan bs i depth = -1
   /\ forall k, (k < length bs)%nat -> nth k bs (-1) = closeBracket ->
                ~ balancedAt depth (firstn (S k) bs))
  \/ exists k,
       (k < length bs)%nat
       /\ bracketScan bs i depth = i + Z.of_nat k
       /\ nth k bs (-1) = closeBracket
       /\ balancedAt depth (firstn (S k) bs)
       /\ forall k', (k' < k)%nat -> nth k' bs (-1) = closeBracket ->
                     ~ balancedAt depth (firstn (S k') bs).
Proof.
  induction bs as [| b rest IH]; intros i depth.
  - left. split; [reflexivity |]. intros k Hk. cbn in Hk. lia.
  - assert (Hstep : forall d,
      (forall l, balancedAt d l <-> balancedAt depth (b :: l)) ->
      (nth 0 (b :: rest) (-1) = closeBracket ->
       ~ balancedAt depth (firstn 1 (b :: rest))) ->
      (bracketScan rest (i + 1) d = -1
       /\ forall k, (k < length (b :: rest))%nat ->
                    nth k (b :: rest) (-1) = closeBracket ->
                    ~ balancedAt depth (firstn (S k) (b :: rest)))
      \/ exists k,
           (k < length (b :: rest))%nat
           /\ bracketScan rest (i + 1) d = i + Z.of_nat k
           /\ nth k (b :: rest) (-1) = closeBracket
           /\ balancedAt depth (firstn (S k) (b :: rest))
           /\ forall k', (k' < k)%nat ->
                         nth k' (b :: rest) (-1) = closeBracket ->
                         ~ balancedAt depth (firstn (S k') (b :: rest))).
    { intros d Hd H0. destruct (IH (i + 1) d) as [[Hr Hnone] | Hfound].
      - left. split; [exact Hr |]. intros [| k] Hk Hn; [auto |].
        cbn [firstn]. rewrite <- Hd. apply Hnone; [cbn in Hk; lia | exact Hn].
      - right. destruct Hfound as (k & Hk & Hr & Hn & Hb & Hfirst).
        exists (S k). split; [cbn; lia |]. split; [rewrite Hr; lia |].
        split; [exact Hn |]. split; [cbn [firstn]; apply Hd; exact Hb |].
        intros [| k'] Hk' Hn'; [auto |].
        cbn [firstn]. rewrite <- Hd. apply Hfirst; [lia | exact Hn']. }
    cbn [bracketScan].
    destruct (Z.eqb_spec b openBracket) as [Ho | Ho].
    + apply Hstep.
      * intros l. unfold balancedAt. rewrite !countByte_cons. subst b.
        cbn. lia.
      * cbn. subst b. discriminate.
    + destruct (Z.eqb_spec b closeBracket) as [Hc | Hc].
      * destruct (Z.eqb_spec (depth - 1) 0) as [Hd | Hd].
        -- right. exists O. split; [cbn; lia |]. split; [lia |].
           split; [exact Hc |]. split; [| intros k' Hk'; lia].
           unfold balancedAt. cbn [firstn]. rewrite !countByte_cons. subst b.
           cbn. lia.
        -- apply Hstep.
           ++ intros l. unfold balancedAt. rewrite !countByte_cons. subst b.
              cbn. lia.
           ++ intros _. unfold balancedAt. cbn [firstn].
              rewrite !countByte_cons. subst b. cbn. lia.
      * apply Hstep.
        -- intros l. unfold balancedAt. rewrite !countByte_cons.
           replace (openBracket =? b) with false
             by (symmetry; apply Z.eqb_neq; congruence).
           replace (closeBracket =? b) with false
             by (symmetry; apply Z.eqb_neq; congruence).
           reflexivity.
        -- cbn. congruence.
Qed.

Lemma nth_skipn_Z (l : list Z) n k d :
  nth k (skipn n l) d = nth (n + k) l d.
Proof.
  revert l. induction n as [| n IH]; intros l; [reflexivity |].
  destruct l as [| x l]; [destruct k; reflexivity |]. cbn. apply IH.
Qed.

(** X3. For [start >= 0], [findMatchingBracket] returns the index of the
    first closing bracket at or after [start] at which the brackets read
    since [start] balance, and -1 when there is none; a negative [start]
    indexes out of range. *)
Theorem findMatchingBracket_first_balance text start :
  let len := Z.of_nat (length (bytes_of_string text)) in
  (start < 0 -> findMatchingBracket text start = None)
  /\ (0 <= start ->
      exists e,
        findMatchingBracket text start = Some e
        /\ (e = -1 \/ (start <= e < len
                       /\ byteAt text e = closeBracket
                       /\ balancedAt 0 (bytesBetween text start e)))
        /\ forall j,
             start <= j < len -> (e = -1 \/ j < e) ->
             byteAt text j = closeBracket ->
             ~ balancedAt 0 (bytesBetween text start j)).
Proof.
  intros len. unfold findMatchingBracket. split.
  - intros H. apply Z.ltb_lt in H. rewrite H. reflexivity.
  - intros Hs. replace (start <? 0) with false
      by (symmetry; apply Z.ltb_ge; exact Hs).
    eexists. split; [reflexivity |].
    set (bs := skipn (Z.to_nat start) (bytes_of_string text)).
    assert (Hlen : Z.of_nat (length bs) = Z.max 0 (len - start)).
    { unfold bs, len. rewrite length_skipn. lia. }
    assert (Hat : forall k, nth k bs (-1) = byteAt text (start + Z.of_nat k)).
    { intros k. unfold bs, byteAt. rewrite nth_skipn_Z. f_equal. lia. }
    assert (Hbt : forall k, firstn (S k) bs
                            = bytesBetween text start (start + Z.of_nat k)).
    { intros k. unfold bytesBetween. fold bs. f_equal. lia. }
    destruct (bracketScan_spec bs start 0) as [[Hr Hnone] | Hfound].
    + rewrite Hr. split; [left; reflexivity |].
      intros j Hj _ Hc.
      replace j with (start + Z.of_nat (Z.to_nat (j - start))) in * by lia.
      rewrite <- Hbt. apply Hnone; [lia |]. rewrite Hat. exact Hc.
    + destruct Hfound as (k & Hk & Hr & Hn & Hb & Hfirst). rewrite Hr.
      split.
      * right. split; [lia |]. split; [rewrite <- Hat; exact Hn |].
        rewrite <- Hbt. exact Hb.
      * intros j Hj [He | Hlt] Hc; [lia |].
        replace j with (start + Z.of_nat (Z.to_nat (j - start))) in * by lia.
        rewrite <- Hbt. apply Hfirst; [lia |]. rewrite Hat. exact Hc.
Qed.

(** ** Parsing an answer *)

Lemma normalizeGrid_Ok_shape g g' :
  normalizeGrid g = Ok g' ->
  g' <> [] /\ exists w, (0 < w)%nat /\ rectangular w g'.
Proof.
  unfold normalizeGrid. destruct g as [| row g]; [discriminate |]. cbv zeta.
  destruct (Nat.eqb_spec (maxWidth (row :: g)) 0) as [Hz | Hnz];
    [discriminate |].
  intros H.
  assert (Hg : g' = map (padRow (maxWidth (row :: g))) (row :: g))
    by (injection H; auto).
  subst g'. split; [discriminate |].
  exists (maxWidth (row :: g)). split; [lia |].
  unfold rectangular. apply Forall_map.
  eapply Forall_impl; [| apply maxWidth_bound].
  cbn beta. intros r Hr. apply padRow_length. exact Hr.
Qed.

Lemma indexFrom_range sub : forall s i,
  indexFrom s sub i = -1
  \/ i <= indexFrom s sub i <= i + Z.of_nat (length s).
Proof.
  induction s as [| b s IH]; intros i; cbn [indexFrom].
  - destruct (strings.stripPrefix sub []); [right; cbn; lia | left; reflexivity].
  - destruct (strings.stripPrefix sub (b :: s)); [right; cbn [length]; lia |].
    destruct (IH (i + 1)) as [H | H]; [left; exact H | right].
    cbn [length]. lia.
Qed.

Lemma indexFrom_absent a sub : forall s i,
  ~ In a s -> indexFrom s (a :: sub) i = -1.
Proof.
  induction s as [| b s IH]; intros i Hn; cbn [indexFrom strings.stripPrefix];
    [reflexivity |].
  destruct (Z.eqb_spec a b) as [-> | _]; [exfalso; apply Hn; left; reflexivity |].
  apply IH. intros H. apply Hn. right. exact H.
Qed.

Lemma findMatchingBracket_within text start :
  0 <= start ->
  exists e,
    findMatchingBracket text start = Some e
    /\ (e = -1
        \/ start <= e < Z.of_nat (length (bytes_of_string text))).
Proof.
  intros Hs. unfold findMatchingBracket.
  replace (start <? 0) with false by (symmetry; apply Z.ltb_ge; exact Hs).
  eexists. split; [reflexivity |].
  destruct (bracketScan_spec
              (skipn (Z.to_nat start) (bytes_of_string text)) start 0)
    as [[Hr _] | (k & Hk & Hr & _)]; [left; exact Hr | right].
  rewrite Hr. rewrite length_skipn in Hk. lia.
Qed.

(** The index at which [parseAnswerGrid] enters the bracket matcher. *)
Lemma parseAnswerGrid_start text :
  let start := if Index text "[[" =? -1 then Index text "[" else Index text "[["
  in
  (start = -1 \/ 0 <= start <= Z.of_nat (length (bytes_of_string text)))
  /\ (~ In openBracket (bytes_of_string text) -> start = -1).
Proof.
  cbv zeta. split.
  - unfold Index.
    destruct (Z.eqb_spec (indexFrom (bytes_of_string text)
                                    (bytes_of_string "[[") 0) (-1)) as [E | E].
    + destruct (indexFrom_range (bytes_of_string "[") (bytes_of_string text) 0)
        as [H' | H']; [left; exact H' | right; lia].
    + destruct (indexFrom_range (bytes_of_string "[[") (bytes_of_string text) 0)
        as [H | H]; [congruence | right; lia].
  - intros Hn. unfold Index.
    change (bytes_of_string "[[") with [openBracket; openBracket].
    change (bytes_of_string "[") with [openBracket].
    rewrite !indexFrom_absent by exact Hn. reflexivity.
Qed.

Lemma parseAnswerGrid_defined unmarshal text :
  exists r, parseAnswerGrid unmarshal text = Some r.
Proof.
  unfold parseAnswerGrid.
  destruct (unmarshal text) as [g0 | e0]; [eexists; reflexivity |].
  cbv zeta. destruct (parseAnswerGrid_start text) as [Hstart _].
  cbv zeta in Hstart.
  set (start := if Index text "[[" =? -1 then Index text "[" else Index text "[[")
    in *.
  destruct (Z.eqb_spec start (-1)) as [Hm | Hm]; [eexists; reflexivity |].
  destruct Hstart as [H | Hrange]; [congruence |].
  destruct (findMatchingBracket_within text start (proj1 Hrange))
    as (e & He & Hshape).
  rewrite He.
  destruct ((e =? -1) || (e <=? start)) eqn:Hcheck; [eexists; reflexivity |].
  apply orb_false_iff in Hcheck as [Hc1 Hc2].
  apply Z.eqb_neq in Hc1. apply Z.leb_gt in Hc2.
  destruct Hshape as [H | Hb]; [congruence |].
  unfold slice.
  replace ((0 <=? start) && (start <=? e + 1)
           && (e + 1 <=? Z.of_nat (length (bytes_of_string text))))
    with true
    by (symmetry; rewrite !andb_true_iff, !Z.leb_le; lia).
  destruct (unmarshal _) as [g1 | e1]; eexists; reflexivity.
Qed.

Lemma parseAnswerGrid_Ok_shape unmarshal text g :
  parseAnswerGrid unmarshal text = Some (Ok g) ->
  g <> [] /\ exists w, (0 < w)%nat /\ rectangular w g.
Proof.
  unfold parseAnswerGrid. cbv zeta. intros H.
  repeat match type of H with
         | match ?x with _ => _ end = _ => destruct x; try discriminate H
         | (if ?b then _ else _) = _ => destruct b; try discriminate H
         end.
  all: inversion H as [Hn]; eapply normalizeGrid_Ok_shape; exact Hn.
Qed.

(** X4. [parseAnswerGrid] never panics: the bracket matcher is entered at an
    index of the text and the slice it delimits lies within the text. Every
    grid it returns has at least one row and rows of one positive width. A
    text without an opening bracket that does not decode as a whole is "not
    valid json array". *)
Theorem parseAnswerGrid_shape unmarshal text :
  exists r,
    parseAnswerGrid unmarshal text = Some r
    /\ (forall g, r = Ok g ->
                  g <> [] /\ exists w, (0 < w)%nat /\ rectangular w g)
    /\ (forall e, unmarshal text = Err e ->
                  ~ In openBracket (bytes_of_string text) ->
                  r = Err (ErrNew "not valid json array")).
Proof.
  destruct (parseAnswerGrid_defined unmarshal text) as [r Hr].
  exists r. split; [exact Hr |]. split.
  - intros g ->. eapply parseAnswerGrid_Ok_shape. exact Hr.
  - intros e He Hn. unfold parseAnswerGrid in Hr. rewrite He in Hr.
    cbv zeta in Hr.
    rewrite (proj2 (parseAnswerGrid_start text) Hn) in Hr.
    change (-1 =? -1) with true in Hr. cbv iota in Hr. congruence.
Qed.

(** ** More on the nonce search *)

Lemma passes_weaken challenge d d' n :
  0 <= d' <= d -> passes challenge d n = true -> passes challenge d' n = true.
Proof.
  unfold passes. rewrite !leadingZeroNibbles_spec.
  intros Hd H k Hk. apply H. lia.
Qed.

Lemma computePowNonce_reaches ctx challenge d m fuel :
  0 <= d <= 64 -> (forall i, Done ctx i = false) ->
  0 <= m <= maxInt64 -> passes challenge d m = true ->
  (forall k, 0 <= k < m -> passes challenge d k = false) ->
  (Z.to_nat m < fuel)%nat ->
  computePowNonce fuel ctx challenge d = Some (Ok (Itoa m)).
Proof.
  intros Hd Hctx Hm Hp Hleast Hfuel. unfold computePowNonce.
  replace (d <? 0) with false by (symmetry; apply Z.ltb_ge; lia).
  replace (64 <? d) with false by (symmetry; apply Z.ltb_ge; lia).
  cbn [orb]. apply powSearch_reaches; try assumption; lia.
Qed.

(** X5. A nonce that passes at a difficulty passes at every lower one, so an
    easier difficulty is answered, within the same number of attempts, with
    the same or a smaller nonce. *)
Theorem easier_difficulty_smaller_nonce ctx challenge d d' n :
  0 <= d' <= d -> d <= 64 ->
  (forall i, Done ctx i = false) ->
  0 <= n <= maxInt64 ->
  passes challenge d n = true ->
  passes challenge d' n = true
  /\ exists m m',
       0 <= m' <= m /\ m <= n
       /\ forall fuel, (Z.to_nat m < fuel)%nat ->
            computePowNonce fuel ctx challenge d = Some (Ok (Itoa m))
            /\ computePowNonce fuel ctx challenge d' = Some (Ok (Itoa m')).
Proof.
  intros Hd' Hd Hctx Hn Hp.
  pose proof (passes_weaken _ _ _ _ Hd' Hp) as Hp'.
  split; [exact Hp' |].
  destruct (least_passing challenge d n) as (m & Hm & Hpm & Hleast);
    [lia | exact Hp |].
  destruct (least_passing challenge d' m) as (m' & Hm' & Hpm' & Hleast');
    [lia | eapply passes_weaken; eassumption |].
  exists m, m'. split; [lia |]. split; [lia |].
  intros fuel Hfuel. split.
  - apply computePowNonce_reaches; try assumption; lia.
  - apply computePowNonce_reaches; try assumption; lia.
Qed.

Lemma easier_difficulty_smaller_nonce_witness :
  passes "ergo" 1 32 = true
  /\ exists m m',
       0 <= m' <= m /\ m <= 32
       /\ forall fuel, (Z.to_nat m < fuel)%nat ->
            computePowNonce fuel Background "ergo" 2 = Some (Ok (Itoa m))
            /\ computePowNonce fuel Background "ergo" 1 = Some (Ok (Itoa m')).
Proof.
  apply (easier_difficulty_smaller_nonce Background "ergo" 2 1 32).
  - lia.
  - lia.
  - intros i. reflexivity.
  - unfold maxInt64. lia.
  - vm_compute. reflexivity.
Defined.




(** ** Inverting runs *)

Lemma ret_inv {A} (a : A) s b t s' :
  ret a s = Some (b, t, s') -> b = a /\ t = [] /\ s' = s.
Proof. unfold ret. intros H. inversion H. auto. Qed.

Lemma emit_inv e s b t s' :
  emit e s = Some (b, t, s') -> t = [e] /\ s' = s.
Proof. unfold emit. intros H. inversion H. auto. Qed.

Lemma liftOption_inv {A} (o : option A) s a t s' :
  liftOption o s = Some (a, t, s') -> o = Some a /\ t = [] /\ s' = s.
Proof.
  unfold liftOption. destruct o; [| discriminate]. intros H. inversion H. auto.
Qed.

(** Takes a run apart along its [bind]s; the requests of the run and the
    branches that it took become hypotheses. *)
Ltac inv_run :=
  repeat
    match goal with
    | H : bind _ _ _ = Some _ |- _ =>
        apply bind_inv in H as (? & ? & ? & ? & ? & H & ->)
    | H : ret _ _ = Some _ |- _ => apply ret_inv in H as (? & ? & ?); subst
    | H : emit _ _ = Some _ |- _ => apply emit_inv in H as (? & ?); subst
    | H : logf _ _ _ _ = Some _ |- _ => apply emit_inv in H as (? & ?); subst
    | H : Sleep _ _ = Some _ |- _ => apply emit_inv in H as (? & ?); subst
    | H : stuck _ = Some _ |- _ => discriminate H
    | H : liftOption _ _ = Some _ |- _ =>
        apply liftOption_inv in H as (? & ? & ?); subst
    | H : ask _ _ _ = Some _ |- _ =>
        apply ask_inv in H as (? & ? & ? & ?); subst
    | H : (match ?x with _ => _ end) _ = Some _ |- _ => destruct x eqn:?
    | H : (let '(_, _) := ?x in _) _ = Some _ |- _ => destruct x eqn:?
    | H : (_, _) = (_, _) |- _ => inversion H; subst; clear H
    end.

Lemma powSearch_sound ctx challenge d nonce :
  0 <= d <= 64 ->
  forall fuel i,
    powSearch fuel ctx challenge (Z.quot d 2) (Z.rem d 2 =? 1) i
    = Some (Ok nonce) ->
    exists n, nonce = Itoa n /\ passes challenge d n = true.
Proof.
  intros Hd. induction fuel as [| fuel IH]; intros i H; [discriminate |].
  cbn [powSearch] in H.
  destruct ((Z.rem i checkEvery =? 0) && Done ctx i); [discriminate |].
  rewrite hasLeadingZeroNibbles_spec in H
    by (try apply Sum256_isByte; exact Hd).
  fold (passes challenge d i) in H.
  destruct (passes challenge d i) eqn:Hp.
  - inversion H. exists i. auto.
  - apply IH in H. exact H.
Qed.

Lemma computePowNonce_sound fuel ctx challenge d nonce :
  computePowNonce fuel ctx challenge d = Some (Ok nonce) ->
  0 <= d <= 64 /\ exists n, nonce = Itoa n /\ passes challenge d n = true.
Proof.
  unfold computePowNonce.
  destruct (Z.ltb_spec d 0) as [Hlo | Hlo]; cbn [orb]; [discriminate |].
  destruct (Z.ltb_spec 64 d) as [Hhi | Hhi]; [discriminate |].
  intros H. split; [lia |]. eapply powSearch_sound; [| exact H]. lia.
Qed.

(** X7. Whatever [ensurePow] sends for verification is the challenge that
    the service issued in this run with a nonce that meets it: the
    difficulty is in [[0, 64]] and the digest of challenge and nonce has
    that many leading zero nibbles. A challenge whose difficulty is out of
    range ends [ensurePow] with the invalid-difficulty error before any
    verification is requested. *)
Theorem ensurePow_verifies_passing_nonce gas ctx c :
  (forall s r t s',
     ensurePow gas ctx c s = Some (r, t, s') ->
     forall c' ch nonce,
       In (ECall (CPowVerify c' ch nonce)) t ->
       c' = c
       /\ exists o chal n,
            In (RPowChallenge o) s /\ doJSON o = Ok chal
            /\ ch = Challenge chal
            /\ 0 <= Difficulty chal <= 64
            /\ nonce = Itoa n
            /\ passes ch (Difficulty chal) n = true)
  /\ (forall o st now oc chal s,
        doJSON o = Ok st -> powNeedsRefresh st now = true ->
        doJSON oc = Ok chal ->
        Difficulty chal < 0 \/ 64 < Difficulty chal ->
        ensurePow gas ctx c
          (RPowStatus o :: RTimeNow now :: RPowChallenge oc :: s)
        = Some (Some (ErrNew ("invalid difficulty: "
                              ++ Itoa (Difficulty chal))),
                [ECall (CPowStatus c); ECall CTimeNow;
                 ELog INF "PoW needs refresh, solving..." [];
                 ECall (CPowChallenge c)],
                s)).
Proof.
  split.
  - intros s r t s' H c' ch nonce Hin.
    unfold ensurePow, powStatus, timeNow, powChallenge, powVerify in H.
    inv_run; cbn in Hin;
      repeat (destruct Hin as [Hin | Hin]; try discriminate Hin);
      try contradiction.
    all: inversion Hin; subst; clear Hin.
    all: split; [reflexivity |].
    all: match goal with
         | Hn : computePowNonce _ _ _ _ = Some (Ok _) |- _ =>
             apply computePowNonce_sound in Hn as (Hd & n & -> & Hp)
         end.
    all: repeat match goal with
                | r : Reply |- _ => destruct r; try discriminate
                end.
    all: repeat match goal with
                | Hs : Some _ = Some _ |- _ =>
                    inversion Hs; subst; clear Hs
                end.
    all: eexists _, _, n; split; [right; right; left; reflexivity |].
    all: split; [eassumption |]; auto.
  - intros o st now oc chal s Ho Hneed Hoc Hbad.
    unfold ensurePow, bind, powStatus, timeNow, powChallenge, liftOption,
      ask, logf, emit, ret.
    rewrite Ho. cbn -[computePowNonce]. rewrite Hneed.
    cbn -[computePowNonce]. rewrite Hoc. cbn -[computePowNonce].
    unfold computePowNonce.
    replace ((Difficulty chal <? 0) || (64 <? Difficulty chal)) with true.
    + reflexivity.
    + symmetry. apply orb_true_iff.
      destruct Hbad; [left | right]; apply Z.ltb_lt; assumption.
Qed.

Lemma ensurePow_verifies_passing_nonce_witness :
  (exists o chal n,
     In (RPowChallenge o)
        [RPowStatus (httpOK {| HasValidPow := false; PowExpiresAt := 0;
                               HasOngoingChallenge := false |});
         RTimeNow someNow;
         RPowChallenge (httpOK {| Challenge := "ergo"; Difficulty := 2;
                                  ExpiresAt := 1767229200000 |});
         RPowVerify (httpOK tt)]
     /\ doJSON o = Ok chal
     /\ "ergo"%string = Challenge chal
     /\ 0 <= Difficulty chal <= 64
     /\ "32"%string = Itoa n
     /\ passes "ergo" (Difficulty chal) n = true)
  /\ ensurePow 40 Background someClient
       [RPowStatus (httpOK {| HasValidPow := false; PowExpiresAt := 0;
                              HasOngoingChallenge := false |});
        RTimeNow someNow;
        RPowChallenge (httpOK {| Challenge := "ergo"; Difficulty := 65;
                                 ExpiresAt := 1767229200000 |})]
     = Some (Some (ErrNew "invalid difficulty: 65"),
             [ECall (CPowStatus someClient); ECall CTimeNow;
              ELog INF "PoW needs refresh, solving..." [];
              ECall (CPowChallenge someClient)],
             []).
Proof.
  split.
  - eapply (proj1 (ensurePow_verifies_passing_nonce 40 Background someClient)).
    + exact ensurePow_refreshes.
    + do 5 right. left. reflexivity.
  - apply (proj2 (ensurePow_verifies_passing_nonce 40 Background someClient)
             (httpOK {| HasValidPow := false; PowExpiresAt := 0;
                        HasOngoingChallenge := false |})
             {| HasValidPow := false; PowExpiresAt := 0;
                HasOngoingChallenge := false |}
             someNow
             (httpOK {| Challenge := "ergo"; Difficulty := 65;
                        ExpiresAt := 1767229200000 |})
             {| Challenge := "ergo"; Difficulty := 65;
                ExpiresAt := 1767229200000 |} []).
    + reflexivity.
    + reflexivity.
    + reflexivity.
    + right. cbn. lia.
Defined.

(** ** The answer grid on concrete inputs *)

Lemma normalizeGrid_pads_witness :
  length [[1; 2]; [3; 0]] = length [[1; 2]; [3]]
  /\ (0 < maxWidth [[1; 2]; [3]]%Z)%nat
  /\ rectangular (maxWidth [[1; 2]; [3]]) [[1; 2]; [3; 0]]
  /\ Forall2 (fun row row' =>
                row' = row ++ repeat 0 (maxWidth [[1; 2]; [3]] - length row))
             [[1; 2]; [3]] [[1; 2]; [3; 0]].
Proof.
  apply (proj1 (proj2 (proj2 (normalizeGrid_pads [[1; 2]; [3]])))).
  reflexivity.
Defined.

Lemma validateAnswerSize_accepts_witness :
  normalizeGrid [[4; 3]; [2; 1]] = Ok [[4; 3]; [2; 1]].
Proof.
  apply (proj2 (validateAnswerSize_accepts somePuzzle [[4; 3]; [2; 1]])).
  - cbn. lia.
  - cbn. lia.
  - reflexivity.
Defined.

Lemma findMatchingBracket_first_balance_witness :
  exists e,
    findMatchingBracket "a[[1],[2]]x" 1 = Some e
    /\ (e = -1 \/ (1 <= e < Z.of_nat (length (bytes_of_string "a[[1],[2]]x"))
                   /\ byteAt "a[[1],[2]]x" e = closeBracket
                   /\ balancedAt 0 (bytesBetween "a[[1],[2]]x" 1 e)))
    /\ forall j,
         1 <= j < Z.of_nat (length (bytes_of_string "a[[1],[2]]x")) ->
         (e = -1 \/ j < e) ->
         byteAt "a[[1],[2]]x" j = closeBracket ->
         ~ balancedAt 0 (bytesBetween "a[[1],[2]]x" 1 j).
Proof.
  apply (proj2 (findMatchingBracket_first_balance "a[[1],[2]]x" 1)). lia.
Defined.

Lemma parseAnswerGrid_shape_witness :
  exists r,
    parseAnswerGrid (fun _ => Err (ErrNew "invalid character")) "no grid"
    = Some r
    /\ r = Err (ErrNew "not valid json array").
Proof.
  destruct (parseAnswerGrid_shape
              (fun _ => Err (ErrNew "invalid character")) "no grid")
    as (r & Hr & _ & Habsent).
  exists r. split; [exact Hr |].
  apply (Habsent (ErrNew "invalid character")); [reflexivity |].
  unfold openBracket. cbn. intuition discriminate.
Defined.

(** ** The retry wrappers, read backwards *)

(** Names the reply behind each request of an inverted run. *)
Ltac inv_reply :=
  repeat match goal with
         | H : match ?r with _ => _ end = Some _ |- _ =>
             destruct r eqn:?; try discriminate H
         | H : (if ?b then _ else _) = Some _ |- _ =>
             destruct b eqn:?; try discriminate H
         | H : Some _ = Some _ |- _ => inversion H; subst; clear H
         | H : _ :: _ = _ :: _ |- _ => inversion H; subst; clear H
         end.

(** Rewrites with what the replies of an inverted run decode to. *)
Ltac use_replies :=
  repeat match goal with
         | H : doJSON ?o = _ |- context [doJSON ?o] => rewrite H
         end.

Lemma puzzleNewRetryLoop_inv c : forall fuel b s r t s',
  puzzleNewRetryLoop fuel c b s = Some (r, t, s') ->
  rateLimited r = false
  /\ exists os o,
       s = map RPuzzleNew os ++ RPuzzleNew o :: s'
       /\ Forall (fun o => rateLimited (doJSON o) = true) os
       /\ r = doJSON o
       /\ (length os < fuel)%nat
       /\ t = retryTrace (CPuzzleNew c) "rate limited (429), waiting %s..."
                         (length os) b ++ [ECall (CPuzzleNew c)].
Proof.
  induction fuel as [| fuel IH]; intros b s r t s' H; [discriminate |].
  cbn [puzzleNewRetryLoop] in H. unfold puzzleNew in H. inv_run.
  - inv_reply. use_replies. split; [reflexivity |].
    exists [], o. use_replies. cbn. repeat split; auto. lia.
  - inv_reply.
    match goal with
    | Hrec : puzzleNewRetryLoop _ _ _ _ = Some _ |- _ =>
        apply IH in Hrec as (Hr & os & o' & -> & Hos & -> & Hlen & ->)
    end.
    split; [exact Hr |]. exists (o :: os), o'. cbn [map app length retryTrace].
    repeat split; auto.
    + constructor; [| exact Hos]. use_replies. cbn [rateLimited].
      assumption.
    + lia.
  - inv_reply. use_replies. split.
    + cbn [rateLimited]. assumption.
    + exists [], o. use_replies. cbn. repeat split; auto. lia.
Qed.

Lemma submitRetryLoop_inv c id answer : forall fuel b s r t s',
  submitRetryLoop fuel c id answer b s = Some (r, t, s') ->
  rateLimited r = false
  /\ exists os o,
       s = map RPuzzleSubmit os ++ RPuzzleSubmit o :: s'
       /\ Forall (fun o => rateLimited (doJSON o) = true) os
       /\ r = doJSON o
       /\ (length os < fuel)%nat
       /\ t = retryTrace (CPuzzleSubmit c id answer)
                         "submit rate limited (429), waiting %s..."
                         (length os) b
              ++ [ECall (CPuzzleSubmit c id answer)].
Proof.
  induction fuel as [| fuel IH]; intros b s r t s' H; [discriminate |].
  cbn [submitRetryLoop] in H. unfold puzzleSubmit in H. inv_run.
  - inv_reply. use_replies. split; [reflexivity |].
    exists [], o. use_replies. cbn. repeat split; auto. lia.
  - inv_reply.
    match goal with
    | Hrec : submitRetryLoop _ _ _ _ _ _ = Some _ |- _ =>
        apply IH in Hrec as (Hr & os & o' & -> & Hos & -> & Hlen & ->)
    end.
    split; [exact Hr |]. exists (o :: os), o'. cbn [map app length retryTrace].
    repeat split; auto.
    + constructor; [| exact Hos]. use_replies. cbn [rateLimited].
      assumption.
    + lia.
  - inv_reply. use_replies. split.
    + cbn [rateLimited]. assumption.
    + exists [], o. use_replies. cbn. repeat split; auto. lia.
Qed.

(** X8. The retry wrappers return only what a reply that is not rate-limited
    produced, and that reply follows rate-limited replies only: the result is
    never a 429 error, the requests are all the same request, one more than
    there are sleeps, the sleeps follow the backoff schedule, and a run with
    [n] sleeps took more than [n] of the attempts that the bound on the loop
    allows. *)
Theorem retry_wrappers_return_no_429 fuel c id answer :
  (forall s r t s',
     puzzleNewWithRetry fuel c s = Some (r, t, s') ->
     rateLimited r = false
     /\ exists os o,
          s = map RPuzzleNew os ++ RPuzzleNew o :: s'
          /\ Forall (fun o => rateLimited (doJSON o) = true) os
          /\ r = doJSON o
          /\ (length os < fuel)%nat
          /\ callsOf t = repeat (CPuzzleNew c) (length os + 1)
          /\ sleepsOf t = map backoffAt (seq 0 (length os)))
  /\ (forall s r t s',
        submitWithRetry fuel c id answer s = Some (r, t, s') ->
        rateLimited r = false
        /\ exists os o,
             s = map RPuzzleSubmit os ++ RPuzzleSubmit o :: s'
             /\ Forall (fun o => rateLimited (doJSON o) = true) os
             /\ r = doJSON o
             /\ (length os < fuel)%nat
             /\ callsOf t = repeat (CPuzzleSubmit c id answer) (length os + 1)
             /\ sleepsOf t = map backoffAt (seq 0 (length os))).
Proof.
  split; intros s r t s' H.
  - apply puzzleNewRetryLoop_inv in H as (Hr & os & o & -> & Hos & -> & Hl & ->).
    split; [exact Hr |]. exists os, o.
    rewrite callsOf_retryTrace, sleepsOf_retryTrace.
    repeat split; auto.
    apply map_ext. intros k. apply backoff_closed_form.
  - apply submitRetryLoop_inv in H as (Hr & os & o & -> & Hos & -> & Hl & ->).
    split; [exact Hr |]. exists os, o.
    rewrite callsOf_retryTrace, sleepsOf_retryTrace.
    repeat split; auto.
    apply map_ext. intros k. apply backoff_closed_form.
Qed.

(** ** What a run never does *)

Lemma eo_ret {A} allowed (a : A) : emitsOnly allowed (ret a).
Proof. intros s a' t s' H. apply ret_inv in H as (_ & -> & _). reflexivity. Qed.

Lemma eo_stuck {A} allowed : emitsOnly allowed (@stuck A).
Proof. intros s a t s' H. discriminate. Qed.

Lemma eo_liftOption {A} allowed (o : option A) :
  emitsOnly allowed (liftOption o).
Proof.
  intros s a t s' H. apply liftOption_inv in H as (_ & -> & _). reflexivity.
Qed.

Lemma eo_emit allowed e : allowed e = true -> emitsOnly allowed (emit e).
Proof.
  intros He s a t s' H. apply emit_inv in H as (-> & _). cbn. rewrite He.
  reflexivity.
Qed.

Lemma eo_ask {A} allowed c (decode : Reply -> option A) :
  allowed (ECall c) = true -> emitsOnly allowed (ask c decode).
Proof.
  intros He s a t s' H. apply ask_inv in H as (_ & _ & _ & ->). cbn.
  rewrite He. reflexivity.
Qed.

Lemma eo_bind {A B} allowed (m : M A) (k : A -> M B) :
  emitsOnly allowed m -> (forall a, emitsOnly allowed (k a)) ->
  emitsOnly allowed (bind m k).
Proof.
  intros Hm Hk s b t s' H.
  apply bind_inv in H as (a & t1 & s1 & t2 & H1 & H2 & ->).
  rewrite forallb_app, (Hm _ _ _ _ H1), (Hk a _ _ _ _ H2). reflexivity.
Qed.

Lemma eo_weaken {A} (strict allowed : Event -> bool) (m : M A) :
  (forall e, strict e = true -> allowed e = true) ->
  emitsOnly strict m -> emitsOnly allowed m.
Proof.
  intros Hw Hm s a t s' H. apply Hm in H. rewrite forallb_forall in *.
  auto.
Qed.

Create HintDb eo.

(** Follows the structure of a computation down to its events. *)
Ltac eo :=
  cbv zeta beta;
  lazymatch goal with
  | |- emitsOnly _ (ret _) => apply eo_ret
  | |- emitsOnly _ stuck => apply eo_stuck
  | |- emitsOnly _ (liftOption _) => apply eo_liftOption
  | |- emitsOnly _ (emit _) => apply eo_emit; reflexivity
  | |- emitsOnly _ (logf _ _ _) => apply eo_emit; reflexivity
  | |- emitsOnly _ (Sleep _) => apply eo_emit; reflexivity
  | |- emitsOnly _ (ask _ _) => apply eo_ask; reflexivity
  | |- emitsOnly _ (bind _ _) => apply eo_bind; [eo | intros ?; eo]
  | |- emitsOnly _ (match ?x with _ => _ end) => destruct x; eo
  | |- _ => solve [auto with eo]
  end.

Ltac eo_requests :=
  unfold timeNow, randIntn, exportCookieHeader, authMe, dailyRemaining,
    powStatus, powChallenge, powVerify, puzzleNew, puzzleSubmit, flagParse,
    loadConfig, saveConfig, promptAuthMaterial, Getenv, Solve.

Lemma eo_puzzleNewRetryLoop c : forall fuel b,
  emitsOnly notSubmissionNorPow (puzzleNewRetryLoop fuel c b).
Proof.
  induction fuel as [| fuel IH]; intros b; cbn [puzzleNewRetryLoop];
    eo_requests; eo.
Qed.

Lemma eo_newAPIClient cfg : emitsOnly notSubmissionNorPow (newAPIClient cfg).
Proof. unfold newAPIClient. eo. Qed.

Lemma eo_persistCookieIfChanged path cfg c :
  emitsOnly notSubmissionNorPow (persistCookieIfChanged path cfg c).
Proof. unfold persistCookieIfChanged. eo_requests. eo. Qed.

Lemma eo_ensureLoginInteractive ctx cfg path :
  emitsOnly notSubmissionNorPow (ensureLoginInteractive ctx cfg path).
Proof.
  unfold ensureLoginInteractive, loginValidate, promptAndSave, newAPIClient.
  eo_requests. eo.
Qed.

Lemma eo_reauthenticate ctx path st :
  emitsOnly notSubmissionNorPow (reauthenticate ctx path st).
Proof.
  unfold reauthenticate.
  apply eo_bind; [eo |]. intros _.
  apply eo_bind; [apply eo_ensureLoginInteractive |]. intros r.
  destruct r; [| eo].
  apply eo_bind; [apply eo_newAPIClient |]. intros r. eo.
Qed.

Lemma eo_cooldown st : emitsOnly notSubmissionNorPow (cooldown st).
Proof. unfold cooldown. eo_requests. eo. Qed.

#[local] Hint Resolve eo_puzzleNewRetryLoop eo_newAPIClient
  eo_persistCookieIfChanged eo_ensureLoginInteractive eo_reauthenticate
  eo_cooldown : eo.

Lemma eo_loopBody_dryRun gas ctx fl solver st :
  dryRun fl = true ->
  emitsOnly notSubmissionNorPow (loopBody gas ctx fl solver st).
Proof.
  intros Hdry. unfold loopBody, puzzleNewWithRetry. rewrite Hdry.
  unfold Solve. eo.
Qed.

Lemma eo_solveLoop_dryRun gas ctx fl solver :
  dryRun fl = true ->
  forall fuel st,
    emitsOnly notSubmissionNorPow (solveLoop fuel gas ctx fl solver st).
Proof.
  intros Hdry. induction fuel as [| fuel IH]; intros st; cbn [solveLoop].
  - eo.
  - destruct (solvedCount st <? target st); [| eo].
    apply eo_bind; [apply eo_loopBody_dryRun; exact Hdry |].
    intros [st' | e]; [apply IH | eo].
Qed.

Lemma eo_ensurePow gas ctx c : emitsOnly notSubmission (ensurePow gas ctx c).
Proof. unfold ensurePow. eo_requests. eo. Qed.

Lemma notSubmissionNorPow_notSubmission e :
  notSubmissionNorPow e = true -> notSubmission e = true.
Proof. destruct e as [[] | | |]; cbn; congruence. Qed.

Lemma eo_newAISolver cfg : emitsOnly notSubmission (newAISolver cfg).
Proof. unfold newAISolver. eo_requests. eo. Qed.

Lemma eo_loose {A} (m : M A) :
  emitsOnly notSubmissionNorPow m -> emitsOnly notSubmission m.
Proof. apply eo_weaken. exact notSubmissionNorPow_notSubmission. Qed.

Lemma eo_runSolveSetup fuel ctx args :
  emitsOnly notSubmission (runSolveSetup fuel ctx args).
Proof.
  unfold runSolveSetup, setupFromQuota.
  repeat first
    [ apply eo_ensurePow
    | apply eo_newAISolver
    | apply eo_loose; solve [auto with eo]
    | apply eo_bind; [| intros ?]
    | progress eo_requests
    | match goal with
      | |- emitsOnly _ (match ?x with _ => _ end) => destruct x
      end
    | solve [eo] ].
Qed.

(** The loop is entered with the flags that the parser returned. *)
Lemma runSolveSetup_flags fuel ctx args fl s fl' solver st t s' :
  runSolveSetup fuel ctx args (RFlagParse (Ok fl) :: s)
  = Some (Enter fl' solver st, t, s') ->
  fl' = fl /\ solvedCount st = 0 /\ target st = count fl /\ 0 < count fl.
Proof.
  intros H. unfold runSolveSetup, setupFromQuota, flagParse in H.
  inv_run; inv_reply; try discriminate;
    repeat match goal with
           | Hx : Enter _ _ _ = Enter _ _ _ |- _ =>
               inversion Hx; subst; clear Hx
           end.
  all: cbn; repeat split; try reflexivity.
  all: match goal with
       | Hc : (count _ <=? 0) = false |- _ => apply Z.leb_gt in Hc; exact Hc
       end.
Qed.

(** X9. With [--dry-run] no answer is ever submitted, from the parsing of
    the flags to the end of the run, and the loop makes no request of the PoW
    protocol: the PoW is checked only once, before the loop. *)
Theorem dry_run_never_submits fuel ctx fl :
  dryRun fl = true ->
  (forall gas solver st s r t s',
     solveLoop fuel gas ctx fl solver st s = Some (r, t, s') ->
     forallb notSubmissionNorPow t = true)
  /\ (forall args s r t s',
        runSolve fuel ctx args (RFlagParse (Ok fl) :: s) = Some (r, t, s') ->
        forallb notSubmission t = true).
Proof.
  intros Hdry. split.
  - intros gas solver st s r t s' H.
    exact (eo_solveLoop_dryRun gas ctx fl solver Hdry fuel st _ _ _ _ H).
  - intros args s r t s' H. unfold runSolve in H.
    apply bind_inv in H as (e & t1 & s1 & t2 & H1 & H2 & ->).
    rewrite forallb_app. apply andb_true_iff. split.
    + exact (eo_runSolveSetup fuel ctx args _ _ _ _ H1).
    + destruct e as [err | fl0 solver st].
      * apply ret_inv in H2 as (_ & -> & _). reflexivity.
      * apply runSolveSetup_flags in H1 as (-> & _).
        apply eo_loose in H2; [exact H2 |].
        apply eo_solveLoop_dryRun. exact Hdry.
Qed.

(** A dry run for one puzzle: the quota is 2, the PoW is valid, the solver
    answers, and the run ends without a submission. *)
Lemma dry_run_never_submits_witness :
  match runSolve 3 Background ["--dry-run"%string]
          (RFlagParse (Ok dryFlags) :: tl (repliesUntilQuota dryFlags)
           ++ [RDailyRemaining (httpOK {| Remaining := 2; Completed := 3;
                                          Limit := 5 |});
               RPowStatus (httpOK validPow); RTimeNow someNow;
               RExportCookieHeader "sid=1";
               RPuzzleNew (httpOK (someTicket 2)); RExportCookieHeader "sid=1";
               RSolve (Ok [[4; 3]; [2; 1]])])
  with
  | Some (r, t, rest) =>
      r = None /\ rest = [] /\ forallb notSubmission t = true
  | None => False
  end.
Proof.
  destruct (runSolve _ _ _ _) as [[[r t] rest] |] eqn:E.
  - split; [| split].
    + vm_compute in E. congruence.
    + vm_compute in E. congruence.
    + exact (proj2 (dry_run_never_submits 3 Background dryFlags eq_refl)
               _ _ _ _ _ E).
  - vm_compute in E. discriminate E.
Defined.

(** ** The counters of the loop *)

Lemma endsWith_app e t1 t2 : endsWith e t2 -> endsWith e (t1 ++ t2).
Proof. intros [t0 ->]. exists (t1 ++ t0). apply app_assoc. Qed.

Lemma endsWith_last e : endsWith e [e].
Proof. exists []. reflexivity. Qed.

Ltac ends_with :=
  repeat first
    [ apply endsWith_last
    | rewrite app_nil_r
    | apply endsWith_app ].

Ltac inv_control :=
  repeat match goal with
         | H : Continue _ = Continue _ |- _ => inversion H; subst; clear H
         | H : Return _ = Return _ |- _ => inversion H; subst; clear H
         | H : Continue _ = Return _ |- _ => discriminate H
         | H : Return _ = Continue _ |- _ => discriminate H
         | H : Some _ = None |- _ => discriminate H
         | H : None = Some _ |- _ => discriminate H
         end.

Ltac unfold_pass H :=
  unfold loopBody, submitPhase, handleOutcome, cooldown, reauthenticate in H.

(** A pass that ends with [continue] has counted at most one puzzle, and
    without auto mode it has left the target alone. *)
Lemma loopBody_counters gas ctx fl solver st s st' t s' :
  loopBody gas ctx fl solver st s = Some (Continue st', t, s') ->
  (solvedCount st' = solvedCount st
   \/ solvedCount st' = wrap64 (solvedCount st + 1))
  /\ (autoLoop fl = false -> target st' = target st).
Proof.
  intros H. destruct (autoLoop fl) eqn:Hauto; unfold_pass H;
    rewrite ?Hauto in H; cbn [andb] in H; inv_run; inv_control; cbn;
    split; auto; intros; discriminate.
Qed.

(** A pass returns without an error only at a quota stop. *)
Lemma loopBody_quiet_return gas ctx fl solver st s t s' :
  loopBody gas ctx fl solver st s = Some (Return None, t, s') ->
  endsWith stoppingLog t.
Proof.
  intros H. unfold_pass H. inv_run; inv_control; ends_with.
Qed.

Lemma solveLoop_counted gas ctx fl solver :
  autoLoop fl = false ->
  forall fuel st s t s',
    minInt64 <= solvedCount st <= target st -> target st <= maxInt64 ->
    solveLoop fuel gas ctx fl solver st s = Some (None, t, s') ->
    endsWith stoppingLog t \/ endsWith (doneLog (target st) (target st)) t.
Proof.
  intros Hauto. induction fuel as [| fuel IH]; intros st s t s' Hst Hmax H;
    cbn [solveLoop] in H; rewrite Hauto in H;
    destruct (Z.ltb_spec (solvedCount st) (target st)) as [Hlt | Hge].
  - discriminate H.
  - inv_run. right. replace (solvedCount st) with (target st) by lia.
    apply endsWith_last.
  - apply bind_inv in H as (c & t1 & s1 & t2 & H1 & H2 & ->).
    destruct c as [st' | err].
    + apply loopBody_counters in H1 as (Hsolved & Htarget).
      specialize (Htarget Hauto).
      rewrite wrap64_id in Hsolved by lia.
      apply IH in H2; [| lia | lia]. rewrite Htarget in H2.
      destruct H2 as [H2 | H2]; [left | right]; apply endsWith_app; exact H2.
    + inv_run. left. rewrite app_nil_r.
      eapply loopBody_quiet_return. exact H1.
  - inv_run. right. replace (solvedCount st) with (target st) by lia.
    apply endsWith_last.
Qed.

(** The statements before the loop return without an error only at the
    quota stop. *)
Lemma runSolveSetup_quiet_exit fuel ctx args s t s' :
  runSolveSetup fuel ctx args s = Some (Exit None, t, s') ->
  endsWith stoppingLog t.
Proof.
  intros H. unfold runSolveSetup, setupFromQuota in H.
  inv_run; try discriminate;
    repeat match goal with
           | Hx : Exit _ = Exit _ |- _ => inversion Hx; subst; clear Hx
           | Hx : Enter _ _ _ = Exit _ |- _ => discriminate Hx
           end;
    ends_with.
Qed.

(** X10. Without auto mode the loop counts: a pass that goes on has counted
    no puzzle or one and has not touched the target, so a run that ends
    without an error ends either at a quota stop or with exactly [count]
    puzzles counted, and its last line says which. *)
Theorem counted_run_ends_at_count fuel ctx fl :
  autoLoop fl = false -> count fl <= maxInt64 ->
  (forall gas solver st s st' t s',
     loopBody gas ctx fl solver st s = Some (Continue st', t, s') ->
     (solvedCount st' = solvedCount st
      \/ solvedCount st' = wrap64 (solvedCount st + 1))
     /\ target st' = target st)
  /\ (forall args s t s',
        runSolve fuel ctx args (RFlagParse (Ok fl) :: s) = Some (None, t, s') ->
        endsWith stoppingLog t
        \/ endsWith (doneLog (count fl) (count fl)) t).
Proof.
  intros Hauto Hmax. split.
  - intros gas solver st s st' t s' H.
    apply loopBody_counters in H as (Hsolved & Htarget). auto.
  - intros args s t s' H. unfold runSolve in H.
    apply bind_inv in H as (e & t1 & s1 & t2 & H1 & H2 & ->).
    destruct e as [err | fl0 solver st].
    + apply ret_inv in H2 as (<- & -> & _). left. rewrite app_nil_r.
      eapply runSolveSetup_quiet_exit. exact H1.
    + apply runSolveSetup_flags in H1 as (-> & Hs & Ht & Hpos).
      apply (solveLoop_counted _ _ _ _ Hauto) in H2;
        [| unfold minInt64; rewrite Hs, Ht; lia | rewrite Ht; exact Hmax].
      rewrite Ht in H2.
      destruct H2 as [H2 | H2]; [left | right]; apply endsWith_app; exact H2.
Qed.

(** One puzzle without auto mode, fetched, solved and submitted: the last
    line of the run is the count. *)
Lemma counted_run_ends_at_count_witness :
  match runSolve 3 Background ["--config"%string; "config.json"%string]
          (repliesUntilQuota (someFlags false 1)
           ++ [RDailyRemaining
                 (httpOK {| Remaining := 2; Completed := 3; Limit := 5 |});
               RPowStatus (httpOK validPow); RTimeNow someNow;
               RExportCookieHeader "sid=1"]
           ++ passUntilSubmit 2
           ++ [RPuzzleSubmit (httpOK (someOutcome true true 1));
               RExportCookieHeader "sid=1"])
  with
  | Some (r, t, rest) =>
      r = None
      /\ (endsWith stoppingLog t \/ endsWith (doneLog 1 1) t)
  | None => False
  end.
Proof.
  destruct (runSolve _ _ _ _) as [[[r t] rest] |] eqn:E.
  - assert (r = None) as -> by (vm_compute in E; congruence).
    split; [reflexivity |].
    refine (proj2 (counted_run_ends_at_count 3 Background (someFlags false 1)
                     eq_refl _) _ _ _ _ E).
    unfold maxInt64. cbn. lia.
  - vm_compute in E. discriminate E.
Defined.

(** ** Misses in auto mode *)

Lemma durationRound_seconds k :
  0 <= k -> durationRound (k * Second) Second = k * Second.
Proof.
  intros Hk. unfold durationRound.
  change (Second <=? 0) with false. cbv iota.
  rewrite Z.rem_mul by (unfold Second; lia). cbn [Z.add].
  change (0 <? Second) with true. cbv iota. lia.
Qed.

Lemma cooldown_run st v rest :
  0 <= v < 30 -> minInt64 <= solvedCount st < maxInt64 ->
  cooldown st (RRandIntn v :: rest)
  = Some (Continue (afterCooldown st), cooldownEvents ((30 + v) * Second),
          rest).
Proof.
  intros Hv Hs. unfold cooldown, bind, randIntn, ask, logf, Sleep, emit, ret.
  assert (Hr : (0 <=? v) && (v <? 30) = true).
  { apply andb_true_iff. split; [apply Z.leb_le | apply Z.ltb_lt]; lia. }
  rewrite Hr.
  rewrite (wrap64_id (30 + v)) by (unfold minInt64, maxInt64; lia).
  rewrite (wrap64_id ((30 + v) * Second))
    by (unfold minInt64, maxInt64, Second; lia).
  rewrite (wrap64_id (solvedCount st + 1)) by lia.
  rewrite durationRound_seconds by lia.
  reflexivity.
Qed.

(** X11. An answer that the service accepts and reports as incorrect ends a
    run without auto mode with the error "submitted answer was incorrect". In
    auto mode the pass draws a pause of 30 to 59 seconds, sleeps it and goes
    on: nothing is counted, and the target becomes the solved count plus one,
    so that the loop makes another pass. *)
Theorem incorrect_answer_handling fl st sub :
  Success sub = true -> Correct sub = false ->
  let logs :=
    [ELog INF "submit response: %s" [AStr (sub_Message sub)];
     ELog WRN "incorrect: remainingAttempts=%d"
          [AInt (sub_RemainingAttempts sub)]] in
  (autoLoop fl = false ->
   forall s,
     handleOutcome fl st sub s
     = Some (Return (Some (ErrNew "submitted answer was incorrect")),
             logs, s))
  /\ (autoLoop fl = true ->
      minInt64 <= solvedCount st < maxInt64 ->
      forall v rest,
        0 <= v < 30 ->
        let d := (30 + v) * Second in
        handleOutcome fl st sub (RRandIntn v :: rest)
        = Some (Continue (afterCooldown st),
                logs
                ++ ELog WRN "auto mode: answer incorrect, skipping..." []
                   :: cooldownEvents d,
                rest)
        /\ 30 * Second <= d <= 59 * Second
        /\ solvedCount (afterCooldown st) < target (afterCooldown st)).
Proof.
  intros Hsucc Hcorr logs. split.
  - intros Hauto s. unfold handleOutcome.
    rewrite Hsucc, Hcorr, Hauto. reflexivity.
  - intros Hauto Hs v rest Hv d. split; [| split].
    + unfold handleOutcome. rewrite Hsucc, Hcorr, Hauto. cbn [negb].
      unfold bind at 1. unfold logf at 1, emit at 1.
      unfold bind at 1. unfold logf at 1, emit at 1.
      unfold bind at 1. unfold logf at 1, emit at 1.
      rewrite cooldown_run by assumption. reflexivity.
    + unfold d, Second. lia.
    + cbn. lia.
Qed.

Lemma incorrect_answer_handling_witness :
  handleOutcome (someFlags true 1) (someState 0 1) (someOutcome true false 2)
    [RRandIntn 7]
  = Some (Continue (afterCooldown (someState 0 1)),
          [ELog INF "submit response: %s" [AStr "ok"];
           ELog WRN "incorrect: remainingAttempts=%d" [AInt 2]]
          ++ ELog WRN "auto mode: answer incorrect, skipping..." []
             :: cooldownEvents (37 * Second),
          [])
  /\ 30 * Second <= 37 * Second <= 59 * Second
  /\ solvedCount (afterCooldown (someState 0 1))
     < target (afterCooldown (someState 0 1)).
Proof.
  refine (proj2 (incorrect_answer_handling (someFlags true 1) (someState 0 1)
                   (someOutcome true false 2) eq_refl eq_refl)
            eq_refl _ 7 [] _).
  - unfold minInt64, maxInt64. cbn. lia.
  - lia.
Defined.

(** ** A solver that fails *)

Lemma loopBody_fetched gas ctx fl solver st s pNew t1 s1 cfg1 e1 t2 s2 :
  puzzleNewWithRetry gas (client st) s = Some (Ok pNew, t1, s1) ->
  persistCookieIfChanged (configPath fl) (cfg st) (client st) s1
  = Some ((cfg1, e1), t2, s2) ->
  loopBody gas ctx fl solver st s
  = if DailyRemaining pNew <=? 0 then
      Some (Return None, fetchingLog st :: t1 ++ t2 ++ [stoppingLog], s2)
    else
      match s2 with
      | RSolve r :: s3 =>
          let pre := fetchingLog st :: t1 ++ t2
                     ++ [fetchedLog pNew;
                         ECall (CSolve solver (Puzzle pNew))] in
          match r with
          | Err err =>
              if errorsIs err ErrAIUnavailable then
                Some (Return (Some (ErrWrap "AI unavailable: " err)),
                      pre ++ [ELog ERR "AI service unavailable" []], s3)
              else if autoLoop fl then
                match cooldown (withCfg st cfg1) s3 with
                | Some (c, t3, s4) =>
                    Some (c,
                          pre ++ ELog WRN "AI solve failed: %v, skipping..."
                                      [AError err] :: t3,
                          s4)
                | None => None
                end
              else
                Some (Return (Some (ErrWrap "ai solve failed: " err)),
                      pre, s3)
          | Ok answer =>
              let pre := pre ++ [ELog INF "AI solved (elapsed %s)" [AElapsed]] in
              if dryRun fl then
                Some (Continue {| cfg := cfg1; client := client st;
                                  solvedCount := wrap64 (solvedCount st + 1);
                                  target := target st |},
                      pre ++ [ELog INF
                        "dry-run: puzzleId=%s answer generated but not submitted"
                        [AStr (ID (Puzzle pNew))]],
                      s3)
              else
                match submitPhase gas ctx fl (withCfg st cfg1) pNew answer s3
                with
                | Some (c, t3, s4) => Some (c, pre ++ t3, s4)
                | None => None
                end
          end
      | _ => None
      end.
Proof.
  intros Hfetch Hpersist. unfold loopBody.
  unfold bind at 1. unfold logf at 1, emit at 1.
  run_with Hfetch. run_with Hpersist.
  destruct (DailyRemaining pNew <=? 0).
  - cbn. rewrite ?app_nil_r. reflexivity.
  - unfold bind at 1. unfold logf at 1, emit at 1.
    unfold bind at 1. unfold Solve at 1, ask at 1.
    destruct s2 as [| [] s3]; try reflexivity.
    fold (withCfg st cfg1).
    destruct r as [answer | err].
    + unfold bind at 1. unfold logf at 1, emit at 1.
      destruct (dryRun fl).
      * cbn. rewrite <- ?app_assoc. reflexivity.
      * destruct (submitPhase _ _ _ _ _ _ _) as [[[c t3] s4] |];
          [| reflexivity].
        cbn. rewrite <- ?app_assoc. reflexivity.
    + destruct (errorsIs err ErrAIUnavailable).
      * cbn. rewrite <- ?app_assoc. reflexivity.
      * destruct (autoLoop fl).
        -- unfold bind at 1. unfold logf at 1, emit at 1.
           destruct (cooldown _ _) as [[[c t3] s4] |]; [| reflexivity].
           cbn. rewrite <- ?app_assoc. reflexivity.
        -- cbn. rewrite <- ?app_assoc, ?app_nil_r. reflexivity.
Qed.

(** X12. When the solver fails: an error that is [ErrAIUnavailable] ends the
    run in either mode, wrapped so that it still is [ErrAIUnavailable]; any
    other error ends a run without auto mode, and in auto mode is logged and
    followed by a cooldown of 30 to 59 seconds after which the loop goes on
    with the target at the solved count plus one. Nothing is submitted. *)
Theorem failed_solve_handling gas ctx fl solver st s pNew t1 s1 cfg1 e1 t2
    err s3 :
  puzzleNewWithRetry gas (client st) s = Some (Ok pNew, t1, s1) ->
  persistCookieIfChanged (configPath fl) (cfg st) (client st) s1
  = Some ((cfg1, e1), t2, RSolve (Err err) :: s3) ->
  0 < DailyRemaining pNew ->
  let pre := eventsUntilSolve solver st pNew t1 t2 in
  (errorsIs err ErrAIUnavailable = true ->
   loopBody gas ctx fl solver st s
   = Some (Return (Some (ErrWrap "AI unavailable: " err)),
           pre ++ [ELog ERR "AI service unavailable" []], s3)
   /\ errorsIs (ErrWrap "AI unavailable: " err) ErrAIUnavailable = true)
  /\ (errorsIs err ErrAIUnavailable = false -> autoLoop fl = false ->
      loopBody gas ctx fl solver st s
      = Some (Return (Some (ErrWrap "ai solve failed: " err)), pre, s3))
  /\ (errorsIs err ErrAIUnavailable = false -> autoLoop fl = true ->
      minInt64 <= solvedCount st < maxInt64 ->
      forall v rest,
        s3 = RRandIntn v :: rest -> 0 <= v < 30 ->
        loopBody gas ctx fl solver st s
        = Some (Continue (afterCooldown (withCfg st cfg1)),
                pre ++ ELog WRN "AI solve failed: %v, skipping..."
                            [AError err]
                       :: cooldownEvents ((30 + v) * Second),
                rest)).
Proof.
  intros Hfetch Hpersist Hleft pre.
  pose proof (loopBody_fetched gas ctx fl solver st s pNew t1 s1 cfg1 e1 t2 _
                Hfetch Hpersist) as Hbody.
  replace (DailyRemaining pNew <=? 0) with false in Hbody
    by (symmetry; apply Z.leb_gt; exact Hleft).
  cbv zeta in Hbody. fold (eventsUntilSolve solver st pNew t1 t2) in Hbody.
  fold pre in Hbody.
  split; [| split].
  - intros Hun. rewrite Hun in Hbody. split; [exact Hbody |].
    cbn [errorsIs]. exact Hun.
  - intros Hun Hauto. rewrite Hun, Hauto in Hbody. exact Hbody.
  - intros Hun Hauto Hs v rest -> Hv. rewrite Hun, Hauto in Hbody.
    rewrite cooldown_run in Hbody by assumption. exact Hbody.
Qed.

(** The solver's request fails in auto mode with an error that is not
    [ErrAIUnavailable]: the pass cools down for 41 seconds. *)
Lemma failed_solve_handling_witness :
  loopBody 1 Background (someFlags true 1) someSolver (someState 0 1)
    [RPuzzleNew (httpOK (someTicket 2)); RExportCookieHeader "sid=1";
     RSolve (Err (ErrNew "no content in response")); RRandIntn 11]
  = Some (Continue (afterCooldown (someState 0 1)),
          eventsUntilSolve someSolver (someState 0 1) (someTicket 2)
            [ECall (CPuzzleNew someClient)]
            [ECall (CExportCookieHeader someClient)]
          ++ ELog WRN "AI solve failed: %v, skipping..."
                  [AError (ErrNew "no content in response")]
             :: cooldownEvents (41 * Second),
          []).
Proof.
  refine (proj2 (proj2
            (failed_solve_handling 1 Background (someFlags true 1) someSolver
               (someState 0 1)
               [RPuzzleNew (httpOK (someTicket 2)); RExportCookieHeader "sid=1";
                RSolve (Err (ErrNew "no content in response")); RRandIntn 11]
               (someTicket 2) [ECall (CPuzzleNew someClient)]
               [RExportCookieHeader "sid=1";
                RSolve (Err (ErrNew "no content in response")); RRandIntn 11]
               (someConfig "sid=1") None
               [ECall (CExportCookieHeader someClient)]
               (ErrNew "no content in response") [RRandIntn 11]
               eq_refl eq_refl _))
            eq_refl eq_refl _ 11 [] eq_refl _).
  - cbn. lia.
  - unfold minInt64, maxInt64. cbn. lia.
  - lia.
Defined.

(** ** The quota checkpoints *)

(** X13. The two places where a reported quota stops the run without an
    error. Before the loop, a daily-quota answer with nothing remaining ends
    the run at once: no PoW request, no solver set up. In the loop, a fetched
    puzzle that comes with no daily attempt left ends the run right after
    the cookie is persisted: the solver is not asked and nothing is
    submitted. *)
Theorem quota_checkpoints gas ctx fl :
  (forall cfg0 c o dr s,
     doJSON o = Ok dr -> Remaining dr <= 0 ->
     setupFromQuota gas ctx fl cfg0 c (RDailyRemaining o :: s)
     = Some (Exit None,
             [ECall (CDailyRemaining c); quotaLog dr; stoppingLog], s))
  /\ (forall solver st s pNew t1 s1 r t2 s2,
        puzzleNewWithRetry gas (client st) s = Some (Ok pNew, t1, s1) ->
        persistCookieIfChanged (configPath fl) (cfg st) (client st) s1
        = Some (r, t2, s2) ->
        DailyRemaining pNew <= 0 ->
        loopBody gas ctx fl solver st s
        = Some (Return None, fetchingLog st :: t1 ++ t2 ++ [stoppingLog], s2)
        /\ forall fuel,
             solvedCount st < target st ->
             solveLoop (S fuel) gas ctx fl solver st s
             = Some (None, fetchingLog st :: t1 ++ t2 ++ [stoppingLog], s2)).
Proof.
  split.
  - intros cfg0 c o dr s Ho Hrem.
    unfold setupFromQuota, bind, dailyRemaining, ask, logf, emit, ret.
    rewrite Ho. apply Z.leb_le in Hrem. rewrite Hrem. reflexivity.
  - intros solver st s pNew t1 s1 [cfg1 e1] t2 s2 Hfetch Hpersist Hrem.
    pose proof (loopBody_fetched gas ctx fl solver st s pNew t1 s1 cfg1 e1 t2
                  s2 Hfetch Hpersist) as Hbody.
    apply Z.leb_le in Hrem. rewrite Hrem in Hbody.
    split; [exact Hbody |].
    intros fuel Hlt. rewrite (solveLoop_step _ _ _ _ _ _ _ _ _ _ Hlt Hbody).
    reflexivity.
Qed.

Lemma quota_checkpoints_witness :
  setupFromQuota 1 Background (someFlags false 1) (someConfig "sid=1")
    someClient
    [RDailyRemaining (httpOK {| Remaining := 0; Completed := 5; Limit := 5 |})]
  = Some (Exit None,
          [ECall (CDailyRemaining someClient);
           quotaLog {| Remaining := 0; Completed := 5; Limit := 5 |};
           stoppingLog],
          [])
  /\ loopBody 1 Background (someFlags false 1) someSolver (someState 0 1)
       [RPuzzleNew (httpOK (someTicket 0)); RExportCookieHeader "sid=1"]
     = Some (Return None,
             fetchingLog (someState 0 1)
             :: [ECall (CPuzzleNew someClient)]
             ++ [ECall (CExportCookieHeader someClient)] ++ [stoppingLog],
             []).
Proof.
  split.
  - apply (proj1 (quota_checkpoints 1 Background (someFlags false 1))
             (someConfig "sid=1") someClient
             (httpOK {| Remaining := 0; Completed := 5; Limit := 5 |})).
    + reflexivity.
    + cbn. lia.
  - refine (proj1 (proj2 (quota_checkpoints 1 Background (someFlags false 1))
                     someSolver (someState 0 1)
                     [RPuzzleNew (httpOK (someTicket 0));
                      RExportCookieHeader "sid=1"]
                     (someTicket 0) [ECall (CPuzzleNew someClient)]
                     [RExportCookieHeader "sid=1"]
                     (someConfig "sid=1", None)
                     [ECall (CExportCookieHeader someClient)] []
                     eq_refl eq_refl _)).
    cbn. lia.
Defined.

(** ** The command line *)

(** X14. What [run] returns for a command line that names no work, before
    the configuration is loaded, anything is prompted or any request goes to
    the service: with no arguments and with the help commands it prints the
    usage to the standard output and returns no error; for an unknown
    command it prints the usage to the error stream and returns "unknown
    command"; and for [solve], flags that do not parse, an empty [--config]
    and a [--count] that is not positive return their error right after the
    flags are parsed. *)
Theorem command_line_handling fuel ctx :
  (forall args s,
     args = []
     \/ (exists a rest,
           args = a :: rest
           /\ (a = "help" \/ a = "-h" \/ a = "--help")%string) ->
     run fuel ctx args s = Some (None, [EUsage false], s))
  /\ (forall a rest s,
        a <> "help"%string -> a <> "-h"%string -> a <> "--help"%string ->
        a <> "solve"%string ->
        run fuel ctx (a :: rest) s
        = Some (Some (ErrNew ("unknown command: " ++ a)), [EUsage true], s))
  /\ (forall rest err s,
        run fuel ctx ("solve"%string :: rest) (RFlagParse (Err err) :: s)
        = Some (Some err, [ECall (CFlagParse rest)], s))
  /\ (forall rest fl s,
        configPath fl = ""%string ->
        run fuel ctx ("solve"%string :: rest) (RFlagParse (Ok fl) :: s)
        = Some (Some (ErrNew "--config is required"),
                [ECall (CFlagParse rest)], s))
  /\ (forall rest fl s,
        configPath fl <> ""%string -> count fl <= 0 ->
        run fuel ctx ("solve"%string :: rest) (RFlagParse (Ok fl) :: s)
        = Some (Some (ErrNew "--count must be > 0"),
                [ECall (CFlagParse rest)], s)).
Proof.
  split; [| split; [| split; [| split]]].
  - intros args s [-> | (a & rest & -> & [-> | [-> | ->]])]; reflexivity.
  - intros a rest s H1 H2 H3 H4.
    apply String.eqb_neq in H1, H2, H3, H4.
    unfold run, cmdHelp, cmdSolve. rewrite H1, H2, H3, H4. reflexivity.
  - intros rest err s. reflexivity.
  - intros rest fl s Hc. unfold run.
    change (String.eqb "solve" cmdHelp) with false.
    change (String.eqb "solve" "-h") with false.
    change (String.eqb "solve" "--help") with false.
    change (String.eqb "solve" cmdSolve) with true.
    cbn [orb]. cbv iota.
    unfold runSolve, runSolveSetup, bind, flagParse, ask. cbv beta iota.
    rewrite Hc. reflexivity.
  - intros rest fl s Hc Hn. unfold run.
    change (String.eqb "solve" cmdHelp) with false.
    change (String.eqb "solve" "-h") with false.
    change (String.eqb "solve" "--help") with false.
    change (String.eqb "solve" cmdSolve) with true.
    cbn [orb]. cbv iota.
    unfold runSolve, runSolveSetup, bind, flagParse, ask. cbv beta iota.
    apply String.eqb_neq in Hc. rewrite Hc.
    apply Z.leb_le in Hn. rewrite Hn. reflexivity.
Qed.

Lemma command_line_handling_witness :
  run 1 Background ["version"%string] []
  = Some (Some (ErrNew "unknown command: version"), [EUsage true], [])
  /\ run 1 Background ["solve"%string; "--count"%string; "0"%string]
       [RFlagParse (Ok {| configPath := "config.json"; count := 0;
                          dryRun := false; autoLoop := false |})]
     = Some (Some (ErrNew "--count must be > 0"),
             [ECall (CFlagParse ["--count"%string; "0"%string])], []).
Proof.
  split.
  - apply (proj1 (proj2 (command_line_handling 1 Background))); discriminate.
  - apply (proj2 (proj2 (proj2 (proj2 (command_line_handling 1 Background))))).
    + discriminate.
    + cbn. lia.
Defined.

(** ** A login that succeeds *)

Lemma ends_by_skipn {A} n (t l : list A) :
  skipn n t = l -> exists t0, t = t0 ++ l.
Proof.
  intros <-. exists (firstn n t). symmetry. apply firstn_skipn.
Qed.

(** X15. A configuration that [ensureLoginInteractive] returns has just been
    validated: the last two events of the run are the construction of a
    client from that configuration and an [authMe] call of that client, and
    the reply to it was a success. The AI settings are those given, the base
    URL is not empty and is the given one unless that was empty, there were
    at most two prompts, and without a prompt the configuration is the given
    one with its cookie trimmed. *)
Theorem ensureLoginInteractive_validated ctx cfg path s cfg' t s' :
  ensureLoginInteractive ctx cfg path s = Some (Ok cfg', t, s') ->
  AI cfg' = AI cfg
  /\ BaseURL cfg' <> ""%string
  /\ (BaseURL cfg <> ""%string -> BaseURL cfg' = BaseURL cfg)
  /\ (promptsOf t <= 2)%nat
  /\ (promptsOf t = 0%nat ->
      cfg' = withCookie cfg (strings.TrimSpace (Cookie cfg)))
  /\ exists t0 u o me,
       t = t0 ++ validationEvents cfg' u
       /\ In (RAuthMe o) s /\ doJSON o = Ok me.
Proof.
  intros H.
  unfold ensureLoginInteractive, loginValidate, promptAndSave, newAPIClient,
    authMe, promptAuthMaterial, saveConfig in H.
  cbv zeta in H. inv_run; inv_reply; try discriminate.
  all: repeat match goal with
              | Hx : Ok _ = Ok _ |- _ => inversion Hx; subst; clear Hx
              | Hx : Err _ = Ok _ |- _ => discriminate Hx
              | Hx : Ok _ = Err _ |- _ => discriminate Hx
              end.
  all: repeat match goal with
              | Hx : (BaseURL _ =? "")%string = false |- _ =>
                  apply String.eqb_neq in Hx
              end.
  all: split; [reflexivity |].
  all: split; [assumption |].
  all: split;
    [ intros Hb; cbn [withCookie BaseURL] in *;
      rewrite ?applyAuthMaterial_BaseURL; cbn [withCookie BaseURL];
      rewrite ?applyAuthMaterial_BaseURL; cbn [withCookie BaseURL];
      auto |].
  all: split; [cbn; lia |].
  all: split; [cbn; try discriminate; try reflexivity |].
  all: match goal with
       | Ho : doJSON ?o = Ok ?me
         |- exists _ _ _ _, ?t = _ ++ validationEvents ?c _ /\ _ =>
           match t with
           | context [CAuthMe {| baseURL := ?u; cookie := _;
                                 userAgent := _ |}] =>
               assert (Hend : exists t0, t = t0 ++ validationEvents c u)
                 by (first [ apply (ends_by_skipn 0); reflexivity
                           | apply (ends_by_skipn 3); reflexivity
                           | apply (ends_by_skipn 5); reflexivity
                           | apply (ends_by_skipn 8); reflexivity ]);
               destruct Hend as [t0 Hend]; exists t0, u, o, me;
               split; [exact Hend | split; [cbn; auto 12 | exact Ho]]
           end
       end.
Qed.

Lemma ensureLoginInteractive_validated_witness :
  match ensureLoginInteractive Background (someConfig " ") "config.json"
          [RPromptAuthMaterial
             (Ok {| am_Cookie := "sid=2"; am_UserAgent := "";
                    am_BaseURL := "https://other.example" |});
           RSaveConfig None; RUrlParse (Ok "https://example.org"%string);
           RAuthMe (httpOK someUser)]
  with
  | Some (Ok cfg', t, _) =>
      AI cfg' = AI (someConfig " ")
      /\ BaseURL cfg' = BaseURL (someConfig " ")
      /\ (promptsOf t <= 2)%nat
  | _ => False
  end.
Proof.
  destruct (ensureLoginInteractive _ _ _ _) as [[[[cfg' | e] t] rest] |] eqn:E.
  - apply ensureLoginInteractive_validated in E
      as (Hai & _ & Hbase & Hprompts & _).
    split; [exact Hai |]. split; [| exact Hprompts].
    apply Hbase. discriminate.
  - vm_compute in E. discriminate E.
  - vm_compute in E. discriminate E.
Defined.

(** ** Trimming twice *)

Lemma stripPrefix_nil_None a p : strings.stripPrefix (a :: p) [] = None.
Proof. reflexivity. Qed.

Lemma stripAny_nil ps :
  Forall (fun p => p <> []) ps -> strings.stripAny ps [] = None.
Proof.
  induction 1 as [| p ps Hp _ IH]; [reflexivity |].
  cbn. destruct p as [| a p]; [contradiction |]. exact IH.
Qed.

(** With enough steps, nothing is left to strip. *)
Lemma trimLeading_done ps :
  Forall (fun p => p <> []) ps ->
  forall n s, (length s <= n)%nat ->
    strings.stripAny ps (strings.trimLeading ps n s) = None.
Proof.
  intros Hps. induction n as [| n IH]; intros s Hlen.
  - destruct s; [| cbn in Hlen; lia]. apply stripAny_nil. exact Hps.
  - cbn. destruct (strings.stripAny ps s) as [r |] eqn:E; [| exact E].
    apply IH. apply stripAny_Some in E as (p & Hin & ->).
    rewrite Forall_forall in Hps. specialize (Hps p Hin).
    destruct p; [contradiction |]. rewrite length_app in Hlen. cbn in Hlen.
    lia.
Qed.

Lemma trimLeading_fixed ps n s :
  strings.stripAny ps s = None -> strings.trimLeading ps n s = s.
Proof. intros H. destruct n; cbn; [| rewrite H]; reflexivity. Qed.

(** What is left is a suffix of what was given. *)
Lemma trimLeading_suffix ps : forall n s,
  exists pre, s = pre ++ strings.trimLeading ps n s.
Proof.
  induction n as [| n IH]; intros s; [exists []; reflexivity |].
  cbn. destruct (strings.stripAny ps s) as [r |] eqn:E;
    [| exists []; reflexivity].
  apply stripAny_Some in E as (p & _ & ->).
  destruct (IH r) as [pre Hpre]. exists (p ++ pre).
  rewrite <- app_assoc. f_equal. exact Hpre.
Qed.

Lemma stripPrefix_app_r p : forall x y r,
  strings.stripPrefix p x = Some r ->
  strings.stripPrefix p (x ++ y) = Some (r ++ y).
Proof.
  induction p as [| a p IH]; intros x y r H.
  - cbn in *. inversion H. reflexivity.
  - destruct x as [| b x]; [discriminate |]. cbn in *.
    destruct (a =? b); [| discriminate]. apply IH. exact H.
Qed.

Lemma stripAny_None_prefix ps x y :
  strings.stripAny ps (x ++ y) = None -> strings.stripAny ps x = None.
Proof.
  induction ps as [| p ps IH]; [reflexivity |]. cbn.
  destruct (strings.stripPrefix p x) as [r |] eqn:E.
  - rewrite (stripPrefix_app_r _ _ y _ E). discriminate.
  - destruct (strings.stripPrefix p (x ++ y)); [discriminate |]. exact IH.
Qed.

Lemma spaceRunes_nonempty :
  Forall (fun p : list Z => p <> []) strings.spaceRunes
  /\ Forall (fun p : list Z => p <> []) (map (@rev Z) strings.spaceRunes).
Proof. split; repeat constructor; discriminate. Qed.

Lemma trim_fixed b :
  let r := strings.trimRight (strings.trimLeft b) in
  strings.trimRight (strings.trimLeft r) = r.
Proof.
  cbv zeta. set (l := strings.trimLeft b).
  assert (Hl : strings.stripAny strings.spaceRunes l = None).
  { apply trimLeading_done; [apply spaceRunes_nonempty | lia]. }
  unfold strings.trimRight at 2.
  set (x := strings.trimLeading _ (length l) (rev l)).
  assert (Hx : strings.stripAny (map (@rev Z) strings.spaceRunes) x = None).
  { apply trimLeading_done; [apply spaceRunes_nonempty |].
    rewrite length_rev. lia. }
  assert (Hleft : strings.trimLeft (rev x) = rev x).
  { apply trimLeading_fixed.
    destruct (trimLeading_suffix (map (@rev Z) strings.spaceRunes)
                (length l) (rev l)) as [pre Hpre].
    fold x in Hpre. apply (f_equal (@rev Z)) in Hpre.
    rewrite rev_involutive, rev_app_distr in Hpre.
    apply (stripAny_None_prefix _ _ (rev pre)). rewrite <- Hpre. exact Hl. }
  rewrite Hleft. unfold strings.trimRight. rewrite rev_involutive.
  rewrite trimLeading_fixed by exact Hx. reflexivity.
Qed.

(** [TrimSpace] of a trimmed string is that string. *)
Lemma TrimSpace_idempotent s :
  strings.TrimSpace (strings.TrimSpace s) = strings.TrimSpace s.
Proof.
  unfold strings.TrimSpace.
  rewrite bytes_of_string_of_bytes
    by (apply trim_isByte; apply bytes_of_string_isByte).
  rewrite trim_fixed. reflexivity.
Qed.

(** ** Persisting the cookie *)

(** X16. [persistCookieIfChanged] changes nothing of the configuration but
    the cookie, never replaces a cookie by an empty one, saves exactly when
    the trimmed header of the jar is not empty and differs from the trimmed
    stored cookie, and what it saves is the configuration it leaves to the
    caller (also when saving fails). It is idempotent: called again while
    the jar gives the same header, it saves nothing. *)
Theorem persistCookieIfChanged_saves_once path cfg c h s cfg' e t s' :
  persistCookieIfChanged path cfg c (RExportCookieHeader h :: s)
  = Some ((cfg', e), t, s') ->
  let new := strings.TrimSpace h in
  let changed := negb (String.eqb new "")
                 && negb (String.eqb (strings.TrimSpace (Cookie cfg)) new) in
  cfg' = (if changed then withCookie cfg new else cfg)
  /\ callsOf t
     = CExportCookieHeader c
       :: (if changed then [CSaveConfig path cfg'] else [])
  /\ (changed = false -> e = None /\ s' = s)
  /\ (Cookie cfg <> ""%string -> Cookie cfg' <> ""%string)
  /\ forall c2 rest,
       persistCookieIfChanged path cfg' c2 (RExportCookieHeader h :: rest)
       = Some ((cfg', None), [ECall (CExportCookieHeader c2)], rest).
Proof.
  intros H new changed. unfold persistCookieIfChanged in H.
  unfold bind at 1 in H. unfold exportCookieHeader at 1, ask at 1 in H.
  cbv beta iota zeta in H. fold new in H.
  assert (Hagain : forall cfg2 c2 rest,
             String.eqb new "" = true
             \/ String.eqb (strings.TrimSpace (Cookie cfg2)) new = true ->
             persistCookieIfChanged path cfg2 c2 (RExportCookieHeader h :: rest)
             = Some ((cfg2, None), [ECall (CExportCookieHeader c2)], rest)).
  { intros cfg2 c2 rest Hsame. unfold persistCookieIfChanged.
    unfold bind at 1. unfold exportCookieHeader at 1, ask at 1.
    cbv beta iota zeta. fold new.
    destruct (String.eqb new ""); [reflexivity |].
    destruct Hsame as [Hsame | Hsame]; [discriminate |].
    rewrite Hsame. reflexivity. }
  unfold changed.
  destruct (String.eqb new "") eqn:Hnew; cbn [negb andb].
  - cbn in H. inversion H; subst. repeat split; auto.
  - destruct (String.eqb (strings.TrimSpace (Cookie cfg)) new) eqn:Hsame;
      cbn [negb].
    + cbn in H. inversion H; subst. repeat split; auto.
    + destruct (bind (saveConfig path (withCookie cfg new)) _ s)
        as [[[[cfgx ex] tx] sx] |] eqn:E; [| discriminate H].
      inversion H; subst; clear H.
      assert (Hcfg : cfg' = withCookie cfg new /\ callsOf tx
                     = [CSaveConfig path (withCookie cfg new)]).
      { unfold saveConfig in E. inv_run; inv_reply; split; reflexivity. }
      destruct Hcfg as [-> Hcalls]. split; [reflexivity |]. split.
      * cbn [app callsOf flat_map]. fold (callsOf tx). rewrite Hcalls.
        reflexivity.
      * split; [discriminate |]. split.
        -- intros _. cbn [withCookie Cookie]. apply String.eqb_neq. exact Hnew.
        -- intros c2 rest. apply Hagain. right. cbn [withCookie Cookie].
           unfold new. rewrite TrimSpace_idempotent. apply String.eqb_refl.
Qed.

(** The jar gives a new cookie: it is saved; it then gives the same cookie
    and nothing is saved. *)
Lemma persistCookieIfChanged_saves_once_witness :
  callsOf [ECall (CExportCookieHeader someClient);
           ECall (CSaveConfig "config.json"
                    (withCookie (someConfig "sid=1") "sid=2"));
           ELog INF "config.json updated (cookie refreshed)" []]
  = [CExportCookieHeader someClient;
     CSaveConfig "config.json" (withCookie (someConfig "sid=1") "sid=2")]
  /\ persistCookieIfChanged "config.json"
       (withCookie (someConfig "sid=1") "sid=2") someClient
       [RExportCookieHeader " sid=2 "; RPuzzleNew (httpOK (someTicket 1))]
     = Some ((withCookie (someConfig "sid=1") "sid=2", None),
             [ECall (CExportCookieHeader someClient)],
             [RPuzzleNew (httpOK (someTicket 1))]).
Proof.
  pose proof (persistCookieIfChanged_saves_once "config.json"
                (someConfig "sid=1") someClient " sid=2 " [RSaveConfig None]
                (withCookie (someConfig "sid=1") "sid=2") None
                [ECall (CExportCookieHeader someClient);
                 ECall (CSaveConfig "config.json"
                          (withCookie (someConfig "sid=1") "sid=2"));
                 ELog INF "config.json updated (cookie refreshed)" []]
                [] eq_refl) as (_ & Hcalls & _ & _ & Hagain).
  split; [exact Hcalls | apply Hagain].
Defined.

(** ** Setting up the solver *)

(** X17. [newAISolver]: with the AI disabled there is no solver and no
    error, and the environment is not read. Otherwise the API key of the
    configuration is used if it is not blank, and only if it is blank is
    [OPENAI_API_KEY] read; with both blank the key is reported missing. A
    solver that is returned carries the AI settings given and a model name
    that is never empty: the trimmed configured one, or the default. *)
Theorem newAISolver_configuration cfg s r t s' :
  newAISolver cfg s = Some (r, t, s') ->
  let key := strings.TrimSpace (ai_APIKey (AI cfg)) in
  let name := strings.TrimSpace (ai_Model (AI cfg)) in
  match r with
  | Ok None => ai_Enabled (AI cfg) = false /\ t = [] /\ s' = s
  | Ok (Some sv) =>
      ai_Enabled (AI cfg) = true
      /\ solver_cfg sv = AI cfg
      /\ model sv <> ""%string
      /\ model sv = (if String.eqb name "" then defaultAIModel else name)
      /\ (key <> ""%string -> callsOf t = [] /\ s' = s)
      /\ (key = ""%string ->
          exists v, s = RGetenv v :: s'
                    /\ strings.TrimSpace v <> ""%string
                    /\ callsOf t = [CGetenv "OPENAI_API_KEY"])
  | Err e =>
      ai_Enabled (AI cfg) = true
      /\ e = ErrNew
               "missing API key (set ai.api_key in config or OPENAI_API_KEY env)"
      /\ key = ""%string
      /\ exists v, s = RGetenv v :: s' /\ strings.TrimSpace v = ""%string
  end.
Proof.
  intros H key name. unfold newAISolver in H. cbv zeta in H.
  fold key name in H.
  destruct (ai_Enabled (AI cfg)) eqn:Hen; cbn [negb] in H.
  - destruct (String.eqb key "") eqn:Hkey.
    + unfold Getenv in H. inv_run; inv_reply.
      all: repeat match goal with
                  | Hx : (_ =? "")%string = true |- _ =>
                      apply String.eqb_eq in Hx
                  | Hx : (_ =? "")%string = false |- _ =>
                      apply String.eqb_neq in Hx
                  end.
      all: try (split; [reflexivity |]).
      all: try (split; [reflexivity |]).
      all: try solve [split; [assumption | eexists; split; eauto]].
      all: split;
        [ try fold name; destruct (String.eqb_spec name "");
          [discriminate | assumption] |].
      all: split; [reflexivity |].
      all: split; [intros; contradiction |].
      all: intros _; eexists; split; [reflexivity |]; split;
        [assumption | reflexivity].
    + apply String.eqb_neq in Hkey. inv_run; inv_reply.
      all: try (apply String.eqb_eq in Heqb; contradiction).
      all: split; [reflexivity |].
      all: split; [reflexivity |].
      all: split;
        [ try fold name; destruct (String.eqb_spec name "");
          [discriminate | assumption] |].
      all: split; [reflexivity |].
      all: split; [intros _; split; reflexivity | intros; contradiction].
  - inv_run. repeat split.
Qed.

Lemma newAISolver_configuration_witness :
  match newAISolver (someConfig "sid=1") [] with
  | Some (Ok (Some sv), t, _) =>
      model sv = defaultAIModel /\ callsOf t = []
  | _ => False
  end.
Proof.
  destruct (newAISolver (someConfig "sid=1") [])
    as [[[[[sv |] | e] t] rest] |] eqn:E;
    try (vm_compute in E; discriminate E).
  apply newAISolver_configuration in E as (_ & _ & _ & Hm & Hk & _).
  split; [exact Hm |]. apply Hk. vm_compute. discriminate.
Defined.

(** ** Responses by status *)

(** X18. How [doJSON] and the tests on its errors sort the outcomes of an
    exchange. A result is a success exactly for a status in [[200, 300)] with
    a body that decodes. Any other status gives an [apiError] with that
    status, whatever the body: it is retried by the wrappers exactly for
    429, an auth error exactly for 401 and 403, and otherwise ends the run;
    its text is "api <status>" followed by the message if there is one. An
    empty body with a good status is an error that ends the run, and so do
    a transport failure and an unreadable body whose cause is no
    [apiError]. *)
Theorem doJSON_sorts_by_status {A} (o : httpOutcome A) :
  (forall v,
     doJSON o = Ok v <->
     exists status b msg,
       o = Response status b msg (Ok v) /\ 200 <= status < 300 /\ b <> [])
  /\ (forall status b msg d,
        o = Response status b msg d -> status < 200 \/ 300 <= status ->
        let ae := {| StatusCode := status; Message := msg; Body := b |} in
        doJSON o = Err (ErrApi ae)
        /\ rateLimited (doJSON o) = (status =? 429)
        /\ isAuthError (ErrApi ae) = ((status =? 401) || (status =? 403))
        /\ fatalResult (doJSON o)
           = negb ((status =? 429) || (status =? 401) || (status =? 403))
        /\ errorText (ErrApi ae)
           = (if String.eqb msg "" then "api " ++ Itoa status
              else "api " ++ Itoa status ++ ": " ++ msg)%string)
  /\ (forall status msg d,
        o = Response status [] msg d -> 200 <= status < 300 ->
        doJSON o = Err (ErrNew "empty response body")
        /\ fatalResult (doJSON o) = true)
  /\ (forall e,
        o = TransportFailure e \/ o = ReadFailure e ->
        errorsAs e = None ->
        fatalResult (doJSON o) = true).
Proof.
  split; [| split; [| split]].
  - intros v. split.
    + destruct o as [e | e | status b msg d]; cbn; try discriminate.
      destruct (Z.ltb_spec status 200) as [Hlo | Hlo]; [discriminate |].
      destruct (Z.leb_spec 300 status) as [Hhi | Hhi]; [discriminate |]. cbn.
      destruct b as [| b0 b]; [discriminate |].
      destruct d as [v' | e]; [| discriminate].
      intros H. inversion H; subst. exists status, (b0 :: b), msg.
      repeat split; try lia. discriminate.
    + intros (status & b & msg & -> & Hs & Hb). cbn.
      destruct (Z.ltb_spec status 200) as [Hlo | Hlo]; [lia |].
      destruct (Z.leb_spec 300 status) as [Hhi | Hhi]; [lia |]. cbn.
      destruct b; [contradiction | reflexivity].
  - intros status b msg d -> Hs ae. cbn [doJSON].
    replace ((status <? 200) || (300 <=? status)) with true
      by (symmetry; apply orb_true_iff;
          destruct Hs; [left; apply Z.ltb_lt | right; apply Z.leb_le]; lia).
    split; [reflexivity |]. split; [reflexivity |]. split; [reflexivity |].
    split.
    + cbn. destruct (status =? 429) eqn:E429; [reflexivity |].
      destruct (status =? 401), (status =? 403); reflexivity.
    + cbn [errorText ae Message StatusCode].
      destruct (String.eqb msg ""); reflexivity.
  - intros status msg d -> Hs. cbn [doJSON].
    replace ((status <? 200) || (300 <=? status)) with false
      by (symmetry; apply orb_false_iff; split;
          [apply Z.ltb_ge | apply Z.leb_gt]; lia).
    split; reflexivity.
  - intros e [-> | ->] He; cbn; unfold isAuthError; cbn [errorsAs];
      rewrite He; reflexivity.
Qed.

Lemma doJSON_sorts_by_status_witness :
  doJSON (httpStatus 503 "" : httpOutcome puzzleNewResponse)
  = Err (ErrApi {| StatusCode := 503; Message := ""; Body := [] |})
  /\ fatalResult (doJSON (httpStatus 503 "" : httpOutcome puzzleNewResponse))
     = true
  /\ errorText (ErrApi {| StatusCode := 503; Message := ""; Body := [] |})
     = "api 503"%string.
Proof.
  destruct (proj1 (proj2 (doJSON_sorts_by_status
                            (httpStatus 503 "" : httpOutcome puzzleNewResponse)))
              503 [] ""%string (Err (ErrNew "body not decoded")) eq_refl)
    as (H1 & _ & _ & H4 & H5); [right; lia |].
  split; [exact H1 |]. split; [exact H4 | exact H5].
Defined.

(** ** Freshness over time *)

(** X19. The need to refresh the PoW only grows with time: a status that
    needs a refresh at one instant needs it at every later one, and one that
    needs none did not need one before. *)
Theorem powNeedsRefresh_monotone st now now' :
  now <= now' ->
  (powNeedsRefresh st now = true -> powNeedsRefresh st now' = true)
  /\ (powNeedsRefresh st now' = false -> powNeedsRefresh st now = false).
Proof.
  intros Hle. rewrite !powNeedsRefresh_eq.
  destruct (HasValidPow st), (0 <? PowExpiresAt st); cbn; auto.
  destruct (Z.ltb_spec (UnixMilli (PowExpiresAt st) - now) powRefreshWindow),
    (Z.ltb_spec (UnixMilli (PowExpiresAt st) - now') powRefreshWindow);
    auto; lia.
Qed.

(** 100 seconds before the expiry a refresh is needed, and so it is at the
    expiry. *)
Lemma powNeedsRefresh_monotone_witness :
  powNeedsRefresh validPow (someNow + 3600 * Second) = true.
Proof.
  apply (proj1 (powNeedsRefresh_monotone validPow (someNow + 3500 * Second)
                  (someNow + 3600 * Second) ltac:(vm_compute; discriminate))).
  vm_compute. reflexivity.
Defined.

(** The fetch answers 429 twice and then succeeds. *)
Lemma retry_wrappers_return_no_429_witness :
  exists os o,
    repeat (RPuzzleNew (httpStatus 429 "slow down")) 2
    ++ [RPuzzleNew (httpOK (someTicket 2))]
    = map RPuzzleNew os ++ [RPuzzleNew o]
    /\ Forall (fun o => rateLimited (doJSON o) = true) os
    /\ Ok (someTicket 2) = doJSON o
    /\ (length os < 3)%nat.
Proof.
  destruct (proj1 (retry_wrappers_return_no_429 3 someClient ""%string [])
              (repeat (RPuzzleNew (httpStatus 429 "slow down")) 2
               ++ [RPuzzleNew (httpOK (someTicket 2))])
              (Ok (someTicket 2))
              (retryTrace (CPuzzleNew someClient)
                          "rate limited (429), waiting %s..." 2 (2 * Second)
               ++ [ECall (CPuzzleNew someClient)])
              [] eq_refl)
    as (_ & os & o & H1 & H2 & H3 & H4 & _).
  exists os, o. auto.
Defined.

(** ** The configuration file *)

Lemma eqb_false_neq (a b : string) : String.eqb a b = false -> a <> b.
Proof. apply String.eqb_neq. Qed.

(** X20. [loadConfig]: without a file it returns the defaults, whose base
    URL is empty. From a file it returns a configuration only when the
    trimmed base URL is not empty, and then in a normal form: base URL and
    cookie trimmed, a user agent and a model name that are not blank; loading
    that configuration again returns it unchanged. On a first run without a
    file, a prompt that supplies no base URL ends [ensureLoginInteractive]
    with "base_url is required", before any request to the service. *)
Theorem loadConfig_normal_form :
  (forall f cfg,
     loadConfigFrom f = Ok cfg ->
     (f = FileMissing /\ cfg = defaultConfig /\ BaseURL cfg = ""%string)
     \/ (exists raw,
           f = Unmarshalled raw
           /\ BaseURL cfg = strings.TrimSpace (BaseURL raw)
           /\ BaseURL cfg <> ""%string
           /\ Cookie cfg = strings.TrimSpace (Cookie raw)
           /\ UserAgent cfg <> ""%string
           /\ strings.TrimSpace (ai_Model (AI cfg)) <> ""%string
           /\ loadConfigFrom (Unmarshalled cfg) = Ok cfg))
  /\ (forall ctx path am s,
        am_BaseURL am = ""%string ->
        ensureLoginInteractive ctx defaultConfig path
          (RPromptAuthMaterial (Ok am) :: RSaveConfig None :: s)
        = Some (Err (ErrNew "base_url is required"),
                promptEvents path (applyAuthMaterial defaultConfig am), s)).
Proof.
  split.
  - intros f cfg.
    destruct f as [| e | e | e | raw]; cbn [loadConfigFrom]; try discriminate.
    + intros H. inversion H. left. auto.
    + cbv zeta.
      destruct (String.eqb (strings.TrimSpace (BaseURL raw)) "") eqn:Hbase;
        [discriminate |].
      intros H. inversion H as [Hcfg]. clear H. right. exists raw.
      assert (Hua : (if String.eqb (UserAgent raw) "" then defaultUA
                     else UserAgent raw) <> ""%string).
      { destruct (String.eqb (UserAgent raw) "") eqn:E;
          [discriminate | apply eqb_false_neq; exact E]. }
      assert (Hmodel :
                strings.TrimSpace
                  (if String.eqb (strings.TrimSpace (ai_Model (AI raw))) ""
                   then defaultAIModel else ai_Model (AI raw))
                <> ""%string).
      { destruct (String.eqb (strings.TrimSpace (ai_Model (AI raw))) "")
          eqn:E; [vm_compute; discriminate | apply eqb_false_neq; exact E]. }
      cbn [BaseURL Cookie UserAgent AI ai_Model ai_Enabled ai_BaseURL
           ai_APIKey].
      split; [reflexivity |]. split; [reflexivity |].
      split; [apply eqb_false_neq; exact Hbase |].
      split; [reflexivity |]. split; [exact Hua |]. split; [exact Hmodel |].
      rewrite !TrimSpace_idempotent, Hbase.
      apply String.eqb_neq in Hua, Hmodel. rewrite Hua, Hmodel. reflexivity.
  - intros ctx path am s Ham. unfold ensureLoginInteractive. cbv zeta.
    change (strings.TrimSpace (Cookie defaultConfig)) with ""%string.
    change (withCookie defaultConfig "") with defaultConfig.
    change (String.eqb (Cookie defaultConfig) "") with true. cbv iota.
    run_with (promptAndSave_run defaultConfig path am s).
    unfold loginValidate, newAPIClient.
    assert (Hb : BaseURL (applyAuthMaterial defaultConfig am) = ""%string).
    { unfold applyAuthMaterial. cbn [BaseURL]. rewrite Ham. reflexivity. }
    rewrite Hb. cbn. rewrite ?app_nil_r. reflexivity.
Qed.

Lemma loadConfig_normal_form_witness :
  loadConfigFrom (Unmarshalled (someConfig " sid=1 "))
  = Ok (withCookie
          {| BaseURL := "https://example.org"; Cookie := "";
             UserAgent := defaultUA;
             AI := {| ai_Enabled := true; ai_Model := defaultAIModel;
                      ai_BaseURL := ""; ai_APIKey := "key" |} |}
          "sid=1")
  /\ loadConfigFrom
       (Unmarshalled
          (withCookie
             {| BaseURL := "https://example.org"; Cookie := "";
                UserAgent := defaultUA;
                AI := {| ai_Enabled := true; ai_Model := defaultAIModel;
                         ai_BaseURL := ""; ai_APIKey := "key" |} |}
             "sid=1"))
     = Ok (withCookie
             {| BaseURL := "https://example.org"; Cookie := "";
                UserAgent := defaultUA;
                AI := {| ai_Enabled := true; ai_Model := defaultAIModel;
                         ai_BaseURL := ""; ai_APIKey := "key" |} |}
             "sid=1").
Proof.
  assert (H : loadConfigFrom (Unmarshalled (someConfig " sid=1 "))
              = Ok (withCookie
                      {| BaseURL := "https://example.org"; Cookie := "";
                         UserAgent := defaultUA;
                         AI := {| ai_Enabled := true;
                                  ai_Model := defaultAIModel;
                                  ai_BaseURL := ""; ai_APIKey := "key" |} |}
                      "sid=1")) by (vm_compute; reflexivity).
  split; [exact H |].
  destruct (proj1 loadConfig_normal_form _ _ H)
    as [(Hf & _) | (raw & _ & _ & _ & _ & _ & _ & Hagain)];
    [discriminate Hf | exact Hagain].
Defined.

(** ** Building the client *)

(** X21. [newAPIClient] refuses an empty base URL before the URL is parsed.
    A client that it returns has a user agent that is not empty (the
    configured one, or the default) and the trimmed cookie of the
    configuration; the one request made is the parse of the base URL, and
    its failure is reported as "invalid base_url". A configuration from a
    missing file is refused. *)
Theorem newAPIClient_client cfg :
  (BaseURL cfg = ""%string ->
   forall s,
     newAPIClient cfg s = Some (Err (ErrNew "base_url is required"), [], s))
  /\ (BaseURL cfg <> ""%string ->
      forall s r t s',
        newAPIClient cfg s = Some (r, t, s') ->
        t = [ECall (CUrlParse (BaseURL cfg))]
        /\ match r with
           | Ok c =>
               userAgent c <> ""%string
               /\ (UserAgent cfg <> ""%string -> userAgent c = UserAgent cfg)
               /\ cookie c = strings.TrimSpace (Cookie cfg)
               /\ strings.TrimSpace (cookie c) = cookie c
               /\ s = RUrlParse (Ok (baseURL c)) :: s'
           | Err e =>
               exists e0, e = ErrWrap "invalid base_url: " e0
                          /\ s = RUrlParse (Err e0) :: s'
           end)
  /\ forall s,
       newAPIClient defaultConfig s
       = Some (Err (ErrNew "base_url is required"), [], s).
Proof.
  split; [| split].
  - intros Hb s. unfold newAPIClient. rewrite Hb. reflexivity.
  - intros Hb s r t s' H. unfold newAPIClient in H.
    apply String.eqb_neq in Hb. rewrite Hb in H.
    inv_run; inv_reply; (split; [reflexivity |]).
    + cbn [userAgent cookie baseURL].
      split.
      { destruct (String.eqb (UserAgent cfg) "") eqn:E;
          [discriminate | apply eqb_false_neq; exact E]. }
      split.
      { intros Hua. apply String.eqb_neq in Hua. rewrite Hua. reflexivity. }
      split; [reflexivity |].
      split; [apply TrimSpace_idempotent | reflexivity].
    + eexists. split; reflexivity.
  - intros s. reflexivity.
Qed.

Lemma newAPIClient_client_witness :
  match newAPIClient (someConfig " sid=1 ")
          [RUrlParse (Ok "https://example.org"%string)]
  with
  | Some (Ok c, t, _) =>
      t = [ECall (CUrlParse "https://example.org")]
      /\ userAgent c <> ""%string
      /\ cookie c = strings.TrimSpace " sid=1 "
  | _ => False
  end.
Proof.
  destruct (newAPIClient _ _) as [[[[c | e] t] rest] |] eqn:E;
    try (vm_compute in E; discriminate E).
  apply (proj1 (proj2 (newAPIClient_client (someConfig " sid=1 ")))) in E
    as (Ht & Hua & _ & Hck & _); [| discriminate].
  split; [exact Ht |]. split; [exact Hua | exact Hck].
Defined.

(** ** The exchanges with the model *)

Lemma lastIndexFrom_range a sub : forall s i last,
  lastIndexFrom s (a :: sub) i last = last
  \/ i <= lastIndexFrom s (a :: sub) i last < i + Z.of_nat (length s).
Proof.
  induction s as [| b s IH]; intros i last; cbn [lastIndexFrom];
    [left; reflexivity |].
  destruct (strings.stripPrefix (a :: sub) (b :: s)).
  - destruct (IH (i + 1) i) as [H | H]; right; cbn [length]; lia.
  - destruct (IH (i + 1) last) as [H | H]; [left; exact H | right].
    cbn [length]. lia.
Qed.

(** X22. [verifyAnswer] never panics: the slice between the first opening
    and the last closing brace lies within the content. It reports a valid
    answer only if a [VerifyResult] with [valid = true] was decoded, from the
    whole content or, when that does not decode, from that slice. An error of
    the stream is returned whatever was received, and without content
    nothing is decoded. *)
Theorem verifyAnswer_verdict unmarshal marshalPuzzle marshalAnswer x :
  exists r,
    verifyAnswerFrom unmarshal marshalPuzzle marshalAnswer x = Some r
    /\ (r = Ok true ->
        let content := streamContent (chunks x) in
        content <> ""%string
        /\ streamErr x = None
        /\ exists text v,
             unmarshal text = Ok v /\ Valid v = true
             /\ (text = content
                 \/ exists e0,
                      unmarshal content = Err e0
                      /\ slice content (Index content "{")
                               (LastIndex content "}" + 1) = Some text))
    /\ (forall err,
          marshalPuzzle = None -> marshalAnswer = None ->
          streamErr x = Some err ->
          r = Err (ErrWrap "verify chat completion error: " err)).
Proof.
  unfold verifyAnswerFrom.
  destruct marshalPuzzle as [e1 |];
    [eexists; split; [reflexivity |]; split; [discriminate |];
     intros; discriminate |].
  destruct marshalAnswer as [e2 |];
    [eexists; split; [reflexivity |]; split; [discriminate |];
     intros; discriminate |].
  destruct (streamErr x) as [e3 |] eqn:Hstream.
  { eexists. split; [reflexivity |]. split; [discriminate |].
    intros err _ _ H. inversion H. reflexivity. }
  cbv zeta. set (content := streamContent (chunks x)).
  destruct (String.eqb_spec content "") as [Hc | Hc].
  { eexists. split; [reflexivity |]. split; [discriminate |].
    intros; discriminate. }
  destruct (unmarshal content) as [v | e0] eqn:Hdec.
  { eexists. split; [reflexivity |]. split; [| intros; discriminate].
    intros H. injection H as Hv. split; [exact Hc |].
    split; [reflexivity |]. exists content, v. auto. }
  set (start := Index content "{"). set (e := LastIndex content "}").
  destruct (negb (start =? -1) && (start <? e)) eqn:Hcheck.
  - apply andb_true_iff in Hcheck as [Hs He].
    apply negb_true_iff, Z.eqb_neq in Hs. apply Z.ltb_lt in He.
    assert (Hstart : 0 <= start).
    { unfold start, Index.
      destruct (indexFrom_range (bytes_of_string "{") (bytes_of_string content)
                  0) as [H | H]; [contradiction | lia]. }
    assert (Hend : e < Z.of_nat (length (bytes_of_string content))).
    { unfold e, LastIndex. change (bytes_of_string "}") with [125].
      destruct (lastIndexFrom_range 125 [] (bytes_of_string content) 0 (-1))
        as [H | H]; [| lia].
      fold (LastIndex content "}") in H. fold e in H. lia. }
    unfold slice.
    replace ((0 <=? start) && (start <=? e + 1)
             && (e + 1 <=? Z.of_nat (length (bytes_of_string content))))
      with true
      by (symmetry; rewrite !andb_true_iff, !Z.leb_le; lia).
    match goal with
    | |- context [unmarshal (strings.string_of_bytes ?b)] =>
        destruct (unmarshal (strings.string_of_bytes b)) as [v | e4] eqn:Hpart
    end;
      eexists; (split; [reflexivity |]);
      (split; [| intros; discriminate]); [| discriminate].
    intros H. injection H as Hv. split; [exact Hc |].
    split; [reflexivity |]. eexists _, v. split; [exact Hpart |].
    split; [exact Hv |]. right. exists e0. split; [reflexivity |].
    unfold slice. fold start e.
    replace ((0 <=? start) && (start <=? e + 1)
             && (e + 1 <=? Z.of_nat (length (bytes_of_string content))))
      with true
      by (symmetry; rewrite !andb_true_iff, !Z.leb_le; lia).
    reflexivity.
  - eexists. split; [reflexivity |]. split; [discriminate |].
    intros; discriminate.
Qed.

(** The validator answers in prose around the JSON object. *)
Lemma verifyAnswer_verdict_witness :
  exists r,
    verifyAnswerFrom
      (fun text => if String.eqb text "{}" then
                     Ok {| Valid := true; vr_Reasoning := "" |}
                   else Err (ErrNew "invalid character"))
      None None {| chunks := [["ok: {"%string]; []; ["} done"%string]];
                   streamErr := None |}
    = Some r
    /\ r = Ok true.
Proof.
  destruct (verifyAnswer_verdict
              (fun text => if String.eqb text "{}" then
                             Ok {| Valid := true; vr_Reasoning := "" |}
                           else Err (ErrNew "invalid character"))
              None None {| chunks := [["ok: {"%string]; []; ["} done"%string]];
                           streamErr := None |})
    as (r & Hr & _).
  exists r. split; [exact Hr |].
  vm_compute in Hr. congruence.
Defined.

(** X23. [Solve] never panics. It returns a grid only on two paths: the
    content decodes as an [Answer] whose grid is not empty and that the
    self-verification did not reject (a verification that fails to run is
    only a warning); or the content does not decode and [parseAnswerGrid]
    extracts a grid from it, which then is rectangular and is returned
    without verification. The grid is never empty. The size hints of the
    puzzle decide nothing: a mismatch is only a warning. An error of the
    stream is reported as [ErrAIUnavailable] whatever was received. *)
Theorem Solve_verdict unmarshalAnswer unmarshalGrid verify p marshalPuzzle x :
  exists r,
    SolveFrom unmarshalAnswer unmarshalGrid verify p marshalPuzzle x = Some r
    /\ (forall g w,
          r = Solved g w ->
          let content := streamContent (chunks x) in
          g <> []
          /\ ((exists a,
                 unmarshalAnswer content = Ok a /\ g = answer_Answer a
                 /\ verify g <> Ok false)
              \/ (exists e0,
                    unmarshalAnswer content = Err e0 /\ w = []
                    /\ parseAnswerGrid unmarshalGrid content = Some (Ok g)
                    /\ exists width, (0 < width)%nat /\ rectangular width g)))
    /\ (forall p',
          option_map verdict
            (SolveFrom unmarshalAnswer unmarshalGrid verify p' marshalPuzzle x)
          = Some (verdict r))
    /\ (forall err,
          marshalPuzzle = None -> streamErr x = Some err ->
          r = Failed (Unavailable err)
          /\ failureIsUnavailable (Unavailable err) = true).
Proof.
  unfold SolveFrom.
  destruct marshalPuzzle as [e1 |].
  { eexists. split; [reflexivity |]. split; [discriminate |].
    split; [reflexivity | intros; discriminate]. }
  destruct (streamErr x) as [e2 |] eqn:Hstream.
  { eexists. split; [reflexivity |]. split; [discriminate |].
    split; [reflexivity |]. intros err _ H. inversion H. auto. }
  cbv zeta. set (content := streamContent (chunks x)).
  destruct (String.eqb content "").
  { eexists. split; [reflexivity |]. split; [discriminate |].
    split; [reflexivity | intros; discriminate]. }
  destruct (unmarshalAnswer content) as [a | e0] eqn:Hdec.
  - destruct (Nat.eqb_spec (length (answer_Answer a)) 0) as [Hlen | Hlen].
    { eexists. split; [reflexivity |]. split; [discriminate |].
      split; [reflexivity | intros; discriminate]. }
    assert (Hne : answer_Answer a <> []).
    { intros Hnil. rewrite Hnil in Hlen. contradiction. }
    destruct (verify (answer_Answer a)) as [[|] | verr] eqn:Hver; cbn [negb].
    + eexists. split; [reflexivity |]. split; [| split].
      * intros g w H. inversion H; subst. split; [exact Hne |]. left.
        exists a. rewrite Hver. repeat split. discriminate.
      * intros p'. reflexivity.
      * intros; discriminate.
    + eexists. split; [reflexivity |]. split; [discriminate |].
      split; [reflexivity | intros; discriminate].
    + eexists. split; [reflexivity |]. split; [| split].
      * intros g w H. inversion H; subst. split; [exact Hne |]. left.
        exists a. rewrite Hver. repeat split. discriminate.
      * intros p'. reflexivity.
      * intros; discriminate.
  - destruct (parseAnswerGrid_defined unmarshalGrid content) as [[g | pe] Hp];
      rewrite Hp.
    + eexists. split; [reflexivity |]. split; [| split].
      * intros g' w H. inversion H; subst.
        destruct (parseAnswerGrid_Ok_shape _ _ _ Hp) as [Hne Hrect].
        split; [exact Hne |]. right. exists e0. auto.
      * intros p'. reflexivity.
      * intros; discriminate.
    + eexists. split; [reflexivity |]. split; [discriminate |].
      split; [reflexivity | intros; discriminate].
Qed.

(** The answer has the wrong size and the verification fails to run: the
    answer is returned with two warnings. *)
Lemma Solve_verdict_witness :
  exists r,
    SolveFrom
      (fun _ => Ok {| Reasoning := ""; answer_Answer := [[1; 2; 3]];
                      Confidence := 90 |})
      (fun _ => Err (ErrNew "invalid character"))
      (fun _ => Err (ErrNew "no content in verify response"))
      somePuzzle None
      {| chunks := [["{"%string]; ["}"%string]]; streamErr := None |}
    = Some r
    /\ verdict r = inl [[1; 2; 3]].
Proof.
  destruct (Solve_verdict
              (fun _ => Ok {| Reasoning := ""; answer_Answer := [[1; 2; 3]];
                              Confidence := 90 |})
              (fun _ => Err (ErrNew "invalid character"))
              (fun _ => Err (ErrNew "no content in verify response"))
              somePuzzle None
              {| chunks := [["{"%string]; ["}"%string]]; streamErr := None |})
    as (r & Hr & _).
  exists r. split; [exact Hr |].
  vm_compute in Hr. inversion Hr. reflexivity.
Defined.

(** ** Cookie headers *)

Lemma string_of_bytes_of_string s :
  strings.string_of_bytes (bytes_of_string s) = s.
Proof.
  induction s as [| c s IH]; [reflexivity |].
  cbn. rewrite IH, N2Z.id, ascii_N_embedding. reflexivity.
Qed.

Lemma bytes_of_string_app a b :
  bytes_of_string (a ++ b) = bytes_of_string a ++ bytes_of_string b.
Proof. induction a as [| c a IH]; cbn; [| rewrite IH]; reflexivity. Qed.

Lemma bytes_of_string_nil s : bytes_of_string s = [] -> s = ""%string.
Proof. destruct s; [reflexivity | discriminate]. Qed.

(** Trimming only removes bytes. *)
Lemma trim_In b l :
  In b (strings.trimRight (strings.trimLeft l)) -> In b l.
Proof.
  unfold strings.trimRight, strings.trimLeft. intros H.
  apply in_rev in H.
  destruct (trimLeading_suffix (map (@rev Z) strings.spaceRunes)
              (length (strings.trimLeading strings.spaceRunes (length l) l))
              (rev (strings.trimLeading strings.spaceRunes (length l) l)))
    as [pre Hpre].
  assert (H1 : In b (rev (strings.trimLeading strings.spaceRunes (length l) l))).
  { rewrite Hpre. apply in_or_app. right. exact H. }
  apply in_rev in H1.
  destruct (trimLeading_suffix strings.spaceRunes (length l) l) as [pre' Hpre'].
  rewrite Hpre'. apply in_or_app. right. exact H1.
Qed.

Lemma TrimSpace_In b s :
  In b (bytes_of_string (strings.TrimSpace s)) -> In b (bytes_of_string s).
Proof.
  unfold strings.TrimSpace.
  rewrite bytes_of_string_of_bytes
    by (apply trim_isByte; apply bytes_of_string_isByte).
  apply trim_In.
Qed.

Lemma splitOn_nonempty sep bs : splitOn sep bs <> [].
Proof.
  destruct bs as [| b rest]; cbn; [discriminate |].
  destruct (b =? sep); [discriminate |].
  destruct (splitOn sep rest); discriminate.
Qed.

Lemma splitOn_isByte sep : forall bs,
  Forall isByte bs -> Forall (Forall isByte) (splitOn sep bs).
Proof.
  induction bs as [| b rest IH]; intros Hb; cbn [splitOn].
  - repeat constructor.
  - inversion Hb as [| ? ? Hb1 Hb2]; subst. specialize (IH Hb2).
    destruct (b =? sep); [constructor; [constructor | exact IH] |].
    destruct (splitOn sep rest) as [| p ps];
      [constructor; [constructor; [exact Hb1 | constructor] | constructor] |].
    inversion IH as [| ? ? Hp Hps]; subst.
    constructor; [constructor; assumption | exact Hps].
Qed.

Lemma splitOn_no_sep sep : forall bs,
  Forall (fun p => ~ In sep p) (splitOn sep bs).
Proof.
  induction bs as [| b rest IH]; cbn [splitOn].
  - constructor; [intros [] | constructor].
  - destruct (Z.eqb_spec b sep) as [-> | Hne];
      [constructor; [intros [] | exact IH] |].
    destruct (splitOn sep rest) as [| p ps].
    + constructor; [| constructor].
      intros [Hb | []]. congruence.
    + inversion IH as [| ? ? Hp Hps]; subst.
      constructor; [| exact Hps].
      intros [Hb | Hin]; [congruence | contradiction].
Qed.

Lemma splitOn_length sep : forall bs,
  length (splitOn sep bs) = S (countByte sep bs).
Proof.
  unfold countByte.
  induction bs as [| b rest IH]; cbn [splitOn filter]; [reflexivity |].
  rewrite (Z.eqb_sym sep b).
  destruct (b =? sep); [cbn [length]; rewrite IH; reflexivity |].
  destruct (splitOn sep rest) as [| p ps] eqn:E;
    [exfalso; eapply splitOn_nonempty; exact E |].
  exact IH.
Qed.

Lemma cutAt_Some sep : forall bs k v,
  cutAt sep bs = Some (k, v) -> bs = k ++ sep :: v /\ ~ In sep k.
Proof.
  induction bs as [| b rest IH]; intros k v H; [discriminate |].
  cbn in H. destruct (Z.eqb_spec b sep) as [-> | Hne].
  - inversion H; subst. split; [reflexivity | intros []].
  - destruct (cutAt sep rest) as [[k' v'] |]; [| discriminate].
    inversion H; subst. destruct (IH _ _ eq_refl) as [-> Hn].
    split; [reflexivity |]. intros [Hb | Hin]; [congruence | contradiction].
Qed.

Lemma flat_map_length_le {A B} (f : A -> list B) l :
  (forall a, length (f a) <= 1)%nat ->
  (length (flat_map f l) <= length l)%nat.
Proof.
  intros Hf. induction l as [| a l IH]; [reflexivity |].
  cbn. rewrite length_app. specialize (Hf a). lia.
Qed.

Lemma parseCookiePart_clean p :
  ~ In semicolon p -> Forall isByte p -> Forall cleanCookie (parseCookiePart p).
Proof.
  intros Hsemi Hbytes. unfold parseCookiePart. cbv zeta.
  set (t := strings.TrimSpace (strings.string_of_bytes p)).
  assert (Ht : ~ In semicolon (bytes_of_string t)).
  { intros H. apply TrimSpace_In in H.
    rewrite bytes_of_string_of_bytes in H by exact Hbytes. contradiction. }
  destruct (String.eqb t ""); [constructor |].
  destruct (cutAt equalsSign (bytes_of_string t)) as [[k v] |] eqn:Hcut;
    [| constructor].
  apply cutAt_Some in Hcut as [Hkv Hk].
  assert (Hkb : Forall isByte k /\ Forall isByte v).
  { pose proof (bytes_of_string_isByte t) as Hb. rewrite Hkv in Hb.
    apply Forall_app in Hb as [Hb1 Hb2]. inversion Hb2; subst. auto. }
  destruct Hkb as [Hkb Hvb].
  destruct (String.eqb_spec (strings.TrimSpace (strings.string_of_bytes k)) "")
    as [Hempty | Hname]; [constructor |].
  constructor; [| constructor].
  unfold cleanCookie. cbn [ck_Name ck_Value ck_Path].
  split; [exact Hname |].
  split; [apply TrimSpace_idempotent |].
  split; [apply TrimSpace_idempotent |].
  split; [reflexivity |].
  split; [| split].
  - intros H. apply TrimSpace_In in H.
    rewrite bytes_of_string_of_bytes in H by exact Hkb. contradiction.
  - intros H. apply TrimSpace_In in H.
    rewrite bytes_of_string_of_bytes in H by exact Hkb.
    apply Ht. rewrite Hkv. apply in_or_app. left. exact H.
  - intros H. apply TrimSpace_In in H.
    rewrite bytes_of_string_of_bytes in H by exact Hvb.
    apply Ht. rewrite Hkv. apply in_or_app. right. right. exact H.
Qed.

Lemma parseCookiePart_length p : (length (parseCookiePart p) <= 1)%nat.
Proof.
  unfold parseCookiePart. cbv zeta.
  destruct (String.eqb _ ""); [cbn; lia |].
  destruct (cutAt _ _) as [[k v] |]; [| cbn; lia].
  destruct (String.eqb _ ""); cbn; lia.
Qed.

Lemma parseCookieHeader_clean header :
  Forall cleanCookie (parseCookieHeader header).
Proof.
  unfold parseCookieHeader. cbv zeta.
  destruct (String.eqb _ ""); [constructor |].
  rewrite Forall_forall. intros ck Hck.
  apply in_flat_map in Hck as (p & Hp & Hck).
  pose proof (splitOn_no_sep semicolon
                (bytes_of_string (strings.TrimSpace header))) as Hsep.
  pose proof (splitOn_isByte semicolon _
                (bytes_of_string_isByte (strings.TrimSpace header))) as Hbytes.
  rewrite Forall_forall in Hsep, Hbytes.
  pose proof (parseCookiePart_clean p (Hsep p Hp) (Hbytes p Hp)) as Hclean.
  rewrite Forall_forall in Hclean. auto.
Qed.

(** X24. [parseCookieHeader]: every cookie it returns has a name that is not
    empty, a name and a value that are trimmed and contain no semicolon (and
    the name no equals sign), and the path "/". There are at most as many
    cookies as there are parts between semicolons in the trimmed header, a
    blank header gives none, and surrounding space of the header does not
    matter. *)
Theorem parseCookieHeader_cookies header :
  Forall cleanCookie (parseCookieHeader header)
  /\ (length (parseCookieHeader header)
      <= S (countByte semicolon
              (bytes_of_string (strings.TrimSpace header))))%nat
  /\ (strings.TrimSpace header = ""%string -> parseCookieHeader header = [])
  /\ parseCookieHeader (strings.TrimSpace header) = parseCookieHeader header.
Proof.
  split; [apply parseCookieHeader_clean |]. split; [| split].
  - unfold parseCookieHeader. cbv zeta.
    destruct (String.eqb _ ""); [cbn; lia |].
    rewrite <- splitOn_length. apply flat_map_length_le.
    apply parseCookiePart_length.
  - intros H. unfold parseCookieHeader. rewrite H. reflexivity.
  - unfold parseCookieHeader. rewrite TrimSpace_idempotent. reflexivity.
Qed.

Lemma parseCookieHeader_cookies_witness :
  parseCookieHeader " sid = 1 ; ; theme=dark;broken; =x "
  = [{| ck_Name := "sid"; ck_Value := "1"; ck_Path := "/" |};
     {| ck_Name := "theme"; ck_Value := "dark"; ck_Path := "/" |}]
  /\ parseCookieHeader "   " = [].
Proof.
  split; [vm_compute; reflexivity |].
  apply (proj1 (proj2 (proj2 (parseCookieHeader_cookies "   ")))).
  vm_compute. reflexivity.
Defined.

(** ** From the jar to the header and back *)

Lemma trim_ends b :
  let r := strings.trimRight (strings.trimLeft b) in
  strings.stripAny strings.spaceRunes r = None
  /\ strings.stripAny (map (@rev Z) strings.spaceRunes) (rev r) = None.
Proof.
  cbv zeta. set (l := strings.trimLeft b).
  assert (Hl : strings.stripAny strings.spaceRunes l = None).
  { apply trimLeading_done; [apply spaceRunes_nonempty | lia]. }
  unfold strings.trimRight.
  set (x := strings.trimLeading _ (length l) (rev l)).
  assert (Hx : strings.stripAny (map (@rev Z) strings.spaceRunes) x = None).
  { apply trimLeading_done; [apply spaceRunes_nonempty |].
    rewrite length_rev. lia. }
  split; [| rewrite rev_involutive; exact Hx].
  destruct (trimLeading_suffix (map (@rev Z) strings.spaceRunes)
              (length l) (rev l)) as [pre Hpre].
  fold x in Hpre. apply (f_equal (@rev Z)) in Hpre.
  rewrite rev_involutive, rev_app_distr in Hpre.
  apply (stripAny_None_prefix _ _ (rev pre)). rewrite <- Hpre. exact Hl.
Qed.

Lemma trimmed_ends s :
  strings.TrimSpace s = s ->
  strings.stripAny strings.spaceRunes (bytes_of_string s) = None
  /\ strings.stripAny (map (@rev Z) strings.spaceRunes)
       (rev (bytes_of_string s)) = None.
Proof.
  intros H. apply (f_equal bytes_of_string) in H. unfold strings.TrimSpace in H.
  rewrite bytes_of_string_of_bytes in H
    by (apply trim_isByte; apply bytes_of_string_isByte).
  rewrite <- H. apply trim_ends.
Qed.

Lemma ends_trim_fixed b :
  strings.stripAny strings.spaceRunes b = None ->
  strings.stripAny (map (@rev Z) strings.spaceRunes) (rev b) = None ->
  strings.trimRight (strings.trimLeft b) = b.
Proof.
  intros H1 H2. unfold strings.trimLeft. rewrite trimLeading_fixed by exact H1.
  unfold strings.trimRight. rewrite trimLeading_fixed by exact H2.
  apply rev_involutive.
Qed.

Lemma stripPrefix_extend p : forall x c y r,
  ~ In c p -> strings.stripPrefix p (x ++ c :: y) = Some r ->
  exists r', strings.stripPrefix p x = Some r'.
Proof.
  induction p as [| a p IH]; intros x c y r Hc H; [eexists; reflexivity |].
  destruct x as [| b x]; cbn in H |- *.
  - destruct (Z.eqb_spec a c) as [-> | _]; [| discriminate].
    exfalso. apply Hc. left. reflexivity.
  - destruct (a =? b); [| discriminate].
    eapply IH; [| exact H]. intros Hin. apply Hc. right. exact Hin.
Qed.

(** A byte that is in no pattern stops every pattern. *)
Lemma stripAny_extend ps x c y :
  (forall p, In p ps -> ~ In c p) ->
  strings.stripAny ps x = None ->
  strings.stripAny ps (x ++ c :: y) = None.
Proof.
  induction ps as [| p ps IH]; intros Hc H; [reflexivity |].
  cbn in H |- *.
  destruct (strings.stripPrefix p x) as [r0 |] eqn:Ex; [discriminate |].
  destruct (strings.stripPrefix p (x ++ c :: y)) as [r |] eqn:E.
  - apply stripPrefix_extend in E as [r' E];
      [congruence | apply Hc; left; reflexivity].
  - apply IH; [| exact H]. intros q Hq. apply Hc. right. exact Hq.
Qed.

Lemma notSpaceByte_rev b :
  notSpaceByte b = true ->
  forall p, In p (map (@rev Z) strings.spaceRunes) -> ~ In b p.
Proof.
  intros Hb p Hp Hin. apply in_map_iff in Hp as (q & <- & Hq).
  apply in_rev in Hin. exact (notSpaceByte_spec b Hb q Hq Hin).
Qed.

Lemma cookiePair_bytes ck :
  bytes_of_string (cookiePair ck)
  = bytes_of_string (ck_Name ck) ++ equalsSign :: bytes_of_string (ck_Value ck).
Proof. unfold cookiePair. rewrite bytes_of_string_app. reflexivity. Qed.

Lemma cookiePair_ends ck tail front :
  cleanCookie ck ->
  strings.stripAny strings.spaceRunes
    (bytes_of_string (ck_Name ck) ++ equalsSign :: tail) = None
  /\ strings.stripAny (map (@rev Z) strings.spaceRunes)
       (rev (front ++ equalsSign :: bytes_of_string (ck_Value ck))) = None.
Proof.
  intros (_ & Hn & Hv & _). split.
  - apply stripAny_extend; [apply notSpaceByte_spec; reflexivity |].
    apply trimmed_ends. exact Hn.
  - rewrite rev_app_distr. cbn [rev]. rewrite <- app_assoc. cbn [app].
    apply stripAny_extend; [apply notSpaceByte_rev; reflexivity |].
    apply trimmed_ends. exact Hv.
Qed.

Lemma splitOn_app sep y : forall x,
  ~ In sep x -> splitOn sep (x ++ sep :: y) = x :: splitOn sep y.
Proof.
  induction x as [| b x IH]; intros Hx; cbn [app splitOn].
  - rewrite Z.eqb_refl. reflexivity.
  - destruct (Z.eqb_spec b sep) as [-> | _];
      [exfalso; apply Hx; left; reflexivity |].
    rewrite IH; [reflexivity |]. intros H. apply Hx. right. exact H.
Qed.

Lemma splitOn_whole sep : forall x, ~ In sep x -> splitOn sep x = [x].
Proof.
  induction x as [| b x IH]; intros Hx; cbn [splitOn]; [reflexivity |].
  destruct (Z.eqb_spec b sep) as [-> | _];
    [exfalso; apply Hx; left; reflexivity |].
  rewrite IH; [reflexivity |]. intros H. apply Hx. right. exact H.
Qed.

Lemma cutAt_app sep v : forall k,
  ~ In sep k -> cutAt sep (k ++ sep :: v) = Some (k, v).
Proof.
  induction k as [| b k IH]; intros Hk; cbn [app cutAt].
  - rewrite Z.eqb_refl. reflexivity.
  - destruct (Z.eqb_spec b sep) as [-> | _];
      [exfalso; apply Hk; left; reflexivity |].
    rewrite IH; [reflexivity |]. intros H. apply Hk. right. exact H.
Qed.

(** A part of the header that is the pair of a clean cookie, after the
    space that follows a semicolon or not, is parsed to that cookie. *)
Lemma parseCookiePart_pair pre ck :
  cleanCookie ck -> pre = [] \/ pre = [32] ->
  parseCookiePart (pre ++ bytes_of_string (cookiePair ck)) = [ck].
Proof.
  intros Hclean Hpre.
  pose proof Hclean as (Hne & Hn & Hv & Hpath & Heq & _ & _).
  destruct (cookiePair_ends ck (bytes_of_string (ck_Value ck))
              (bytes_of_string (ck_Name ck)) Hclean) as [Hleft Hright].
  rewrite <- cookiePair_bytes in Hleft, Hright.
  assert (Htrim : strings.TrimSpace
                    (strings.string_of_bytes
                       (pre ++ bytes_of_string (cookiePair ck)))
                  = cookiePair ck).
  { unfold strings.TrimSpace.
    rewrite bytes_of_string_of_bytes.
    - assert (Hl : strings.trimLeft (pre ++ bytes_of_string (cookiePair ck))
                   = bytes_of_string (cookiePair ck)).
      { destruct Hpre as [-> | ->].
        - cbn [app]. unfold strings.trimLeft.
          apply trimLeading_fixed. exact Hleft.
        - unfold strings.trimLeft. cbn [app length strings.trimLeading].
          change (strings.stripAny strings.spaceRunes
                    (32 :: bytes_of_string (cookiePair ck)))
            with (Some (bytes_of_string (cookiePair ck))).
          apply trimLeading_fixed. exact Hleft. }
      rewrite Hl. unfold strings.trimRight.
      rewrite trimLeading_fixed by exact Hright.
      rewrite rev_involutive. apply string_of_bytes_of_string.
    - apply Forall_app. split; [| apply bytes_of_string_isByte].
      destruct Hpre as [-> | ->]; repeat constructor; unfold isByte; lia. }
  unfold parseCookiePart. cbv zeta. rewrite Htrim.
  assert (Hpair : String.eqb (cookiePair ck) "" = false).
  { apply String.eqb_neq. intros H. apply Hne.
    unfold cookiePair in H. destruct (ck_Name ck); [reflexivity | discriminate]. }
  rewrite Hpair, cookiePair_bytes, cutAt_app by exact Heq.
  rewrite !string_of_bytes_of_string, Hn, Hv.
  apply String.eqb_neq in Hne. rewrite Hne.
  destruct ck as [n v p]. cbn in *. subst p. reflexivity.
Qed.

Lemma cookiePair_no_semicolon ck :
  cleanCookie ck -> ~ In semicolon (bytes_of_string (cookiePair ck)).
Proof.
  intros (_ & _ & _ & _ & _ & Hn & Hv). rewrite cookiePair_bytes.
  intros H. apply in_app_or in H as [H | [H | H]];
    [contradiction | discriminate | contradiction].
Qed.

Lemma Join_cons e e' rest sep :
  Join (e :: e' :: rest) sep = (e ++ sep ++ Join (e' :: rest) sep)%string.
Proof. reflexivity. Qed.

(** The parts of a header that was joined from clean cookies. *)
Lemma parse_joined : forall cks pre,
  cks <> [] -> Forall cleanCookie cks -> pre = [] \/ pre = [32] ->
  flat_map parseCookiePart
    (splitOn semicolon
       (pre ++ bytes_of_string (Join (map cookiePair cks) "; ")))
  = cks.
Proof.
  induction cks as [| ck cks IH]; intros pre Hne Hclean Hpre; [contradiction |].
  inversion Hclean as [| ? ? Hck Hrest]; subst.
  assert (Hno : ~ In semicolon (pre ++ bytes_of_string (cookiePair ck))).
  { intros H. apply in_app_or in H as [H | H].
    - destruct Hpre as [-> | ->]; [contradiction |].
      destruct H as [H | []]. discriminate.
    - exact (cookiePair_no_semicolon ck Hck H). }
  destruct cks as [| ck' cks].
  - cbn [map Join]. rewrite splitOn_whole by exact Hno.
    cbn [flat_map]. rewrite parseCookiePart_pair by assumption. reflexivity.
  - cbn [map]. rewrite Join_cons, !bytes_of_string_app.
    change (bytes_of_string "; ") with [semicolon; 32]. cbn [app].
    rewrite app_assoc, splitOn_app by exact Hno.
    cbn [flat_map]. rewrite parseCookiePart_pair by assumption.
    change (32 :: bytes_of_string (Join (cookiePair ck' :: map cookiePair cks)
                                        "; "))
      with ([32] ++ bytes_of_string (Join (map cookiePair (ck' :: cks)) "; ")).
    rewrite IH; [reflexivity | discriminate | exact Hrest | right; reflexivity].
Qed.

(** The first name and the last value of a joined header. *)
Lemma joined_ends : forall cks,
  cks <> [] ->
  (exists ck tail,
     In ck cks
     /\ bytes_of_string (Join (map cookiePair cks) "; ")
        = bytes_of_string (ck_Name ck) ++ equalsSign :: tail)
  /\ (exists ck front,
        In ck cks
        /\ bytes_of_string (Join (map cookiePair cks) "; ")
           = front ++ equalsSign :: bytes_of_string (ck_Value ck)).
Proof.
  induction cks as [| ck cks IH]; intros Hne; [contradiction |].
  destruct cks as [| ck' cks].
  - cbn [map Join]. rewrite cookiePair_bytes. split.
    + exists ck, (bytes_of_string (ck_Value ck)).
      split; [left |]; reflexivity.
    + exists ck, (bytes_of_string (ck_Name ck)).
      split; [left |]; reflexivity.
  - destruct (IH ltac:(discriminate)) as [_ (ck2 & front & Hin & Hfront)].
    cbn [map]. rewrite Join_cons, !bytes_of_string_app, cookiePair_bytes.
    split.
    + exists ck. eexists. split; [left; reflexivity |].
      rewrite <- app_assoc. cbn [app]. reflexivity.
    + exists ck2. eexists. split; [right; exact Hin |].
      cbn [map] in Hfront. rewrite Hfront, !app_assoc. reflexivity.
Qed.

Lemma export_pairs cks :
  Forall cleanCookie cks ->
  flat_map (fun ck : option httpCookie =>
              match ck with
              | None => []
              | Some ck =>
                  if String.eqb (strings.TrimSpace (ck_Name ck)) "" then []
                  else [(ck_Name ck ++ "=" ++ ck_Value ck)%string]
              end) (map Some cks)
  = map cookiePair cks.
Proof.
  induction 1 as [| c l Hc _ IH]; [reflexivity |].
  cbn [map flat_map]. rewrite IH.
  destruct Hc as (Hne & Hn & _). rewrite Hn.
  apply String.eqb_neq in Hne. rewrite Hne. reflexivity.
Qed.

Lemma export_clean cookie ck cks :
  Forall cleanCookie (ck :: cks) ->
  exportCookieHeaderOf cookie (Some (map Some (ck :: cks)))
  = Join (map cookiePair (ck :: cks)) "; ".
Proof.
  intros Hclean. unfold exportCookieHeaderOf. cbn [map].
  change (Some ck :: map Some cks) with (map Some (ck :: cks)).
  rewrite export_pairs by exact Hclean. reflexivity.
Qed.

(** X25. Round trip between the jar and the header. For cookies as
    [parseCookieHeader] produces them (a name that is not empty, name and
    value trimmed and without separators, path "/"), the header that
    [exportCookieHeader] writes for a jar that holds them is parsed back by
    [parseCookieHeader] to exactly these cookies, in order. So the header
    written for the cookies parsed from any header parses to the same
    cookies. Without a jar, or with a jar that holds no cookie for the base
    URL, the header is the trimmed cookie of the client. *)
Theorem cookie_header_round_trip cookie :
  (forall cks,
     cks <> [] -> Forall cleanCookie cks ->
     parseCookieHeader (exportCookieHeaderOf cookie (Some (map Some cks)))
     = cks)
  /\ (forall header,
        parseCookieHeader header <> [] ->
        parseCookieHeader
          (exportCookieHeaderOf cookie
             (Some (map Some (parseCookieHeader header))))
        = parseCookieHeader header)
  /\ exportCookieHeaderOf cookie None = strings.TrimSpace cookie
  /\ exportCookieHeaderOf cookie (Some []) = strings.TrimSpace cookie.
Proof.
  assert (Hround : forall cks,
             cks <> [] -> Forall cleanCookie cks ->
             parseCookieHeader
               (exportCookieHeaderOf cookie (Some (map Some cks))) = cks).
  { intros cks Hne Hclean. destruct cks as [| ck cks]; [contradiction |].
    rewrite export_clean by exact Hclean.
    set (h := Join (map cookiePair (ck :: cks)) "; ").
    destruct (joined_ends (ck :: cks) Hne)
      as [(c1 & tail & Hin1 & Htail) (c2 & front & Hin2 & Hfront)].
    fold h in Htail, Hfront.
    rewrite Forall_forall in Hclean.
    assert (Htrim : strings.TrimSpace h = h).
    { unfold strings.TrimSpace. rewrite ends_trim_fixed.
      - apply string_of_bytes_of_string.
      - rewrite Htail.
        exact (proj1 (cookiePair_ends c1 tail [] (Hclean c1 Hin1))).
      - rewrite Hfront.
        exact (proj2 (cookiePair_ends c2 [] front (Hclean c2 Hin2))). }
    unfold parseCookieHeader. cbv zeta. rewrite Htrim.
    assert (Hh : String.eqb h "" = false).
    { apply String.eqb_neq. intros H. rewrite H in Htail.
      destruct (bytes_of_string (ck_Name c1)); discriminate Htail. }
    rewrite Hh.
    apply (parse_joined (ck :: cks) []); [exact Hne | | left; reflexivity].
    rewrite Forall_forall. exact Hclean. }
  split; [exact Hround |]. split; [| split; reflexivity].
  intros header Hne. apply Hround; [exact Hne |].
  apply parseCookieHeader_clean.
Qed.

Lemma cookie_header_round_trip_witness :
  parseCookieHeader
    (exportCookieHeaderOf "stale=1"
       (Some (map Some
                [{| ck_Name := "sid"; ck_Value := "a=b"; ck_Path := "/" |};
                 {| ck_Name := "theme"; ck_Value := ""; ck_Path := "/" |}])))
  = [{| ck_Name := "sid"; ck_Value := "a=b"; ck_Path := "/" |};
     {| ck_Name := "theme"; ck_Value := ""; ck_Path := "/" |}].
Proof.
  apply (proj1 (cookie_header_round_trip "stale=1")); [discriminate |].
  repeat constructor; try (vm_compute; reflexivity); try discriminate;
    cbn; intuition discriminate.
Defined.

(** ** What is submitted *)

Lemma eo_In {A} allowed (m : M A) s a t s' e :
  emitsOnly allowed m -> m s = Some (a, t, s') -> In e t -> allowed e = true.
Proof.
  intros Hm Hrun Hin. apply Hm in Hrun. rewrite forallb_forall in Hrun. auto.
Qed.

Lemma eo_handleOutcome fl st sub :
  emitsOnly notSubmissionNorPow (handleOutcome fl st sub).
Proof. unfold handleOutcome. eo_requests. eo. Qed.

Lemma In_retryTrace call format e : forall n b,
  In e (retryTrace call format n b ++ [ECall call]) ->
  e = ECall call \/ (exists l f args, e = ELog l f args)
  \/ exists d, e = ESleep d.
Proof.
  induction n as [| n IH]; intros b H; cbn [retryTrace app] in H.
  - destruct H as [<- | []]. left. reflexivity.
  - destruct H as [<- | [<- | [<- | H]]]; eauto 6.
Qed.

(** Takes a membership in a trace apart, piece by piece. *)
Ltac split_In H :=
  repeat match type of H with
         | In _ (_ ++ _) => apply in_app_or in H as [H | H]
         | In _ (_ :: _) => destruct H as [H | H]
         | In _ [] => destruct H
         | ELog _ _ _ = ECall _ => discriminate H
         | ESleep _ = ECall _ => discriminate H
         | EUsage _ = ECall _ => discriminate H
         | ECall _ = ECall _ => try discriminate H
         end.

(** Closes a case in which the event would lie in a part of the run that
    makes no submission. *)
Ltac no_submission H :=
  match goal with
  | Hrun : ?m ?s = Some (_, ?t, _) |- _ =>
      match type of H with
      | In _ t =>
          let Hx := fresh "Hx" in
          first
            [ pose proof (eo_In notSubmission _ _ _ _ _ _
                            (eo_ensurePow _ _ _) Hrun H) as Hx
            | pose proof (eo_In notSubmission _ _ _ _ _ _
                            (eo_loose _ (eo_puzzleNewRetryLoop _ _ _))
                            Hrun H) as Hx
            | pose proof (eo_In notSubmission _ _ _ _ _ _
                            (eo_loose _ (eo_persistCookieIfChanged _ _ _))
                            Hrun H) as Hx
            | pose proof (eo_In notSubmission _ _ _ _ _ _
                            (eo_loose _ (eo_reauthenticate _ _ _)) Hrun H)
                as Hx
            | pose proof (eo_In notSubmission _ _ _ _ _ _
                            (eo_loose _ (eo_cooldown _)) Hrun H) as Hx
            | pose proof (eo_In notSubmission _ _ _ _ _ _
                            (eo_loose _ (eo_handleOutcome _ _ _)) Hrun H)
                as Hx ];
          cbn in Hx; discriminate Hx
      end
  end.

Lemma submitPhase_submissions gas ctx fl st pNew answer s c t s' :
  submitPhase gas ctx fl st pNew answer s = Some (c, t, s') ->
  forall cl id ans,
    In (ECall (CPuzzleSubmit cl id ans)) t ->
    cl = client st /\ id = ID (Puzzle pNew) /\ ans = answer.
Proof.
  intros H cl id ans Hin. unfold submitPhase, submitWithRetry in H.
  inv_run; split_In Hin; try solve [no_submission Hin].
  all: cbn [client] in *.
  all: match goal with
       | Hs : submitRetryLoop _ _ _ _ _ _ = Some _ |- _ =>
           apply submitRetryLoop_inv in Hs
             as (_ & ? & ? & _ & _ & _ & _ & Ht)
       end.
  all: rewrite Ht in Hin; apply In_retryTrace in Hin
         as [Hin | [(l & f & args & Hin) | (d & Hin)]];
       try discriminate Hin.
  all: inversion Hin; auto.
Qed.

(** X26. What a pass submits is what the solver answered in this pass for
    the puzzle fetched in this pass: every submission in the trace of a pass
    is made with the client of the pass, for the id of the puzzle that the
    fetch of the pass returned, with the answer that the solver's reply
    carried; the fetched puzzle came with a daily attempt left, and the run
    is not a dry run. *)
Theorem submission_integrity gas ctx fl solver st s c t s' :
  loopBody gas ctx fl solver st s = Some (c, t, s') ->
  forall cl id ans,
    In (ECall (CPuzzleSubmit cl id ans)) t ->
    cl = client st
    /\ dryRun fl = false
    /\ exists o pNew,
         In (RPuzzleNew o) s /\ doJSON o = Ok pNew
         /\ id = ID (Puzzle pNew)
         /\ 0 < DailyRemaining pNew
         /\ In (RSolve (Ok ans)) s.
Proof.
  intros H cl id ans Hin. unfold loopBody, puzzleNewWithRetry, Solve in H.
  inv_run; split_In Hin; try solve [no_submission Hin].
  all: cbn [client cfg] in *.
  all: match goal with
       | Hs : submitPhase _ _ _ _ _ _ _ = Some _ |- _ =>
           destruct (submitPhase_submissions _ _ _ _ _ _ _ _ _ _ Hs _ _ _ Hin)
             as (-> & -> & ->)
       end.
  all: cbn [client].
  all: split; [reflexivity |].
  all: split; [first [assumption | reflexivity] |].
  all: match goal with
       | Hf : puzzleNewRetryLoop _ _ _ _ = Some _ |- _ =>
           let os := fresh "os" in
           let o := fresh "fetched" in
           apply puzzleNewRetryLoop_inv in Hf
             as (_ & os & o & -> & _ & Ho & _ & _)
       end.
  all: match goal with
       | Hp : persistCookieIfChanged _ _ _ _ = Some _ |- _ =>
           destruct (sof_persistCookieIfChanged _ _ _ _ _ _ _ Hp)
             as (consumed & -> & _)
       end.
  all: inv_reply.
  all: match goal with
       | Hd : _ = doJSON ?o |- _ => exists o
       end; eexists; split;
         [apply in_or_app; right; left; reflexivity |];
       split; [symmetry; exact Ho |]; split; [reflexivity |]; split;
         [match goal with
          | Hd : (DailyRemaining _ <=? 0) = false |- _ =>
              apply Z.leb_gt in Hd; exact Hd
          end |].
  all: apply in_or_app; right; right; apply in_or_app; right; left;
       reflexivity.
Qed.

(** One pass for one puzzle: the submission in its trace. *)
Lemma submission_integrity_witness :
  someClient = client (someState 0 1)
  /\ dryRun (someFlags false 1) = false
  /\ exists o pNew,
       In (RPuzzleNew o)
          (passUntilSubmit 2
           ++ [RPuzzleSubmit (httpOK (someOutcome true true 1));
               RExportCookieHeader "sid=1"])
       /\ doJSON o = Ok pNew
       /\ "p1"%string = ID (Puzzle pNew)
       /\ 0 < DailyRemaining pNew
       /\ In (RSolve (Ok [[4; 3]; [2; 1]]))
             (passUntilSubmit 2
              ++ [RPuzzleSubmit (httpOK (someOutcome true true 1));
                  RExportCookieHeader "sid=1"]).
Proof.
  eapply (submission_integrity 1 Background (someFlags false 1) someSolver
            (someState 0 1)
            (passUntilSubmit 2
             ++ [RPuzzleSubmit (httpOK (someOutcome true true 1));
                 RExportCookieHeader "sid=1"])).
  - reflexivity.
  - do 11 right. left. reflexivity.
Defined.

(** ** How long the run sleeps *)

Lemma eo_bind_always {A B} allowed (P : A -> Prop) (m : M A) (k : A -> M B) :
  emitsOnly allowed m -> always P m ->
  (forall a, P a -> emitsOnly allowed (k a)) ->
  emitsOnly allowed (bind m k).
Proof.
  intros Hm HP Hk s b t s' H.
  apply bind_inv in H as (a & t1 & s1 & t2 & H1 & H2 & ->).
  rewrite forallb_app, (Hm _ _ _ _ H1), (Hk a (HP _ _ _ _ H1) _ _ _ _ H2).
  reflexivity.
Qed.

Lemma always_randIntn n : always (fun v => 0 <= v < n) (randIntn n).
Proof.
  intros s v t s' H. unfold randIntn in H.
  apply ask_inv in H as (r & _ & Hr & _).
  destruct r; try discriminate.
  destruct ((0 <=? v0) && (v0 <? n)) eqn:E; [| discriminate].
  inversion Hr; subst. apply andb_true_iff in E as [E1 E2].
  apply Z.leb_le in E1. apply Z.ltb_lt in E2. lia.
Qed.

Lemma sleepInRange_seconds k :
  2 <= k <= 300 -> sleepInRange (ESleep (k * Second)) = true.
Proof.
  intros Hk. unfold sleepInRange, Second.
  apply andb_true_iff. split; apply Z.leb_le; lia.
Qed.

Create HintDb eos.

(** Follows the structure of a computation down to its events; the sleeps
    are left to be bounded. *)
Ltac eos :=
  cbv zeta beta;
  lazymatch goal with
  | |- emitsOnly _ (ret _) => apply eo_ret
  | |- emitsOnly _ stuck => apply eo_stuck
  | |- emitsOnly _ (liftOption _) => apply eo_liftOption
  | |- emitsOnly _ (Sleep _) => apply eo_emit
  | |- emitsOnly _ (emit _) => apply eo_emit; reflexivity
  | |- emitsOnly _ (logf _ _ _) => apply eo_emit; reflexivity
  | |- emitsOnly _ (ask _ _) => apply eo_ask; reflexivity
  | |- emitsOnly _ (bind (randIntn ?n) _) =>
      apply (eo_bind_always _ (fun v => 0 <= v < n));
      [ unfold randIntn; apply eo_ask; reflexivity
      | apply always_randIntn
      | intros ? ?; eos ]
  | |- emitsOnly _ (bind _ _) => apply eo_bind; [eos | intros ?; eos]
  | |- emitsOnly _ (match ?x with _ => _ end) => destruct x; eos
  | |- _ => first [solve [auto with eos] | idtac]
  end.

Lemma backoffAt_next k : nextBackoff (backoffAt k) = backoffAt (S k).
Proof.
  rewrite <- !backoff_closed_form. reflexivity.
Qed.

Lemma backoffAt_inRange k : sleepInRange (ESleep (backoffAt k)) = true.
Proof.
  pose proof (backoffAt_bound k) as H. unfold sleepInRange, Second in *.
  apply andb_true_iff. split; apply Z.leb_le; lia.
Qed.

Lemma eos_puzzleNewRetryLoop c : forall fuel k,
  emitsOnly sleepInRange (puzzleNewRetryLoop fuel c (backoffAt k)).
Proof.
  induction fuel as [| fuel IH]; intros k; cbn [puzzleNewRetryLoop];
    [apply eo_stuck |].
  fold (nextBackoff (backoffAt k)). rewrite backoffAt_next.
  unfold puzzleNew. eos. apply backoffAt_inRange.
Qed.

Lemma eos_submitRetryLoop c id answer : forall fuel k,
  emitsOnly sleepInRange (submitRetryLoop fuel c id answer (backoffAt k)).
Proof.
  induction fuel as [| fuel IH]; intros k; cbn [submitRetryLoop];
    [apply eo_stuck |].
  fold (nextBackoff (backoffAt k)). rewrite backoffAt_next.
  unfold puzzleSubmit. eos. apply backoffAt_inRange.
Qed.

Lemma eos_puzzleNewWithRetry fuel c :
  emitsOnly sleepInRange (puzzleNewWithRetry fuel c).
Proof. apply (eos_puzzleNewRetryLoop c fuel 0). Qed.

Lemma eos_submitWithRetry fuel c id answer :
  emitsOnly sleepInRange (submitWithRetry fuel c id answer).
Proof. apply (eos_submitRetryLoop c id answer fuel 0). Qed.

Lemma eos_newAPIClient cfg : emitsOnly sleepInRange (newAPIClient cfg).
Proof. unfold newAPIClient. eos. Qed.

Lemma eos_persistCookieIfChanged path cfg c :
  emitsOnly sleepInRange (persistCookieIfChanged path cfg c).
Proof. unfold persistCookieIfChanged. eo_requests. eos. Qed.

Lemma eos_ensureLoginInteractive ctx cfg path :
  emitsOnly sleepInRange (ensureLoginInteractive ctx cfg path).
Proof.
  unfold ensureLoginInteractive, loginValidate, promptAndSave, newAPIClient.
  eo_requests. eos.
Qed.

Lemma eos_ensurePow gas ctx c : emitsOnly sleepInRange (ensurePow gas ctx c).
Proof. unfold ensurePow. eo_requests. eos. Qed.

Lemma eos_newAISolver cfg : emitsOnly sleepInRange (newAISolver cfg).
Proof. unfold newAISolver. eo_requests. eos. Qed.

#[local] Hint Resolve eos_puzzleNewWithRetry eos_submitWithRetry
  eos_newAPIClient eos_persistCookieIfChanged eos_ensureLoginInteractive
  eos_ensurePow eos_newAISolver : eos.

Lemma eos_reauthenticate ctx path st :
  emitsOnly sleepInRange (reauthenticate ctx path st).
Proof. unfold reauthenticate. eos. Qed.

Lemma eos_cooldown st : emitsOnly sleepInRange (cooldown st).
Proof.
  unfold cooldown. eos.
  match goal with
  | Hv : 0 <= ?v < _ |- _ =>
      rewrite (wrap64_id (30 + v)) by (unfold minInt64, maxInt64; lia);
      rewrite wrap64_id by (unfold minInt64, maxInt64, Second; lia)
  end.
  apply sleepInRange_seconds. lia.
Qed.

#[local] Hint Resolve eos_reauthenticate eos_cooldown : eos.

Lemma eos_handleOutcome fl st sub :
  emitsOnly sleepInRange (handleOutcome fl st sub).
Proof.
  unfold handleOutcome. eos.
  match goal with
  | Hv : 0 <= ?v < _ |- _ =>
      rewrite (wrap64_id (1 * 60 + v)) by (unfold minInt64, maxInt64; lia);
      rewrite wrap64_id by (unfold minInt64, maxInt64, Second; lia)
  end.
  apply sleepInRange_seconds. lia.
Qed.

#[local] Hint Resolve eos_handleOutcome : eos.

Lemma eos_submitPhase gas ctx fl st pNew answer :
  emitsOnly sleepInRange (submitPhase gas ctx fl st pNew answer).
Proof. unfold submitPhase. eos. Qed.

#[local] Hint Resolve eos_submitPhase : eos.

Lemma eos_loopBody gas ctx fl solver st :
  emitsOnly sleepInRange (loopBody gas ctx fl solver st).
Proof. unfold loopBody, Solve. eos. Qed.

Lemma eos_solveLoop gas ctx fl solver : forall fuel st,
  emitsOnly sleepInRange (solveLoop fuel gas ctx fl solver st).
Proof.
  induction fuel as [| fuel IH]; intros st; cbn [solveLoop].
  - eos.
  - destruct (solvedCount st <? target st); [| eos].
    apply eo_bind; [apply eos_loopBody |].
    intros [st' | e]; [apply IH | eos].
Qed.

#[local] Hint Resolve eos_solveLoop : eos.

Lemma eos_main fuel args : emitsOnly sleepInRange (main fuel args).
Proof.
  unfold main, run, runSolve, runSolveSetup, setupFromQuota.
  eo_requests. eos.
Qed.

Lemma sleepInRange_sleeps t :
  forallb sleepInRange t = true ->
  Forall (fun d => 2 * Second <= d <= 300 * Second) (sleepsOf t).
Proof.
  induction t as [| e t IH]; intros H; [constructor |].
  cbn [forallb] in H. apply andb_true_iff in H as [He Ht].
  unfold sleepsOf. cbn [flat_map]. apply Forall_app. split; [| exact (IH Ht)].
  destruct e; constructor; [| constructor].
  unfold sleepInRange in He. apply andb_true_iff in He as [H1 H2].
  apply Z.leb_le in H1, H2. lia.
Qed.

(** X27. Whatever the replies, no single sleep of a run is shorter than 2
    seconds or longer than 5 minutes: the retry wrappers sleep 2 to 32
    seconds, a cooldown 30 to 59 seconds and the pause of the auto mode 60 to
    300 seconds; nothing else sleeps. *)
Theorem sleeps_bounded fuel args s code t s' :
  main fuel args s = Some (code, t, s') ->
  Forall (fun d => 2 * Second <= d <= 300 * Second) (sleepsOf t).
Proof.
  intros H. apply sleepInRange_sleeps.
  exact (eos_main fuel args _ _ _ _ H).
Qed.

(** The fetch is rate-limited once and then reports an exhausted quota: the
    run has slept once, for 2 seconds. *)
Lemma sleeps_bounded_witness :
  match main 3 solveArgs
          (repliesUntilQuota (someFlags false 1)
           ++ [RDailyRemaining
                 (httpOK {| Remaining := 2; Completed := 3; Limit := 5 |});
               RPowStatus (httpOK validPow); RTimeNow someNow;
               RExportCookieHeader "sid=1";
               RPuzzleNew (httpStatus 429 "slow down");
               RPuzzleNew (httpStatus 403 "已完成")])
  with
  | Some (code, t, _) =>
      code = 0 /\ sleepsOf t <> []
      /\ Forall (fun d => 2 * Second <= d <= 300 * Second) (sleepsOf t)
  | None => False
  end.
Proof.
  destruct (main _ _ _) as [[[code t] rest] |] eqn:E.
  - pose proof (sleeps_bounded _ _ _ _ _ _ E) as Hbound.
    vm_compute in E. inversion E; subst. split; [reflexivity |].
    split; [discriminate | exact Hbound].
  - vm_compute in E. discriminate E.
Defined.

(** ** The auto mode *)

Ltac find_event :=
  lazymatch goal with
  | |- In _ (_ ++ _) =>
      apply in_or_app; first [left; find_event | right; find_event]
  | |- In _ (_ :: _) => first [left; reflexivity | right; find_event]
  end.

(** In auto mode the target is moved only by a pass that sleeps, and then
    to the solved count plus one. *)
Lemma loopBody_auto_target gas ctx fl solver st s st' t s' :
  loopBody gas ctx fl solver st s = Some (Continue st', t, s') ->
  target st' = target st
  \/ (target st' = wrap64 (solvedCount st' + 1)
      /\ exists d, In (ESleep d) t).
Proof.
  intros H. unfold_pass H. unfold Sleep in H.
  inv_run; inv_control; cbn [target solvedCount];
    first [left; reflexivity | right; split; [reflexivity |]].
  all: eexists; find_event.
Qed.

Lemma solveLoop_auto_end gas ctx fl solver :
  autoLoop fl = true ->
  forall fuel st s t s',
    solveLoop fuel gas ctx fl solver st s = Some (None, t, s') ->
    endsWith stoppingLog t \/ exists n, endsWith (autoCompleteLog n) t.
Proof.
  intros Hauto. induction fuel as [| fuel IH]; intros st s t s' H;
    cbn [solveLoop] in H; rewrite Hauto in H;
    destruct (solvedCount st <? target st).
  - discriminate H.
  - inv_run. right. exists (solvedCount st). apply endsWith_last.
  - apply bind_inv in H as (c & t1 & s1 & t2 & H1 & H2 & ->).
    destruct c as [st' | err].
    + apply IH in H2. destruct H2 as [H2 | [n H2]]; [left | right; exists n];
        apply endsWith_app; exact H2.
    + inv_run. left. rewrite app_nil_r.
      eapply loopBody_quiet_return. exact H1.
  - inv_run. right. exists (solvedCount st). apply endsWith_last.
Qed.

(** X28. The auto mode. A pass that goes on leaves the target alone or,
    having slept, sets it to the solved count plus one. A run in auto mode
    that ends without an error ends at a quota stop or with the line that
    reports the auto mode complete. *)
Theorem auto_run_ends fuel ctx fl :
  autoLoop fl = true ->
  (forall gas solver st s st' t s',
     loopBody gas ctx fl solver st s = Some (Continue st', t, s') ->
     target st' = target st
     \/ (target st' = wrap64 (solvedCount st' + 1)
         /\ exists d, In (ESleep d) t))
  /\ (forall args s t s',
        runSolve fuel ctx args (RFlagParse (Ok fl) :: s) = Some (None, t, s') ->
        endsWith stoppingLog t \/ exists n, endsWith (autoCompleteLog n) t).
Proof.
  intros Hauto. split.
  - intros gas solver st s st' t s' H.
    eapply loopBody_auto_target. exact H.
  - intros args s t s' H. unfold runSolve in H.
    apply bind_inv in H as (e & t1 & s1 & t2 & H1 & H2 & ->).
    destruct e as [err | fl0 solver st].
    + apply ret_inv in H2 as (<- & -> & _). left. rewrite app_nil_r.
      eapply runSolveSetup_quiet_exit. exact H1.
    + apply runSolveSetup_flags in H1 as (-> & _).
      apply (solveLoop_auto_end _ _ _ _ Hauto) in H2.
      destruct H2 as [H2 | [n H2]]; [left | right; exists n];
        apply endsWith_app; exact H2.
Qed.

(** The last correct answer of the day in auto mode. *)
Lemma auto_run_ends_witness :
  match runSolve 3 Background ["--auto"%string]
          (repliesUntilQuota (someFlags true 1)
           ++ [RDailyRemaining
                 (httpOK {| Remaining := 1; Completed := 4; Limit := 5 |});
               RPowStatus (httpOK validPow); RTimeNow someNow;
               RExportCookieHeader "sid=1"]
           ++ passUntilSubmit 1
           ++ [RPuzzleSubmit (httpOK (someOutcome true true 0));
               RExportCookieHeader "sid=1"])
  with
  | Some (r, t, _) =>
      r = None
      /\ (endsWith stoppingLog t \/ exists n, endsWith (autoCompleteLog n) t)
  | None => False
  end.
Proof.
  destruct (runSolve _ _ _ _) as [[[r t] rest] |] eqn:E.
  - assert (r = None) as -> by (vm_compute in E; congruence).
    split; [reflexivity |].
    exact (proj2 (auto_run_ends 3 Background (someFlags true 1) eq_refl)
             _ _ _ _ E).
  - vm_compute in E. discriminate E.
Defined.

